(** * Interleave-set selection of ipmctl (DcpmemPkg/driver/Utils/Interleave.c)

    A shallow embedding of the five functions of [Interleave.c] and of the
    static table [INTERLEAVE_SETS], followed by the properties of the
    grouping algorithm.

    Conventions of the embedding.
    - [UINT32] and [UINT64] values are integers of [Z]; every operation that
      can leave the range is followed by its wrap-around ([wrap32], [wrap64]).
    - An array [T x[]] is a [list T] whose length is the capacity of the
      array; the element count travels in a separate [UINT32], as in the C.
    - A pointer argument that may be [NULL] is an [option]; [None] is [NULL].
    - A [DIMM *] is an address ([N], 0 is [NULL]); the structures the
      addresses point to live in a heap that this file only reads.
    - Executions without defined behaviour in C (an access outside an array,
      a null or dangling dereference, a shift by the width of the type or
      more, a shift of [1] into the sign bit of an [int]) yield
      [Undefined]. *)

From stdpp Require Import base numbers list.
From Stdlib Require Import ZArith Lia.

Local Open Scope Z_scope.

(** ** Machine integers *)

Definition wrap32 (z : Z) : Z := z mod 2 ^ 32.
Definition wrap64 (z : Z) : Z := z mod 2 ^ 64.

Definition is_UINT32 (z : Z) : Prop := 0 <= z < 2 ^ 32.
Definition is_UINT64 (z : Z) : Prop := 0 <= z < 2 ^ 64.

(** ** Outcome of a run *)

Inductive result (A : Type) : Type :=
| Done (a : A)      (* the code returned [a] *)
| Undefined         (* the C code has no defined behaviour on this input *)
| OutOfFuel.        (* the fuel of a [while] loop ran out *)

Arguments Done {A} a.
Arguments Undefined {A}.
Arguments OutOfFuel {A}.

Definition bind {A B : Type} (m : result A) (k : A -> result B) : result B :=
  match m with
  | Done a => k a
  | Undefined => Undefined
  | OutOfFuel => OutOfFuel
  end.

Notation "'let*' x ':=' m 'in' k" := (bind m (fun x => k))
  (at level 10, x pattern, m at level 100, k at level 200).

(** ** Status codes *)

Inductive EFI_STATUS : Type :=
| EFI_SUCCESS
| EFI_INVALID_PARAMETER
| EFI_BAD_BUFFER_SIZE
| EFI_OUT_OF_RESOURCES
| EFI_ABORTED.

Definition EFI_ERROR (s : EFI_STATUS) : bool :=
  match s with EFI_SUCCESS => false | _ => true end.

(** ** Arrays *)

Definition array_get {A : Type} (a : list A) (i : Z) : result A :=
  if i <? 0 then Undefined
  else match a !! Z.to_nat i with
       | Some x => Done x
       | None => Undefined
       end.

Definition array_set {A : Type} (a : list A) (i : Z) (x : A) : result (list A) :=
  if (0 <=? i) && (i <? Z.of_nat (length a)) then Done (<[Z.to_nat i := x]> a)
  else Undefined.

(** ** DIMMs *)

(** Modelled from the spec: [struct _DIMM] of [Dimm.h], which is not among
    the sources. Section 3 of the specification identifies a DIMM by a
    controller id and a channel id, small non-negative integers; these are
    the two fields [Interleave.c] reads. *)
Record DIMM : Type := { ImcId : N; ChannelId : N }.

Definition DIMM_PTR : Type := N.
Definition NULL : DIMM_PTR := 0%N.

(** ** Macros *)

Definition CHANNELS_PER_IMC : Z := 3.

(** [#define DIMM_LOCATION(iMC, channel) (2 * (channel % CHANNELS_PER_IMC) + iMC)] *)
Definition DIMM_LOCATION (iMC channel : Z) : Z :=
  2 * (channel mod CHANNELS_PER_IMC) + iMC.

(** [#define DIMM_POPULATED(map, dimmIndex) ((map >> dimmIndex) & 0x1)];
    [map] and [dimmIndex] are [UINT32]: the shift is defined below 32 only. *)
Definition DIMM_POPULATED (map dimmIndex : Z) : result Z :=
  if dimmIndex <? 32 then Done (Z.land (Z.shiftr map dimmIndex) 1)
  else Undefined.

(** [#define CLEAR_DIMM(map, dimmIndex) map &= ~(0x1 << dimmIndex)]; [0x1]
    is an [int], so the shift is defined below 31 only; the complement is
    an [int] too, converted to [UINT32] by the [&=]. The result is the new
    value of [map]. *)
Definition CLEAR_DIMM (map dimmIndex : Z) : result Z :=
  if dimmIndex <? 31 then
    Done (Z.land map (wrap32 (Z.lnot (Z.shiftl 1 dimmIndex))))
  else Undefined.

(** ** The priority table *)

Definition END_OF_INTERLEAVE_SETS : Z := 0.

Definition INTERLEAVE_SETS : list Z :=
  [ 0x3F;                                   (* 0b111111 x6 *)
    0x0F; 0x3C; 0x33;                       (* x4 *)
    0x15; 0x2A;                             (* x3 *)
    0x03; 0x0C; 0x30;                       (* x2, across memory controller *)
    0x05; 0x0A; 0x14; 0x28; 0x11; 0x22;     (* x2, across channel *)
    0x01; 0x02; 0x04; 0x08; 0x10; 0x20;     (* x1 *)
    END_OF_INTERLEAVE_SETS ].

(** ** RemoveDimmFromList *)

(** [for (Index = 0; Index < *pDimmsListNum; Index++)
       if (pDimm == pDimmsList[Index]) { Found = TRUE; break; }]
    with [n] the number of iterations left, [*pDimmsListNum - Index].
    Returns the final [Index] and [Found]. *)
Fixpoint RemoveDimm_search (n : nat) (pDimmsList : list DIMM_PTR)
    (pDimm : DIMM_PTR) (Index : Z) : result (Z * bool) :=
  match n with
  | O => Done (Index, false)
  | S n' =>
      let* x := array_get pDimmsList Index in
      if N.eqb pDimm x then Done (Index, true)
      else RemoveDimm_search n' pDimmsList pDimm (Index + 1)
  end.

(** [for (; Index < *pDimmsListNum - 1; Index++)
       pDimmsList[Index] = pDimmsList[Index+1];]
    with [n] the number of iterations left. *)
Fixpoint RemoveDimm_shift (n : nat) (pDimmsList : list DIMM_PTR) (Index : Z)
    : result (list DIMM_PTR) :=
  match n with
  | O => Done pDimmsList
  | S n' =>
      let* x := array_get pDimmsList (Index + 1) in
      let* l := array_set pDimmsList Index x in
      RemoveDimm_shift n' l (Index + 1)
  end.

(** The function past its null check on the two array arguments: the array
    and the count after the call, with the status. *)
Definition RemoveDimmFromList_body (pDimmsList : list DIMM_PTR)
    (DimmsListNum : Z) (pDimm : DIMM_PTR)
    : result (EFI_STATUS * list DIMM_PTR * Z) :=
  if N.eqb pDimm NULL then Done (EFI_INVALID_PARAMETER, pDimmsList, DimmsListNum)
  else
    let* (Index, Found) :=
      RemoveDimm_search (Z.to_nat DimmsListNum) pDimmsList pDimm 0 in
    if Found : bool then
      let last := wrap32 (DimmsListNum - 1) in
      let* l := RemoveDimm_shift (Z.to_nat (last - Index)) pDimmsList Index in
      Done (EFI_SUCCESS, l, last)
    else Done (EFI_SUCCESS, pDimmsList, DimmsListNum).

Definition RemoveDimmFromList (pDimmsList : option (list DIMM_PTR))
    (pDimmsListNum : option Z) (pDimm : DIMM_PTR)
    : result (EFI_STATUS * option (list DIMM_PTR) * option Z) :=
  match pDimmsList, pDimmsListNum with
  | Some l, Some num =>
      let* (rc, l', num') := RemoveDimmFromList_body l num pDimm in
      Done (rc, Some l', Some num')
  | _, _ => Done (EFI_INVALID_PARAMETER, pDimmsList, pDimmsListNum)
  end.

(** ** RemoveDimmArrayFromList *)

(** [for (Index = 0; Index < DimmsArrayNum; Index++)
       RemoveDimmFromList(pDimmsList, pDimmsListNum, pDimmsArray[Index]);]
    The status of each call is dropped, as in the C. *)
Fixpoint RemoveDimmArray_loop (n : nat) (pDimmsList : list DIMM_PTR)
    (DimmsListNum : Z) (pDimmsArray : list DIMM_PTR) (Index : Z)
    : result (list DIMM_PTR * Z) :=
  match n with
  | O => Done (pDimmsList, DimmsListNum)
  | S n' =>
      let* p := array_get pDimmsArray Index in
      let* (_, l, num) := RemoveDimmFromList_body pDimmsList DimmsListNum p in
      RemoveDimmArray_loop n' l num pDimmsArray (Index + 1)
  end.

Definition RemoveDimmArrayFromList (pDimmsList : option (list DIMM_PTR))
    (pDimmsListNum : option Z) (pDimmsArray : option (list DIMM_PTR))
    (DimmsArrayNum : Z)
    : result (EFI_STATUS * option (list DIMM_PTR) * option Z) :=
  match pDimmsList, pDimmsArray, pDimmsListNum with
  | Some l, Some arr, Some num =>
      let* (l', num') :=
        RemoveDimmArray_loop (Z.to_nat DimmsArrayNum) l num arr 0 in
      Done (EFI_SUCCESS, Some l', Some num')
  | _, _, _ => Done (EFI_INVALID_PARAMETER, pDimmsList, pDimmsListNum)
  end.

(** Modelled from the spec: [CopyMem_S], whose source is not at hand (step 2
    of the orchestrator, copy the full input list into the working list).
    The call passes the same byte count for the destination and for the
    source, so it is a plain copy of the first [n] elements; it is defined
    when both arrays hold [n] elements. *)
Definition CopyMem_S {A : Type} (dst src : list A) (n : Z) : result (list A) :=
  if (0 <=? n) && (n <=? Z.of_nat (length dst)) && (n <=? Z.of_nat (length src))
  then Done (take (Z.to_nat n) src ++ drop (Z.to_nat n) dst)
  else Undefined.

(** ** A board for the examples

    Seven DIMMs at the addresses 1 to 7: the first six fill the slots 0 to 5
    of a board with two controllers and three channels; the seventh sits on
    a third controller, a place no entry of the table names. The goal
    constructor of the examples keeps the group and its share, and never
    fails. *)
Definition board (p : DIMM_PTR) : option DIMM :=
  match p with
  | 1%N => Some {| ImcId := 0; ChannelId := 0 |}
  | 2%N => Some {| ImcId := 1; ChannelId := 0 |}
  | 3%N => Some {| ImcId := 0; ChannelId := 1 |}
  | 4%N => Some {| ImcId := 1; ChannelId := 1 |}
  | 5%N => Some {| ImcId := 0; ChannelId := 2 |}
  | 6%N => Some {| ImcId := 1; ChannelId := 2 |}
  | 7%N => Some {| ImcId := 2; ChannelId := 2 |}
  | _ => None
  end.

Definition make_goal (w : unit) (tmpl : unit) (group : list DIMM_PTR)
    (DimmsUsed size : Z) (prefs : option unit) (SequenceIndex isi : Z)
    : unit * option (list DIMM_PTR * Z) * Z :=
  (w, Some (take (Z.to_nat DimmsUsed) group, size), isi + 1).

Section Interleave.

(** The DIMM structures in memory; [None] where no DIMM is allocated. *)
Variable Heap : DIMM_PTR -> option DIMM.

Definition deref (p : DIMM_PTR) : result DIMM :=
  if N.eqb p NULL then Undefined
  else match Heap p with
       | Some d => Done d
       | None => Undefined
       end.

(** ** GetDimmsFromListMatchingInterleaveSet *)

(** [for (Index = 0; Index < DimmsNum; Index++) { ... }] with [n] the number
    of iterations left; the state is the output array, [*pDimmsUsed] and
    [DimmsNotFound]. *)
Fixpoint GetDimms_loop (n : nat) (pDimms : list DIMM_PTR) (InterleaveMap : Z)
    (Index : Z) (pDimmsInterleaved : list DIMM_PTR) (DimmsUsed : Z)
    (DimmsNotFound : Z) : result (list DIMM_PTR * Z * Z) :=
  match n with
  | O => Done (pDimmsInterleaved, DimmsUsed, DimmsNotFound)
  | S n' =>
      let* p := array_get pDimms Index in
      let* d := deref p in
      let DimmIndex :=
        wrap32 (DIMM_LOCATION (Z.of_N (ImcId d)) (Z.of_N (ChannelId d))) in
      let* populated := DIMM_POPULATED InterleaveMap DimmIndex in
      if populated =? 0 then
        GetDimms_loop n' pDimms InterleaveMap (Index + 1)
                      pDimmsInterleaved DimmsUsed DimmsNotFound
      else
        let* out := array_set pDimmsInterleaved DimmsUsed p in
        let* notfound := CLEAR_DIMM DimmsNotFound DimmIndex in
        GetDimms_loop n' pDimms InterleaveMap (Index + 1)
                      out (wrap32 (DimmsUsed + 1)) notfound
  end.

(** The function past its null check: the output array and [*pDimmsUsed]
    after the call. *)
Definition GetDimmsFromListMatchingInterleaveSet_body (pDimms : list DIMM_PTR)
    (DimmsNum : Z) (InterleaveMap : Z) (pDimmsInterleaved : list DIMM_PTR)
    (DimmsUsed : Z) : result (EFI_STATUS * list DIMM_PTR * Z) :=
  let* (out, used, DimmsNotFound) :=
    GetDimms_loop (Z.to_nat DimmsNum) pDimms InterleaveMap 0
                  pDimmsInterleaved DimmsUsed InterleaveMap in
  if DimmsNotFound =? 0 then Done (EFI_SUCCESS, out, used)
  else Done (EFI_SUCCESS, out, 0).

Definition GetDimmsFromListMatchingInterleaveSet
    (pDimms : option (list DIMM_PTR)) (DimmsNum : Z) (InterleaveMap : Z)
    (pDimmsInterleaved : option (list DIMM_PTR)) (pDimmsUsed : option Z)
    : result (EFI_STATUS * option (list DIMM_PTR) * option Z) :=
  match pDimms, pDimmsInterleaved, pDimmsUsed with
  | Some l, Some out, Some used =>
      let* (rc, out', used') :=
        GetDimmsFromListMatchingInterleaveSet_body l DimmsNum InterleaveMap
                                                   out used in
      Done (rc, Some out', Some used')
  | _, _, _ => Done (EFI_INVALID_PARAMETER, pDimmsInterleaved, pDimmsUsed)
  end.

(** ** FindBestInterleavingForDimms *)

(** [for (Index = 0; ( *pDimmsUsed == 0) &&
          (INTERLEAVE_SETS[Index] != END_OF_INTERLEAVE_SETS); Index++)
       GetDimmsFromListMatchingInterleaveSet(..., INTERLEAVE_SETS[Index], ...);]
    [sets] is the table from [Index] on; reading past its end is an access
    outside the array. The final [Index] is returned with the state. *)
Fixpoint FindBest_loop (sets : list Z) (pDimms : list DIMM_PTR) (DimmsNum : Z)
    (Index : Z) (pDimmsInterleaved : list DIMM_PTR) (DimmsUsed : Z)
    : result (list DIMM_PTR * Z * Z) :=
  if negb (DimmsUsed =? 0) then Done (pDimmsInterleaved, DimmsUsed, Index)
  else
    match sets with
    | [] => Undefined
    | InterleaveMap :: rest =>
        if InterleaveMap =? END_OF_INTERLEAVE_SETS
        then Done (pDimmsInterleaved, DimmsUsed, Index)
        else
          let* (_, out, used) :=
            GetDimmsFromListMatchingInterleaveSet_body
              pDimms DimmsNum InterleaveMap pDimmsInterleaved DimmsUsed in
          FindBest_loop rest pDimms DimmsNum (Index + 1) out used
    end.

(** The function past its null check; the last component is the number of
    table entries that were tried. *)
Definition FindBestInterleavingForDimms_body (pDimms : list DIMM_PTR)
    (DimmsNum : Z) (pDimmsInterleaved : list DIMM_PTR) (DimmsUsed : Z)
    : result (EFI_STATUS * list DIMM_PTR * Z * Z) :=
  let* (out, used, Index) :=
    FindBest_loop INTERLEAVE_SETS pDimms DimmsNum 0 pDimmsInterleaved DimmsUsed in
  if used =? 0 then Done (EFI_ABORTED, out, used, Index)
  else Done (EFI_SUCCESS, out, used, Index).

Definition FindBestInterleavingForDimms (pDimms : option (list DIMM_PTR))
    (DimmsNum : Z) (pDimmsInterleaved : option (list DIMM_PTR))
    (pDimmsUsed : option Z)
    : result (EFI_STATUS * option (list DIMM_PTR) * option Z) :=
  match pDimms, pDimmsInterleaved, pDimmsUsed with
  | Some l, Some out, Some used =>
      let* (rc, out', used', _) :=
        FindBestInterleavingForDimms_body l DimmsNum out used in
      Done (rc, Some out', Some used')
  | _, _, _ => Done (EFI_INVALID_PARAMETER, pDimmsInterleaved, pDimmsUsed)
  end.

(** ** PerformInterleavingAndCreateGoal *)

(** The types of [Region.h] are opaque here, and so is the state the goal
    constructor works on (its allocator, for one). *)
Variables REGION_GOAL_TEMPLATE DRIVER_PREFERENCES REGION_GOAL World : Type.

(** [CreateRegionGoal(pRegionGoalTemplate, pDimmsInterleaved, DimmsUsed, Size,
    pDriverPreferences, SequenceIndex, pInterleaveSetIndex)], defined in
    [Region.c]: the goal it returns ([None] is [NULL]) and the value it leaves
    in [*pInterleaveSetIndex]. *)
Variable CreateRegionGoal :
  World -> REGION_GOAL_TEMPLATE -> list DIMM_PTR -> Z -> Z ->
  option DRIVER_PREFERENCES -> Z -> Z -> World * option REGION_GOAL * Z.

(** The capacity of the two local arrays. *)
Variable MAX_DIMMS : Z.

(** One call of [CreateRegionGoal], as the callee sees it. *)
Record GoalRequest : Type := {
  req_Dimms : list DIMM_PTR;      (* the array [pDimmsInterleaved] *)
  req_DimmsNum : Z;               (* [DimmsUsed] *)
  req_Size : Z                    (* the capacity share *)
}.

(** The DIMMs of a request: the first [DimmsUsed] entries of the array. *)
Definition req_group (r : GoalRequest) : list DIMM_PTR :=
  take (Z.to_nat (req_DimmsNum r)) (req_Dimms r).

(** The locals of the function and the memory of the caller it writes.
    [Requests] is not in the C: it logs the calls of [CreateRegionGoal],
    oldest first. *)
Record LoopState : Type := {
  pDimmsCopy : list DIMM_PTR;
  pDimmsInterleaved : list DIMM_PTR;
  RemainingDimms : Z;
  DimmsUsed : Z;
  TotalDimmsUsed : Z;
  RegionGoal : list (option REGION_GOAL);
  NewRegionsGoalNum : Z;
  InterleaveSetIndex : Z;
  world : World;
  Requests : list GoalRequest
}.

Inductive flow : Type :=
| Continue (st : LoopState)                   (* end of the loop body *)
| Finish (rc : EFI_STATUS) (st : LoopState).  (* [goto Finish] *)

Section Body.

Variable pRegionGoalTemplate : REGION_GOAL_TEMPLATE.
Variable DimmsNum : Z.
Variable InterleaveSetSize : Z.
Variable pDriverPreferences : option DRIVER_PREFERENCES.
Variable SequenceIndex : Z.

(** The body of [while (RemainingDimms > 0)]. *)
Definition Perform_body (st : LoopState) : result flow :=
  let* (rc, out, used, _) :=
    FindBestInterleavingForDimms_body (pDimmsCopy st) (RemainingDimms st)
                                      (pDimmsInterleaved st) (DimmsUsed st) in
  if EFI_ERROR rc then
    Done (Finish rc
      {| pDimmsCopy := pDimmsCopy st; pDimmsInterleaved := out;
         RemainingDimms := RemainingDimms st; DimmsUsed := used;
         TotalDimmsUsed := TotalDimmsUsed st;
         RegionGoal := RegionGoal st;
         NewRegionsGoalNum := NewRegionsGoalNum st;
         InterleaveSetIndex := InterleaveSetIndex st;
         world := world st; Requests := Requests st |})
  else
    let* (copy, remaining) :=
      RemoveDimmArray_loop (Z.to_nat used) (pDimmsCopy st) (RemainingDimms st)
                           out 0 in
    let total := wrap32 (TotalDimmsUsed st + used) in
    if total >? DimmsNum then
      Done (Finish EFI_BAD_BUFFER_SIZE
        {| pDimmsCopy := copy; pDimmsInterleaved := out;
           RemainingDimms := remaining; DimmsUsed := used;
           TotalDimmsUsed := total;
           RegionGoal := RegionGoal st;
           NewRegionsGoalNum := NewRegionsGoalNum st;
           InterleaveSetIndex := InterleaveSetIndex st;
           world := world st; Requests := Requests st |})
    else
      let size := wrap64 (InterleaveSetSize * used) / DimmsNum in
      let '(w, goal, isi) :=
        CreateRegionGoal (world st) pRegionGoalTemplate out used size
                         pDriverPreferences SequenceIndex
                         (InterleaveSetIndex st) in
      let reqs :=
        Requests st ++
        [{| req_Dimms := out; req_DimmsNum := used; req_Size := size |}] in
      let* goals := array_set (RegionGoal st) (NewRegionsGoalNum st) goal in
      match goal with
      | None =>
          Done (Finish EFI_OUT_OF_RESOURCES
            {| pDimmsCopy := copy; pDimmsInterleaved := out;
               RemainingDimms := remaining; DimmsUsed := used;
               TotalDimmsUsed := total;
               RegionGoal := goals;
               NewRegionsGoalNum := NewRegionsGoalNum st;
               InterleaveSetIndex := isi;
               world := w; Requests := reqs |})
      | Some _ =>
          Done (Continue
            {| pDimmsCopy := copy; pDimmsInterleaved := out;
               RemainingDimms := remaining; DimmsUsed := 0;
               TotalDimmsUsed := total;
               RegionGoal := goals;
               NewRegionsGoalNum := wrap32 (NewRegionsGoalNum st + 1);
               InterleaveSetIndex := isi;
               world := w; Requests := reqs |})
      end.

(** [while (RemainingDimms > 0) { ... }]; the status at the normal exit is the
    one left by the last call of [FindBestInterleavingForDimms], or the
    initial one: [EFI_SUCCESS]. *)
Fixpoint Perform_loop (fuel : nat) (st : LoopState)
    : result (EFI_STATUS * LoopState) :=
  if RemainingDimms st >? 0 then
    match fuel with
    | O => OutOfFuel
    | S fuel' =>
        let* f := Perform_body st in
        match f with
        | Finish rc st' => Done (rc, st')
        | Continue st' => Perform_loop fuel' st'
        end
    end
  else Done (EFI_SUCCESS, st).

End Body.

(** What the caller finds after the call. *)
Record Output : Type := {
  out_RegionGoal : option (list (option REGION_GOAL));
  out_NewRegionsGoalNum : option Z;
  out_InterleaveSetIndex : option Z;
  out_world : World;
  out_Requests : list GoalRequest
}.

Definition unchanged (pRegionGoal : option (list (option REGION_GOAL)))
    (pNewRegionsGoalNum pInterleaveSetIndex : option Z) (w : World) : Output :=
  {| out_RegionGoal := pRegionGoal;
     out_NewRegionsGoalNum := pNewRegionsGoalNum;
     out_InterleaveSetIndex := pInterleaveSetIndex;
     out_world := w; out_Requests := [] |}.

Definition PerformInterleavingAndCreateGoal (fuel : nat)
    (pRegionGoalTemplate : option REGION_GOAL_TEMPLATE)
    (pDimms : option (list DIMM_PTR)) (DimmsNum : Z) (InterleaveSetSize : Z)
    (pDriverPreferences : option DRIVER_PREFERENCES) (SequenceIndex : Z)
    (pRegionGoal : option (list (option REGION_GOAL)))
    (pNewRegionsGoalNum : option Z) (pInterleaveSetIndex : option Z)
    (w : World) : result (EFI_STATUS * Output) :=
  match pRegionGoalTemplate, pRegionGoal, pNewRegionsGoalNum, pDimms,
        pInterleaveSetIndex with
  | Some tmpl, Some goals, Some num, Some dimms, Some isi =>
      if InterleaveSetSize =? 0 then
        Done (EFI_SUCCESS,
              unchanged pRegionGoal pNewRegionsGoalNum pInterleaveSetIndex w)
      else
        let zeroed := replicate (Z.to_nat MAX_DIMMS) NULL in
        let* copy :=
          if DimmsNum >? 0 then CopyMem_S zeroed dimms DimmsNum
          else Done zeroed in
        let* (rc, st) :=
          Perform_loop tmpl DimmsNum InterleaveSetSize pDriverPreferences
            SequenceIndex fuel
            {| pDimmsCopy := copy; pDimmsInterleaved := zeroed;
               RemainingDimms := DimmsNum; DimmsUsed := 0;
               TotalDimmsUsed := 0;
               RegionGoal := goals; NewRegionsGoalNum := num;
               InterleaveSetIndex := isi;
               world := w; Requests := [] |} in
        Done (rc,
              {| out_RegionGoal := Some (RegionGoal st);
                 out_NewRegionsGoalNum := Some (NewRegionsGoalNum st);
                 out_InterleaveSetIndex := Some (InterleaveSetIndex st);
                 out_world := world st; out_Requests := Requests st |})
  | _, _, _, _, _ =>
      Done (EFI_INVALID_PARAMETER,
            unchanged pRegionGoal pNewRegionsGoalNum pInterleaveSetIndex w)
  end.

(** * Vocabulary of the properties *)

(** The list without the first entry equal to [p]. *)
Fixpoint remove_first (p : DIMM_PTR) (l : list DIMM_PTR) : list DIMM_PTR :=
  match l with
  | [] => []
  | x :: r => if N.eqb p x then r else x :: remove_first p r
  end.

(** The slot index [GetDimmsFromListMatchingInterleaveSet] computes for the
    DIMM at [p]. *)
Definition slot_of (p : DIMM_PTR) : Z :=
  match Heap p with
  | Some d => wrap32 (DIMM_LOCATION (Z.of_N (ImcId d)) (Z.of_N (ChannelId d)))
  | None => 0
  end.

(** [p] points to a DIMM whose slot index the two shifts are defined for. *)
Definition valid_dimm (p : DIMM_PTR) : bool :=
  negb (N.eqb p NULL) &&
  match Heap p with
  | Some _ => slot_of p <? 31
  | None => false
  end.

(** The slot of [p] is named by the pattern. *)
Definition named (InterleaveMap : Z) (p : DIMM_PTR) : bool :=
  Z.testbit InterleaveMap (slot_of p).

(** Every slot bit set in the pattern is the slot of some DIMM of the list. *)
Definition covered (InterleaveMap : Z) (l : list DIMM_PTR) : Prop :=
  forall i, Z.testbit InterleaveMap i = true -> exists p, p ∈ l /\ slot_of p = i.

(** The same, computed the way the code does: the bits of the pattern that
    are left once the slot of each DIMM of the list is cleared. *)
Definition not_found (InterleaveMap : Z) (l : list DIMM_PTR) : Z :=
  fold_left (fun m p => Z.clearbit m (slot_of p)) l InterleaveMap.

Definition coveredb (InterleaveMap : Z) (l : list DIMM_PTR) : bool :=
  not_found InterleaveMap l =? 0.

(** The first [n] entries of an array. *)
Definition prefix {A : Type} (n : Z) (a : list A) : list A :=
  take (Z.to_nat n) a.

Definition remove_all (m l : list DIMM_PTR) : list DIMM_PTR :=
  fold_left (fun w p => remove_first p w) m l.

(** The DIMMs of the list the pattern names, in the order of the list. *)
Definition matched (InterleaveMap : Z) (l : list DIMM_PTR) : list DIMM_PTR :=
  List.filter (named InterleaveMap) l.

(** The DIMMs of the list the pattern does not name. *)
Definition unmatched (InterleaveMap : Z) (l : list DIMM_PTR) : list DIMM_PTR :=
  List.filter (fun p => negb (named InterleaveMap p)) l.

(** The first entry of a table, before its sentinel, that the list covers. *)
Fixpoint select (sets : list Z) (l : list DIMM_PTR) : option Z :=
  match sets with
  | [] => None
  | s :: rest =>
      if s =? END_OF_INTERLEAVE_SETS then None
      else if coveredb s l then Some s
      else select rest l
  end.

Definition Zsum (l : list Z) : Z := fold_right Z.add 0 l.

(** The capacity share the code computes for a group of [k] DIMMs. *)
Definition share (InterleaveSetSize DimmsNum k : Z) : Z :=
  wrap64 (InterleaveSetSize * k) / DimmsNum.

Section LoopVocabulary.

Variable pRegionGoalTemplate : REGION_GOAL_TEMPLATE.
Variable DimmsNum : Z.
Variable InterleaveSetSize : Z.
Variable pDriverPreferences : option DRIVER_PREFERENCES.
Variable SequenceIndex : Z.

(** The first [DimmsNum] entries of the caller's array, and the caller's
    goal count at the call. *)
Variable input : list DIMM_PTR.
Variable num0 : Z.

(** What holds of every request made so far. *)
Definition good_request (r : GoalRequest) : Prop :=
  0 < req_DimmsNum r <= DimmsNum
  /\ Z.of_nat (length (req_group r)) = req_DimmsNum r
  /\ req_Size r = share InterleaveSetSize DimmsNum (req_DimmsNum r).

(** The working list of a state. *)
Definition working (st : LoopState) : list DIMM_PTR :=
  prefix (RemainingDimms st) (pDimmsCopy st).

(** The invariant of the loop, at the test of [RemainingDimms > 0]. *)
Record Inv (st : LoopState) : Prop := {
  inv_num : is_UINT32 DimmsNum;
  inv_copy : RemainingDimms st <= Z.of_nat (length (pDimmsCopy st));
  inv_out : RemainingDimms st <= Z.of_nat (length (pDimmsInterleaved st));
  inv_rem : 0 <= RemainingDimms st;
  inv_used : DimmsUsed st = 0;
  inv_total : TotalDimmsUsed st + RemainingDimms st = DimmsNum;
  inv_total_pos : 0 <= TotalDimmsUsed st;
  inv_valid : forallb valid_dimm (working st) = true;
  inv_goals :
    NewRegionsGoalNum st + RemainingDimms st
    <= Z.of_nat (length (RegionGoal st));
  inv_goals32 : NewRegionsGoalNum st + RemainingDimms st < 2 ^ 32;
  inv_num0 : 0 <= num0;
  inv_count : NewRegionsGoalNum st = num0 + Z.of_nat (length (Requests st));
  inv_partition :
    concat (map req_group (Requests st)) ++ working st ≡ₚ input;
  inv_requests : Forall good_request (Requests st);
  inv_sum : Zsum (map req_DimmsNum (Requests st)) = TotalDimmsUsed st
}.

(** What holds when the body leaves the loop by [goto Finish]. *)
Record Exit (st : LoopState) (rc : EFI_STATUS) (st' : LoopState) : Prop := {
  exit_rc : rc = EFI_ABORTED \/ rc = EFI_OUT_OF_RESOURCES;
  exit_total : 0 <= TotalDimmsUsed st' <= DimmsNum;
  exit_requests : Forall good_request (Requests st');
  exit_num : NewRegionsGoalNum st' = NewRegionsGoalNum st;
  exit_aborted :
    rc = EFI_ABORTED ->
    select INTERLEAVE_SETS (working st) = None
    /\ Requests st' = Requests st
    /\ RegionGoal st' = RegionGoal st
    /\ TotalDimmsUsed st' = TotalDimmsUsed st;
  exit_resources :
    rc = EFI_OUT_OF_RESOURCES ->
    exists s r,
      select INTERLEAVE_SETS (working st) = Some s
      /\ req_group r = matched s (working st)
      /\ Requests st' = Requests st ++ [r]
}.

(** The states the loop goes through from [st0]. *)
Inductive reachable (st0 : LoopState) : LoopState -> Prop :=
| reach_init : reachable st0 st0
| reach_step st st' :
    reachable st0 st ->
    RemainingDimms st > 0 ->
    Perform_body pRegionGoalTemplate DimmsNum InterleaveSetSize
                 pDriverPreferences SequenceIndex st = Done (Continue st') ->
    reachable st0 st'.

(** The two ways the loop ends: the working list is empty, or the body
    left by [goto Finish] from a state of the loop. *)
Definition Final (st0 : LoopState) (rc : EFI_STATUS) (st' : LoopState) : Prop :=
  (rc = EFI_SUCCESS /\ reachable st0 st' /\ RemainingDimms st' = 0)
  \/ (exists st, reachable st0 st /\ RemainingDimms st > 0
                 /\ Perform_body pRegionGoalTemplate DimmsNum InterleaveSetSize
                      pDriverPreferences SequenceIndex st
                    = Done (Finish rc st') /\ Exit st rc st').

End LoopVocabulary.

Arguments inv_num {_ _ _ _} st _.
Arguments inv_copy {_ _ _ _} st _.
Arguments inv_out {_ _ _ _} st _.
Arguments inv_rem {_ _ _ _} st _.
Arguments inv_used {_ _ _ _} st _.
Arguments inv_total {_ _ _ _} st _.
Arguments inv_total_pos {_ _ _ _} st _.
Arguments inv_valid {_ _ _ _} st _.
Arguments inv_goals {_ _ _ _} st _.
Arguments inv_goals32 {_ _ _ _} st _.
Arguments inv_num0 {_ _ _ _} st _.
Arguments inv_count {_ _ _ _} st _.
Arguments inv_partition {_ _ _ _} st _.
Arguments inv_requests {_ _ _ _} st _.
Arguments inv_sum {_ _ _ _} st _.
Arguments exit_rc {_ _} st rc st' _.
Arguments exit_total {_ _} st rc st' _.
Arguments exit_requests {_ _} st rc st' _.
Arguments exit_num {_ _} st rc st' _.
Arguments exit_aborted {_ _} st rc st' _.
Arguments exit_resources {_ _} st rc st' _.

(** What the caller must provide besides non-null pointers: [DimmsNum]
    entries in [pDimms], each the address of a DIMM whose slot index is below
    the width of the pattern; no more DIMMs than the local arrays hold; room
    in [pRegionGoal] for one goal a DIMM. *)
Record Precondition (dimms : list DIMM_PTR) (DimmsNum : Z)
    (goals : list (option REGION_GOAL)) (num : Z) : Prop := {
  pre_num : is_UINT32 DimmsNum;
  pre_max : DimmsNum <= MAX_DIMMS;
  pre_len : DimmsNum <= Z.of_nat (length dimms);
  pre_valid : forallb valid_dimm (prefix DimmsNum dimms) = true;
  pre_goals : 0 <= num /\ num + DimmsNum <= Z.of_nat (length goals);
  pre_goals32 : num + DimmsNum < 2 ^ 32
}.

(** The state at the first test of the loop. *)
Definition init_state (dimms : list DIMM_PTR) (DimmsNum : Z)
    (goals : list (option REGION_GOAL)) (num isi : Z) (w : World)
    : LoopState :=
  let zeroed := replicate (Z.to_nat MAX_DIMMS) NULL in
  {| pDimmsCopy :=
       if DimmsNum >? 0
       then take (Z.to_nat DimmsNum) dimms ++ drop (Z.to_nat DimmsNum) zeroed
       else zeroed;
     pDimmsInterleaved := zeroed;
     RemainingDimms := DimmsNum; DimmsUsed := 0; TotalDimmsUsed := 0;
     RegionGoal := goals; NewRegionsGoalNum := num;
     InterleaveSetIndex := isi; world := w; Requests := [] |}.

Definition output_of (st : LoopState) : Output :=
  {| out_RegionGoal := Some (RegionGoal st);
     out_NewRegionsGoalNum := Some (NewRegionsGoalNum st);
     out_InterleaveSetIndex := Some (InterleaveSetIndex st);
     out_world := world st; out_Requests := Requests st |}.

(** The call with every pointer argument non-null. *)
Definition call (tmpl : REGION_GOAL_TEMPLATE) (dimms : list DIMM_PTR)
    (DimmsNum InterleaveSetSize : Z) (prefs : option DRIVER_PREFERENCES)
    (SequenceIndex : Z) (goals : list (option REGION_GOAL)) (num isi : Z)
    (w : World) (fuel : nat) : result (EFI_STATUS * Output) :=
  PerformInterleavingAndCreateGoal fuel (Some tmpl) (Some dimms) DimmsNum
    InterleaveSetSize prefs SequenceIndex (Some goals) (Some num) (Some isi) w.

(** The pattern that names the given slots. *)
Definition pattern_of (slots : list Z) : Z :=
  fold_right (fun i m => Z.lor (Z.shiftl 1 i) m) 0 slots.

(** The number of slots a pattern names: its interleave width. *)
Definition width (InterleaveMap : Z) : Z :=
  Z.of_nat (length (List.filter (Z.testbit InterleaveMap) (seqZ 0 32))).

(** The slots the DIMMs of a list occupy, as a bitmap. *)
Definition population (l : list DIMM_PTR) : Z :=
  fold_left (fun m p => Z.lor m (Z.shiftl 1 (slot_of p))) l 0.

(** The groups the loop makes of a working list, written as a function of
    the list alone: take the DIMMs matched by the first covered entry, go on
    with the others, stop when no entry is covered; [n] bounds the number of
    groups. *)
Fixpoint greedy_groups (n : nat) (l : list DIMM_PTR) : list (list DIMM_PTR) :=
  match n with
  | O => []
  | S n' =>
      match select INTERLEAVE_SETS l with
      | Some s => matched s l :: greedy_groups n' (unmatched s l)
      | None => []
      end
  end.

(** Some DIMM of the list sits in slot [i]. *)
Definition occupied (l : list DIMM_PTR) (i : Z) : bool :=
  existsb (fun p => slot_of p =? i) l.

(** The slots, among the six of the table, that the list occupies. *)
Definition occupied_slots (l : list DIMM_PTR) : list Z :=
  List.filter (occupied l) (seqZ 0 6).

(** The entries of an array of DIMM pointers that are not [NULL]. *)
Definition non_null (l : list DIMM_PTR) : list DIMM_PTR :=
  List.filter (fun p => negb (N.eqb p NULL)) l.

(** The request comes from a selection: its group is what the first covered
    entry matches in some part [w] of the input. *)
Definition selected_from (input : list DIMM_PTR) (r : GoalRequest) : Prop :=
  exists s w before,
    select INTERLEAVE_SETS w = Some s
    /\ req_group r = matched s w
    /\ before ++ w ≡ₚ input.

(** * Array accesses *)

Lemma array_get_middle {A : Type} (pre : list A) (x : A) (post : list A) :
  array_get (pre ++ x :: post) (Z.of_nat (length pre)) = Done x.
Proof.
  unfold array_get.
  destruct (Z.ltb_spec (Z.of_nat (length pre)) 0) as [H|H]; [lia|].
  rewrite Nat2Z.id, list_lookup_middle; reflexivity.
Qed.

Lemma array_set_middle {A : Type} (pre : list A) (x y : A) (post : list A) :
  array_set (pre ++ x :: post) (Z.of_nat (length pre)) y
  = Done (pre ++ y :: post).
Proof.
  unfold array_set.
  rewrite length_app; simpl.
  destruct (Z.leb_spec 0 (Z.of_nat (length pre))); [|lia].
  destruct (Z.ltb_spec (Z.of_nat (length pre))
                       (Z.of_nat (length pre + S (length post)))); [|lia].
  simpl. rewrite Nat2Z.id.
  replace (length pre) with (length pre + 0)%nat at 1 by lia.
  rewrite insert_app_r. reflexivity.
Qed.

(** An array of which the first [n] entries are [l]. *)
Lemma prefix_split {A : Type} (n : Z) (a : list A) :
  0 <= n <= Z.of_nat (length a) ->
  a = prefix n a ++ drop (Z.to_nat n) a /\ Z.of_nat (length (prefix n a)) = n.
Proof.
  intros H. unfold prefix. split.
  - symmetry. apply take_drop.
  - rewrite length_take. lia.
Qed.

(** * Correctness of [RemoveDimmFromList] *)

Lemma remove_first_notin p l : p ∉ l -> remove_first p l = l.
Proof.
  induction l as [|x l IH]; simpl; [reflexivity|].
  intros H. apply not_elem_of_cons in H as [Hx Hl].
  destruct (N.eqb_spec p x); [contradiction|].
  f_equal. auto.
Qed.

Lemma remove_first_middle p pre post :
  p ∉ pre -> remove_first p (pre ++ p :: post) = pre ++ post.
Proof.
  induction pre as [|x pre IH]; simpl; intros H.
  - rewrite N.eqb_refl. reflexivity.
  - apply not_elem_of_cons in H as [Hx Hl].
    destruct (N.eqb_spec p x); [contradiction|].
    f_equal. auto.
Qed.

(** The search loop on an array cut at [Index], when [pDimm] is not among
    the next entries. *)
Lemma RemoveDimm_search_absent pDimm (todo : list DIMM_PTR) :
  forall (seen rest : list DIMM_PTR),
  pDimm ∉ todo ->
  RemoveDimm_search (length todo) (seen ++ todo ++ rest) pDimm
                    (Z.of_nat (length seen))
  = Done (Z.of_nat (length seen + length todo), false).
Proof.
  induction todo as [|x todo IH]; intros seen rest Hnotin.
  - simpl. do 2 f_equal. lia.
  - cbn [length RemoveDimm_search app].
    rewrite array_get_middle. cbn [bind].
    apply not_elem_of_cons in Hnotin as [Hx Hl].
    destruct (N.eqb_spec pDimm x); [contradiction|].
    specialize (IH (seen ++ [x]) rest Hl).
    rewrite <- app_assoc, length_app in IH. simpl in IH.
    replace (Z.of_nat (length seen) + 1) with (Z.of_nat (length seen + 1))
      by lia.
    rewrite IH. do 2 f_equal. lia.
Qed.

(** The search loop stops at the first entry equal to [pDimm]. *)
Lemma RemoveDimm_search_found pDimm (pre : list DIMM_PTR) :
  forall (seen post rest : list DIMM_PTR),
  pDimm ∉ pre ->
  RemoveDimm_search (length (pre ++ pDimm :: post))
                    (seen ++ (pre ++ pDimm :: post) ++ rest) pDimm
                    (Z.of_nat (length seen))
  = Done (Z.of_nat (length seen + length pre), true).
Proof.
  induction pre as [|x pre IH]; intros seen post rest Hnotin.
  - cbn [length RemoveDimm_search app].
    rewrite array_get_middle. cbn [bind]. rewrite N.eqb_refl.
    do 2 f_equal. simpl. lia.
  - cbn [length RemoveDimm_search app].
    rewrite array_get_middle. cbn [bind].
    apply not_elem_of_cons in Hnotin as [Hx Hl].
    destruct (N.eqb_spec pDimm x); [contradiction|].
    specialize (IH (seen ++ [x]) post rest Hl).
    rewrite <- app_assoc, (length_app seen [x]) in IH.
    cbn [length app] in IH.
    replace (Z.of_nat (length seen) + 1) with (Z.of_nat (length seen + 1))
      by lia.
    rewrite IH. do 2 f_equal. lia.
Qed.

(** The first occurrence of an element of a list. *)
Lemma first_occurrence (p : DIMM_PTR) (l : list DIMM_PTR) :
  p ∈ l -> exists pre post, l = pre ++ p :: post /\ p ∉ pre.
Proof.
  induction l as [|x l IH]; intros H; [inversion H|].
  destruct (N.eq_dec p x) as [->|Hne].
  - exists [], l. split; [reflexivity|]. apply not_elem_of_nil.
  - apply elem_of_cons in H as [?|H]; [contradiction|].
    destruct (IH H) as (pre & post & -> & Hpre).
    exists (x :: pre), post. split; [reflexivity|].
    apply not_elem_of_cons. auto.
Qed.

(** The shift loop, on an array cut at [Index]: the next [n] entries move
    one place down; what follows them keeps its length. *)
Lemma RemoveDimm_shift_spec (n : nat) :
  forall (pre : list DIMM_PTR) (x : DIMM_PTR) (ys : list DIMM_PTR),
  (n <= length ys)%nat ->
  exists tail,
    RemoveDimm_shift n (pre ++ x :: ys) (Z.of_nat (length pre))
    = Done (pre ++ take n ys ++ tail)
    /\ length tail = (S (length ys) - n)%nat.
Proof.
  induction n as [|n IH]; intros pre x ys Hn.
  - exists (x :: ys). simpl. split; [reflexivity|lia].
  - destruct ys as [|y ys]; [simpl in Hn; lia|].
    cbn [RemoveDimm_shift].
    assert (Hget : array_get (pre ++ x :: y :: ys) (Z.of_nat (length pre) + 1)
                   = Done y).
    { replace (pre ++ x :: y :: ys) with ((pre ++ [x]) ++ y :: ys)
        by (rewrite <- app_assoc; reflexivity).
      replace (Z.of_nat (length pre) + 1) with (Z.of_nat (length (pre ++ [x])))
        by (rewrite length_app; simpl; lia).
      apply array_get_middle. }
    rewrite Hget. cbn [bind].
    rewrite array_set_middle. cbn [bind].
    replace (Z.of_nat (length pre) + 1) with (Z.of_nat (length (pre ++ [y])))
      by (rewrite length_app; simpl; lia).
    destruct (IH (pre ++ [y]) y ys) as (tail & Heq & Hlen);
      [simpl in Hn; lia|].
    exists tail.
    replace (pre ++ y :: y :: ys) with ((pre ++ [y]) ++ y :: ys)
      by (rewrite <- app_assoc; reflexivity).
    rewrite Heq. split.
    + rewrite <- app_assoc. reflexivity.
    + simpl. lia.
Qed.

Lemma wrap32_small z : 0 <= z < 2 ^ 32 -> wrap32 z = z.
Proof. intros H. unfold wrap32. apply Z.mod_small. exact H. Qed.

(** Removing a DIMM that is not among the first [DimmsListNum] entries
    changes nothing. *)
Lemma RemoveDimmFromList_body_absent l num p :
  0 <= num <= Z.of_nat (length l) ->
  p <> NULL ->
  p ∉ prefix num l ->
  RemoveDimmFromList_body l num p = Done (EFI_SUCCESS, l, num).
Proof.
  intros Hnum Hp Hnotin. unfold RemoveDimmFromList_body.
  destruct (N.eqb_spec p NULL); [contradiction|].
  destruct (prefix_split num l Hnum) as [Hl Hlen].
  pose proof (RemoveDimm_search_absent p (prefix num l) []
                (drop (Z.to_nat num) l) Hnotin) as Hs.
  cbn [app length Nat.add] in Hs. change (Z.of_nat 0) with 0 in Hs.
  rewrite <- Hl in Hs.
  replace (length (prefix num l)) with (Z.to_nat num) in Hs by lia.
  rewrite Hs. reflexivity.
Qed.

(** Removing a DIMM that is among them: the entries before the count are
    the old ones without its first occurrence, and the count drops by one. *)
Lemma RemoveDimmFromList_body_present l num p :
  0 <= num <= Z.of_nat (length l) ->
  num < 2 ^ 32 ->
  p <> NULL ->
  p ∈ prefix num l ->
  exists l',
    RemoveDimmFromList_body l num p = Done (EFI_SUCCESS, l', num - 1)
    /\ length l' = length l
    /\ prefix (num - 1) l' = remove_first p (prefix num l).
Proof.
  intros Hnum H32 Hp Hin. unfold RemoveDimmFromList_body.
  destruct (N.eqb_spec p NULL); [contradiction|].
  destruct (prefix_split num l Hnum) as [Hl Hlen].
  destruct (first_occurrence p _ Hin) as (pre & post & Hpre & Hnotin).
  rewrite Hpre in Hl, Hlen. rewrite length_app in Hlen. simpl in Hlen.
  set (rest := drop (Z.to_nat num) l) in *.
  pose proof (RemoveDimm_search_found p pre [] post rest Hnotin) as Hs.
  cbn [app length Nat.add] in Hs. change (Z.of_nat 0) with 0 in Hs.
  rewrite <- Hl in Hs.
  rewrite length_app in Hs. cbn [length] in Hs.
  replace (Z.to_nat num) with (length pre + S (length post))%nat by lia.
  rewrite Hs. cbn [bind].
  rewrite (wrap32_small (num - 1)) by lia.
  destruct (RemoveDimm_shift_spec (length post) pre p (post ++ rest))
    as (tail & Hshift & Htail); [rewrite length_app; lia|].
  rewrite take_app_length in Hshift.
  assert (Hl' : l = pre ++ p :: post ++ rest).
  { rewrite Hl at 1. rewrite <- app_assoc. reflexivity. }
  rewrite <- Hl' in Hshift.
  replace (Z.to_nat (num - 1 - Z.of_nat (length pre))) with (length post)
    by lia.
  rewrite Hshift. cbn [bind].
  exists (pre ++ post ++ tail). split; [reflexivity|]. split.
  - rewrite Hl'. rewrite !length_app. simpl.
    rewrite !length_app. rewrite length_app in Htail. lia.
  - rewrite Hpre, remove_first_middle by exact Hnotin.
    unfold prefix. rewrite app_assoc.
    apply take_app_length'. rewrite length_app. lia.
Qed.

(** Both cases at once. *)
Lemma RemoveDimmFromList_body_spec l num p :
  0 <= num <= Z.of_nat (length l) ->
  num < 2 ^ 32 ->
  p <> NULL ->
  exists l' num',
    RemoveDimmFromList_body l num p = Done (EFI_SUCCESS, l', num')
    /\ length l' = length l
    /\ 0 <= num' <= num
    /\ prefix num' l' = remove_first p (prefix num l).
Proof.
  intros Hnum H32 Hp.
  destruct (decide (p ∈ prefix num l)) as [Hin|Hnotin].
  - destruct (RemoveDimmFromList_body_present l num p Hnum H32 Hp Hin)
      as (l' & Heq & Hlen & Hpre).
    exists l', (num - 1). repeat split; try assumption; try lia.
    assert (0 < length (prefix num l))%nat.
    { destruct (prefix num l); [inversion Hin|simpl; lia]. }
    unfold prefix in *. rewrite length_take in *. lia.
  - exists l, num.
    rewrite RemoveDimmFromList_body_absent, remove_first_notin by assumption.
    repeat split; lia.
Qed.

(** * Correctness of [RemoveDimmArrayFromList] *)

Lemma RemoveDimmArray_loop_spec (m : list DIMM_PTR) :
  forall (seen rest l : list DIMM_PTR) (num : Z),
  0 <= num <= Z.of_nat (length l) ->
  num < 2 ^ 32 ->
  Forall (fun p => p <> NULL) m ->
  exists l' num',
    RemoveDimmArray_loop (length m) l num (seen ++ m ++ rest)
                         (Z.of_nat (length seen)) = Done (l', num')
    /\ length l' = length l
    /\ 0 <= num' <= num
    /\ prefix num' l' = remove_all m (prefix num l).
Proof.
  induction m as [|p m IH]; intros seen rest l num Hnum H32 Hm.
  - exists l, num. simpl. repeat split; lia.
  - cbn [length RemoveDimmArray_loop app].
    rewrite array_get_middle. cbn [bind].
    inversion Hm as [|? ? Hp Hm']; subst.
    destruct (RemoveDimmFromList_body_spec l num p Hnum H32 Hp)
      as (l1 & num1 & Heq1 & Hlen1 & Hnum1 & Hpre1).
    rewrite Heq1. cbn [bind].
    destruct (IH (seen ++ [p]) rest l1 num1) as (l2 & num2 & Heq2 & Hlen2 & Hnum2 & Hpre2);
      [lia|lia|exact Hm'|].
    rewrite <- app_assoc, length_app in Heq2. cbn [length app] in Heq2.
    replace (Z.of_nat (length seen) + 1) with (Z.of_nat (length seen + 1))
      by lia.
    exists l2, num2. rewrite Heq2. repeat split; try lia.
    rewrite Hpre2, Hpre1. reflexivity.
Qed.

(** Removing, one at a time, the entries of a list that satisfy [P] leaves
    those that do not, in their order. *)
Lemma remove_all_filter (P : DIMM_PTR -> bool) (w : list DIMM_PTR) :
  forall pre,
  Forall (fun x => P x = false) pre ->
  remove_all (List.filter P w) (pre ++ w)
  = pre ++ List.filter (fun x => negb (P x)) w.
Proof.
  induction w as [|x w IH]; intros pre Hpre.
  - reflexivity.
  - simpl. destruct (P x) eqn:HPx; simpl.
    + unfold remove_all in *. simpl.
      rewrite remove_first_middle; [apply IH; exact Hpre|].
      intros Hin. rewrite Forall_forall in Hpre.
      specialize (Hpre x Hin). congruence.
    + replace (pre ++ x :: w) with ((pre ++ [x]) ++ w)
        by (rewrite <- app_assoc; reflexivity).
      rewrite IH, <- app_assoc; [reflexivity|].
      apply Forall_app. split; [exact Hpre|].
      constructor; [exact HPx|constructor].
Qed.

(** * Bit operations of the macros *)

Lemma uint32_high_bits z j : is_UINT32 z -> 32 <= j -> Z.testbit z j = false.
Proof.
  intros Hz Hj. rewrite <- (Z.mod_small z (2 ^ 32)) by exact Hz.
  apply Z.mod_pow2_bits_high. lia.
Qed.

Lemma uint32_of_bits z :
  0 <= z -> (forall j, 32 <= j -> Z.testbit z j = false) -> is_UINT32 z.
Proof.
  intros Hz Hhigh.
  assert (Hmod : z mod 2 ^ 32 = z).
  { apply Z.bits_inj'. intros j Hj.
    destruct (Z.lt_ge_cases j 32) as [Hlt|Hge].
    - apply Z.mod_pow2_bits_low. exact Hlt.
    - rewrite Z.mod_pow2_bits_high by lia. symmetry. apply Hhigh. exact Hge. }
  unfold is_UINT32. rewrite <- Hmod.
  apply Z.mod_pos_bound. reflexivity.
Qed.

Lemma clearbit_uint32 z i : is_UINT32 z -> is_UINT32 (Z.clearbit z i).
Proof.
  intros Hz. apply uint32_of_bits.
  - unfold Z.clearbit. apply Z.ldiff_nonneg. left. apply Hz.
  - intros j Hj. rewrite Z.clearbit_eqb, (uint32_high_bits z j Hz Hj).
    reflexivity.
Qed.

Lemma DIMM_POPULATED_spec map i :
  0 <= i < 32 ->
  DIMM_POPULATED map i = Done (Z.b2z (Z.testbit map i)).
Proof.
  intros Hi. unfold DIMM_POPULATED.
  destruct (Z.ltb_spec i 32); [|lia]. f_equal.
  change 1 with (Z.ones 1). rewrite Z.land_ones by lia.
  change (2 ^ 1) with 2. rewrite <- Z.bit0_mod, Z.shiftr_spec by lia.
  reflexivity.
Qed.

Lemma CLEAR_DIMM_spec map i :
  is_UINT32 map -> 0 <= i < 31 ->
  CLEAR_DIMM map i = Done (Z.clearbit map i).
Proof.
  intros Hmap Hi. unfold CLEAR_DIMM.
  destruct (Z.ltb_spec i 31); [|lia]. f_equal.
  apply Z.bits_inj'. intros j Hj.
  rewrite Z.land_spec, Z.clearbit_eqb. unfold wrap32.
  destruct (Z.lt_ge_cases j 32) as [Hlt|Hge].
  - rewrite Z.mod_pow2_bits_low, Z.lnot_spec, Z.shiftl_1_l,
      Z.pow2_bits_eqb by lia.
    reflexivity.
  - rewrite (uint32_high_bits map j Hmap Hge). reflexivity.
Qed.

(** * The bits that are left: [not_found] *)

Lemma slot_of_nonneg p : 0 <= slot_of p.
Proof.
  unfold slot_of. destruct (Heap p); [|lia].
  unfold wrap32. apply Z.mod_pos_bound. reflexivity.
Qed.

Lemma not_found_app map l1 l2 :
  not_found map (l1 ++ l2) = not_found (not_found map l1) l2.
Proof. unfold not_found. apply fold_left_app. Qed.

Lemma not_found_testbit l : forall map j,
  Z.testbit (not_found map l) j
  = Z.testbit map j && forallb (fun p => negb (slot_of p =? j)) l.
Proof.
  induction l as [|p l IH]; intros map j.
  - simpl. rewrite andb_true_r. reflexivity.
  - change (not_found map (p :: l))
      with (not_found (Z.clearbit map (slot_of p)) l).
    rewrite IH, Z.clearbit_eqb. simpl. rewrite andb_assoc. reflexivity.
Qed.

Lemma not_found_uint32 l : forall map,
  is_UINT32 map -> is_UINT32 (not_found map l).
Proof.
  induction l as [|p l IH]; intros map Hmap; [exact Hmap|].
  apply (IH (Z.clearbit map (slot_of p))). apply clearbit_uint32. exact Hmap.
Qed.

(** Clearing the slot of a DIMM the pattern does not name changes nothing. *)
Lemma not_found_unnamed map l p :
  named map p = false ->
  Z.clearbit (not_found map l) (slot_of p) = not_found map l.
Proof.
  intros Hp. apply Z.bits_inj'. intros j Hj.
  rewrite Z.clearbit_eqb.
  destruct (Z.eqb_spec (slot_of p) j) as [<-|Hne]; simpl.
  - rewrite not_found_testbit. unfold named in Hp. rewrite Hp. reflexivity.
  - apply andb_true_r.
Qed.

Lemma forallb_false {A : Type} (f : A -> bool) (l : list A) :
  forallb f l = false -> exists x, x ∈ l /\ f x = false.
Proof.
  induction l as [|x l IH]; simpl; [discriminate|].
  destruct (f x) eqn:Hx; simpl.
  - intros H. destruct (IH H) as (y & Hy & Hfy).
    exists y. split; [right; exact Hy|exact Hfy].
  - intros _. exists x. split; [left|exact Hx].
Qed.

(** The code's test, nothing left to find, says that the pattern is
    covered. *)
Lemma coveredb_covered map l : coveredb map l = true <-> covered map l.
Proof.
  unfold coveredb, covered. rewrite Z.eqb_eq. split.
  - intros H0 i Hi.
    assert (Hbit : Z.testbit (not_found map l) i = false)
      by (rewrite H0; apply Z.bits_0).
    rewrite not_found_testbit, Hi in Hbit. simpl in Hbit.
    destruct (forallb (fun p => negb (slot_of p =? i)) l) eqn:Hall;
      [discriminate|].
    apply forallb_false in Hall as (p & Hp & Hslot).
    exists p. split; [exact Hp|].
    destruct (Z.eqb_spec (slot_of p) i); [assumption|discriminate].
  - intros Hcov. apply Z.bits_inj_0. intros j.
    rewrite not_found_testbit.
    destruct (Z.testbit map j) eqn:Hj; [|reflexivity]. simpl.
    destruct (Hcov j Hj) as (p & Hp & Hslot).
    apply not_true_iff_false. intros Hall.
    rewrite forallb_forall in Hall.
    apply list_elem_of_In in Hp. specialize (Hall p Hp).
    rewrite Hslot, Z.eqb_refl in Hall. discriminate.
Qed.

(** * Correctness of [GetDimmsFromListMatchingInterleaveSet] *)

Lemma deref_valid p :
  valid_dimm p = true ->
  exists d, deref p = Done d
    /\ wrap32 (DIMM_LOCATION (Z.of_N (ImcId d)) (Z.of_N (ChannelId d)))
       = slot_of p
    /\ 0 <= slot_of p < 31
    /\ p <> NULL.
Proof.
  unfold valid_dimm, deref. intros H.
  apply andb_true_iff in H as [Hnull Hheap].
  pose proof (slot_of_nonneg p) as Hnonneg. unfold slot_of in *.
  destruct (N.eqb_spec p NULL) as [|Hne]; [discriminate|].
  destruct (Heap p) as [d|]; [|discriminate].
  exists d. apply Z.ltb_lt in Hheap. repeat split; try assumption; lia.
Qed.

(** The scan, on an input array cut at [Index] and an output array cut at
    [*pDimmsUsed]: the DIMMs the pattern names are appended to the output in
    the order of the input, and the slots met are cleared. *)
Lemma GetDimms_loop_spec map (Hmap : is_UINT32 map) (todo : list DIMM_PTR) :
  forall (seen rest acc outw outfree : list DIMM_PTR),
  forallb valid_dimm todo = true ->
  (length todo <= length outfree)%nat ->
  Z.of_nat (length outw + length todo) < 2 ^ 32 ->
  GetDimms_loop (length todo) (seen ++ todo ++ rest) map
                (Z.of_nat (length seen)) (outw ++ outfree)
                (Z.of_nat (length outw)) (not_found map acc)
  = Done (outw ++ List.filter (named map) todo
               ++ drop (length (List.filter (named map) todo)) outfree,
          Z.of_nat (length outw + length (List.filter (named map) todo)),
          not_found map (acc ++ todo)).
Proof.
  induction todo as [|p todo IH]; intros seen rest acc outw outfree Hvalid Hfree H32.
  - simpl. rewrite !app_nil_r, Nat.add_0_r. reflexivity.
  - cbn [length GetDimms_loop app].
    rewrite array_get_middle. cbn [bind].
    simpl in Hvalid. apply andb_true_iff in Hvalid as [Hp Hvalid].
    destruct (deref_valid p Hp) as (d & Hderef & Hslot & Hrange & _).
    rewrite Hderef. cbn [bind]. cbv zeta. rewrite Hslot.
    rewrite DIMM_POPULATED_spec by lia. cbn [bind].
    simpl in Hfree, H32.
    replace (Z.of_nat (length seen) + 1) with (Z.of_nat (length (seen ++ [p])))
      by (rewrite length_app; simpl; lia).
    replace (seen ++ p :: todo ++ rest) with ((seen ++ [p]) ++ todo ++ rest)
      by (rewrite <- app_assoc; reflexivity).
    replace (acc ++ p :: todo) with ((acc ++ [p]) ++ todo)
      by (rewrite <- app_assoc; reflexivity).
    cbn [List.filter]. fold (named map p).
    destruct (named map p) eqn:Hnamed; cbn [Z.b2z Z.eqb].
    + destruct outfree as [|y outfree]; [simpl in Hfree; lia|].
      rewrite array_set_middle. cbn [bind].
      rewrite CLEAR_DIMM_spec
        by (try apply not_found_uint32; assumption).
      cbn [bind].
      rewrite (wrap32_small (Z.of_nat (length outw) + 1)) by lia.
      replace (Z.of_nat (length outw) + 1)
        with (Z.of_nat (length (outw ++ [p])))
        by (rewrite length_app; simpl; lia).
      replace (outw ++ p :: outfree) with ((outw ++ [p]) ++ outfree)
        by (rewrite <- app_assoc; reflexivity).
      replace (Z.clearbit (not_found map acc) (slot_of p))
        with (not_found map (acc ++ [p]))
        by (rewrite not_found_app; reflexivity).
      rewrite IH; [|exact Hvalid|simpl in Hfree; lia
                   |rewrite length_app; simpl; lia].
      rewrite <- !app_assoc, length_app. simpl.
      do 3 f_equal. lia.
    + replace (not_found map acc) with (not_found map (acc ++ [p])) at 1
        by (rewrite not_found_app; apply not_found_unnamed; exact Hnamed).
      rewrite IH; [reflexivity|exact Hvalid|lia|lia].
Qed.

Lemma GetDimms_body_spec l num map out used :
  is_UINT32 map ->
  0 <= num <= Z.of_nat (length l) ->
  forallb valid_dimm (prefix num l) = true ->
  0 <= used ->
  used + num <= Z.of_nat (length out) ->
  used + num < 2 ^ 32 ->
  let m := matched map (prefix num l) in
  exists out',
    GetDimmsFromListMatchingInterleaveSet_body l num map out used
    = Done (EFI_SUCCESS, out',
            if coveredb map (prefix num l)
            then used + Z.of_nat (length m) else 0)
    /\ length out' = length out
    /\ prefix (used + Z.of_nat (length m)) out' = prefix used out ++ m.
Proof.
  intros Hmap Hnum Hvalid Hused Hcap H32 m.
  unfold GetDimmsFromListMatchingInterleaveSet_body.
  destruct (prefix_split num l Hnum) as [Hl Hlen].
  destruct (prefix_split used out) as [Hout Hlenout]; [lia|].
  pose proof (GetDimms_loop_spec map Hmap (prefix num l) []
                (drop (Z.to_nat num) l) [] (prefix used out)
                (drop (Z.to_nat used) out) Hvalid) as Hloop.
  cbn [app length] in Hloop. change (Z.of_nat 0) with 0 in Hloop.
  rewrite <- Hl, <- Hout in Hloop.
  rewrite Hlenout in Hloop. change (not_found map []) with map in Hloop.
  assert (Hm : (length m <= length (prefix num l))%nat)
    by apply List.filter_length_le.
  replace (Z.to_nat num) with (length (prefix num l)) by lia.
  rewrite Hloop; [|rewrite length_drop; lia|lia].
  cbn [bind]. fold m. fold (coveredb map (prefix num l)).
  set (out' := prefix used out ++ m ++ drop (length m) (drop (Z.to_nat used) out)).
  assert (Hlen' : length out' = length out).
  { unfold out'. rewrite !length_app, !length_drop. lia. }
  assert (Hpre' : prefix (used + Z.of_nat (length m)) out' = prefix used out ++ m).
  { unfold out'. rewrite app_assoc. unfold prefix at 1.
    apply take_app_length'. rewrite length_app. lia. }
  exists out'.
  destruct (coveredb map (prefix num l)).
  - split; [|split; assumption].
    unfold out', m, matched. do 2 f_equal. lia.
  - split; [|split; assumption]. reflexivity.
Qed.

(** A covered pattern that is not the sentinel names some DIMM of the list. *)
Lemma matched_nonempty map l :
  0 < map -> covered map l -> matched map l <> [].
Proof.
  intros Hmap Hcov.
  destruct (Hcov (Z.log2 map) (Z.bit_log2 map Hmap)) as (p & Hp & Hslot).
  assert (Hin : p ∈ matched map l).
  { apply list_elem_of_In, List.filter_In. split.
    - apply list_elem_of_In. exact Hp.
    - unfold named. rewrite Hslot. apply Z.bit_log2. exact Hmap. }
  intros Hnil. rewrite Hnil in Hin. inversion Hin.
Qed.

(** * Correctness of [FindBestInterleavingForDimms] *)

Lemma FindBest_loop_used sets pDimms num Index out used :
  used <> 0 ->
  FindBest_loop sets pDimms num Index out used = Done (out, used, Index).
Proof.
  intros Hused. destruct sets; simpl;
    destruct (Z.eqb_spec used 0); try contradiction; reflexivity.
Qed.

Lemma FindBest_loop_spec l num (sets : list Z) :
  Forall is_UINT32 sets ->
  END_OF_INTERLEAVE_SETS ∈ sets ->
  0 <= num <= Z.of_nat (length l) ->
  num < 2 ^ 32 ->
  forallb valid_dimm (prefix num l) = true ->
  forall Index out,
  num <= Z.of_nat (length out) ->
  exists out' used' Index',
    FindBest_loop sets l num Index out 0 = Done (out', used', Index')
    /\ length out' = length out
    /\ Index <= Index' < Index + Z.of_nat (length sets)
    /\ match select sets (prefix num l) with
       | Some s =>
           In s sets /\
           0 < used' /\
           used' = Z.of_nat (length (matched s (prefix num l))) /\
           prefix used' out' = matched s (prefix num l)
       | None => used' = 0
       end.
Proof.
  intros Hsets Hend Hnum H32 Hvalid.
  induction sets as [|s rest IH]; intros Index out Hcap; [inversion Hend|].
  cbn [FindBest_loop select length]. change (negb (0 =? 0)) with false.
  cbv iota. unfold END_OF_INTERLEAVE_SETS in *.
  destruct (Z.eqb_spec s 0) as [Hs|Hs].
  - exists out, 0, Index. repeat split; lia.
  - inversion Hsets as [|? ? Hs32 Hrest]; subst.
    destruct (GetDimms_body_spec l num s out 0 Hs32 Hnum Hvalid)
      as (out1 & Heq1 & Hlen1 & Hpre1); [lia|lia|lia|].
    rewrite Heq1. cbn [bind].
    rewrite Z.add_0_l in Hpre1. change (prefix 0 out) with (@nil DIMM_PTR) in Hpre1.
    simpl in Hpre1. rewrite Z.add_0_l.
    assert (Hrestlen : (0 < length rest)%nat).
    { pose proof Hend as Hend'.
      apply elem_of_cons in Hend' as [?|Hend']; [congruence|].
      destruct rest; [inversion Hend'|simpl; lia]. }
    destruct (coveredb s (prefix num l)) eqn:Hcov.
    + apply coveredb_covered in Hcov.
      assert (Hne : matched s (prefix num l) <> [])
        by (apply matched_nonempty; [unfold is_UINT32 in Hs32; lia|exact Hcov]).
      assert (0 < Z.of_nat (length (matched s (prefix num l)))).
      { destruct (matched s (prefix num l)); [contradiction|simpl; lia]. }
      rewrite FindBest_loop_used by lia.
      eexists out1, _, (Index + 1). split; [reflexivity|].
      split; [exact Hlen1|]. split; [lia|].
      split; [left; reflexivity|]. split; [lia|].
      split; [reflexivity|exact Hpre1].
    + apply elem_of_cons in Hend as [Hend|Hend]; [congruence|].
      destruct (IH Hrest Hend (Index + 1) out1) as (out2 & used2 & Index2 & Heq2 & Hlen2 & HIndex2 & Hsel);
        [lia|].
      exists out2, used2, Index2. rewrite Heq2.
      repeat split; try lia.
      destruct (select rest (prefix num l)); [|exact Hsel].
      destruct Hsel as (Hin & Hrest'). split; [right; exact Hin|exact Hrest'].
Qed.

Lemma INTERLEAVE_SETS_wf :
  Forall is_UINT32 INTERLEAVE_SETS /\ END_OF_INTERLEAVE_SETS ∈ INTERLEAVE_SETS.
Proof.
  split.
  - unfold INTERLEAVE_SETS, is_UINT32, END_OF_INTERLEAVE_SETS.
    repeat constructor; lia.
  - apply list_elem_of_In. unfold END_OF_INTERLEAVE_SETS, INTERLEAVE_SETS.
    simpl. tauto.
Qed.

Lemma FindBest_body_spec l num out :
  0 <= num <= Z.of_nat (length l) ->
  num < 2 ^ 32 ->
  forallb valid_dimm (prefix num l) = true ->
  num <= Z.of_nat (length out) ->
  exists rc out' used' Index',
    FindBestInterleavingForDimms_body l num out 0
    = Done (rc, out', used', Index')
    /\ length out' = length out
    /\ 0 <= Index' < Z.of_nat (length INTERLEAVE_SETS)
    /\ match select INTERLEAVE_SETS (prefix num l) with
       | Some s =>
           rc = EFI_SUCCESS /\
           In s INTERLEAVE_SETS /\
           0 < used' /\
           used' = Z.of_nat (length (matched s (prefix num l))) /\
           prefix used' out' = matched s (prefix num l)
       | None => rc = EFI_ABORTED /\ used' = 0
       end.
Proof.
  intros Hnum H32 Hvalid Hcap.
  destruct INTERLEAVE_SETS_wf as [Hwf Hend].
  destruct (FindBest_loop_spec l num INTERLEAVE_SETS Hwf Hend Hnum H32 Hvalid
              0 out Hcap)
    as (out' & used' & Index' & Heq & Hlen & HIndex & Hsel).
  unfold FindBestInterleavingForDimms_body. rewrite Heq. cbn [bind].
  destruct (select INTERLEAVE_SETS (prefix num l)) as [s|].
  - destruct Hsel as (Hin & Hpos & Hused & Hpre).
    destruct (Z.eqb_spec used' 0); [lia|].
    exists EFI_SUCCESS, out', used', Index'. repeat split; try assumption; lia.
  - subst used'. exists EFI_ABORTED, out', 0, Index'.
    repeat split; try assumption; lia.
Qed.

(** * One round of selection and removal *)

Lemma matched_unmatched_perm map l : matched map l ++ unmatched map l ≡ₚ l.
Proof.
  unfold matched, unmatched. induction l as [|x l IH]; simpl; [constructor|].
  destruct (named map x); simpl.
  - constructor. exact IH.
  - rewrite <- Permutation_middle. constructor. exact IH.
Qed.

Lemma matched_unmatched_length map l :
  (length (matched map l) + length (unmatched map l) = length l)%nat.
Proof. apply List.filter_length. Qed.

Lemma forallb_filter_incl {A : Type} (f g : A -> bool) (l : list A) :
  forallb f l = true -> forallb f (List.filter g l) = true.
Proof.
  rewrite !forallb_forall. intros H x Hx.
  apply List.filter_In in Hx as [Hx _]. auto.
Qed.

Lemma valid_not_null l :
  forallb valid_dimm l = true -> Forall (fun p => p <> NULL) l.
Proof.
  rewrite forallb_forall, Forall_forall. intros H p Hp.
  apply list_elem_of_In in Hp.
  destruct (deref_valid p (H p Hp)) as (_ & _ & _ & _ & Hne). exact Hne.
Qed.

Lemma remove_all_matched map l : remove_all (matched map l) l = unmatched map l.
Proof. apply (remove_all_filter (named map) l []). constructor. Qed.

Lemma array_set_Done {A : Type} (a : list A) (i : Z) (x : A) :
  0 <= i < Z.of_nat (length a) ->
  array_set a i x = Done (<[Z.to_nat i := x]> a).
Proof.
  intros H. unfold array_set.
  destruct (Z.leb_spec 0 i); [|lia].
  destruct (Z.ltb_spec i (Z.of_nat (length a))); [|lia]. reflexivity.
Qed.

(** The removal that follows a successful selection takes the selected
    DIMMs, and only them, out of the working list. *)
Lemma RemoveDimmArray_after_select copy rem out used s :
  0 <= rem <= Z.of_nat (length copy) ->
  rem < 2 ^ 32 ->
  forallb valid_dimm (prefix rem copy) = true ->
  used = Z.of_nat (length (matched s (prefix rem copy))) ->
  prefix used out = matched s (prefix rem copy) ->
  exists copy',
    RemoveDimmArray_loop (Z.to_nat used) copy rem out 0
    = Done (copy', rem - used)
    /\ length copy' = length copy
    /\ 0 <= rem - used
    /\ prefix (rem - used) copy' = unmatched s (prefix rem copy).
Proof.
  intros Hrem H32 Hvalid Hused Hpre.
  set (w := prefix rem copy) in *.
  assert (Hout : out = [] ++ matched s w ++ drop (Z.to_nat used) out).
  { simpl. rewrite <- Hpre. symmetry. apply take_drop. }
  destruct (RemoveDimmArray_loop_spec (matched s w) []
              (drop (Z.to_nat used) out) copy rem Hrem H32)
    as (copy' & rem' & Heq & Hlen & Hrem' & Hpre').
  { apply valid_not_null, forallb_filter_incl. exact Hvalid. }
  rewrite <- Hout in Heq. cbn [length] in Heq. change (Z.of_nat 0) with 0 in Heq.
  fold w in Hpre'. rewrite remove_all_matched in Hpre'.
  assert (Hw : Z.of_nat (length w) = rem).
  { unfold w, prefix. rewrite length_take. lia. }
  pose proof (matched_unmatched_length s w) as Hsum.
  assert (rem' = rem - used).
  { assert (Z.of_nat (length (prefix rem' copy')) = rem')
      by (unfold prefix; rewrite length_take; lia).
    rewrite Hpre' in *. lia. }
  subst rem'. exists copy'.
  replace (Z.to_nat used) with (length (matched s w)) by lia.
  repeat split; try assumption; lia.
Qed.

(** * The grouping loop *)

Section Loop.

Variable pRegionGoalTemplate : REGION_GOAL_TEMPLATE.
Variable DimmsNum : Z.
Variable InterleaveSetSize : Z.
Variable pDriverPreferences : option DRIVER_PREFERENCES.
Variable SequenceIndex : Z.
Variable input : list DIMM_PTR.
Variable num0 : Z.

Local Abbreviation body :=
  (Perform_body pRegionGoalTemplate DimmsNum InterleaveSetSize
                pDriverPreferences SequenceIndex).
Local Abbreviation loop :=
  (Perform_loop pRegionGoalTemplate DimmsNum InterleaveSetSize
                pDriverPreferences SequenceIndex).
Local Abbreviation Inv := (Inv DimmsNum InterleaveSetSize input num0).
Local Abbreviation Exit := (Exit DimmsNum InterleaveSetSize).
Local Abbreviation reachable :=
  (reachable pRegionGoalTemplate DimmsNum InterleaveSetSize
             pDriverPreferences SequenceIndex).
Local Abbreviation Final :=
  (Final pRegionGoalTemplate DimmsNum InterleaveSetSize
         pDriverPreferences SequenceIndex).

Lemma Zsum_app l1 l2 : Zsum (l1 ++ l2) = Zsum l1 + Zsum l2.
Proof. unfold Zsum. induction l1 as [|x l1 IH]; simpl; lia. Qed.

(** One iteration from a state that satisfies the invariant: the body is
    defined; it leaves with [EFI_ABORTED] or [EFI_OUT_OF_RESOURCES], or it
    restores the invariant on a strictly shorter working list. *)
Lemma body_spec st :
  Inv st ->
  RemainingDimms st > 0 ->
  exists f, body st = Done f /\
    match f with
    | Continue st' =>
        Inv st' /\ RemainingDimms st' < RemainingDimms st
        /\ exists s r,
             select INTERLEAVE_SETS (working st) = Some s
             /\ req_group r = matched s (working st)
             /\ working st' = unmatched s (working st)
             /\ Requests st' = Requests st ++ [r]
    | Finish rc st' => Exit st rc st'
    end.
Proof.
  intros [Hnum Hcopy Hout Hrem Hused Htotal Htotal0 Hvalid Hgoals Hgoals32
          Hnum0 Hcount Hpart Hreqs Hsum] Hpos.
  unfold working in *. unfold Perform_body. rewrite Hused.
  unfold is_UINT32 in Hnum.
  destruct (FindBest_body_spec (pDimmsCopy st) (RemainingDimms st)
              (pDimmsInterleaved st))
    as (rc & out' & used' & Index' & Heq & Hlen & _ & Hsel);
    [lia|lia|exact Hvalid|lia|].
  rewrite Heq. cbn [bind].
  destruct (select INTERLEAVE_SETS
              (prefix (RemainingDimms st) (pDimmsCopy st))) as [s|] eqn:Hselect.
  - destruct Hsel as (-> & Hin & Hused'pos & Hused' & Hpre).
    cbn [EFI_ERROR].
    destruct (RemoveDimmArray_after_select (pDimmsCopy st) (RemainingDimms st)
                out' used' s) as (copy' & Hrm & Hlencopy & Hrem' & Hpre');
      [lia|lia|exact Hvalid|exact Hused'|exact Hpre|].
    rewrite Hrm. cbn [bind].
    pose proof (matched_unmatched_length s
                  (prefix (RemainingDimms st) (pDimmsCopy st))) as Hsplit.
    assert (Hw : Z.of_nat (length (prefix (RemainingDimms st) (pDimmsCopy st)))
                 = RemainingDimms st)
      by (unfold prefix; rewrite length_take; lia).
    rewrite (wrap32_small (TotalDimmsUsed st + used')) by lia.
    destruct (Z.gtb_spec (TotalDimmsUsed st + used') DimmsNum) as [Hgt|_];
      [lia|].
    destruct (CreateRegionGoal (world st) pRegionGoalTemplate out' used'
                (wrap64 (InterleaveSetSize * used') / DimmsNum)
                pDriverPreferences SequenceIndex (InterleaveSetIndex st))
      as [[w' goal] isi'].
    rewrite array_set_Done by lia. cbn [bind].
    set (r := {| req_Dimms := out'; req_DimmsNum := used';
                 req_Size := wrap64 (InterleaveSetSize * used') / DimmsNum |}).
    assert (Hgroup : req_group r = matched s
                       (prefix (RemainingDimms st) (pDimmsCopy st)))
      by exact Hpre.
    assert (Hr : good_request DimmsNum InterleaveSetSize r).
    { unfold good_request. rewrite Hgroup. simpl.
      repeat split; try lia; reflexivity. }
    assert (Hreqs' : Forall (good_request DimmsNum InterleaveSetSize)
                      (Requests st ++ [r])).
    { apply Forall_app. split; [exact Hreqs|]. constructor; [exact Hr|constructor]. }
    destruct goal as [g|].
    + eexists. split; [reflexivity|]. cbv beta iota.
      split; [|split; [simpl; lia|
                       exists s, r; repeat split; assumption]].
      constructor; simpl; unfold working; simpl; try lia; try assumption.
      * rewrite Hpre'. apply forallb_filter_incl. exact Hvalid.
      * rewrite length_insert.
        rewrite (wrap32_small (NewRegionsGoalNum st + 1)) by lia. lia.
      * rewrite (wrap32_small (NewRegionsGoalNum st + 1)) by lia. lia.
      * rewrite (wrap32_small (NewRegionsGoalNum st + 1)) by lia.
        rewrite length_app. simpl. lia.
      * rewrite map_app, concat_app. simpl. rewrite app_nil_r.
        rewrite Hgroup, Hpre', <- app_assoc, matched_unmatched_perm.
        exact Hpart.
      * rewrite map_app, Zsum_app. simpl. lia.
    + eexists. split; [reflexivity|]. cbv beta iota.
      constructor; simpl; try lia; try assumption.
      * right. reflexivity.
      * discriminate.
      * intros _. exists s, r. repeat split; assumption.
  - destruct Hsel as (-> & ->). cbn [EFI_ERROR].
    eexists. split; [reflexivity|]. cbv beta iota.
    constructor; simpl; try lia; try assumption.
    + left. reflexivity.
    + intros _. unfold working. auto.
    + discriminate.
Qed.

Lemma reachable_trans st0 st1 st2 :
  reachable st0 st1 -> reachable st1 st2 -> reachable st0 st2.
Proof.
  intros H01 H12. induction H12 as [|st st' _ IH Hpos Hbody]; [exact H01|].
  exact (reach_step _ _ _ _ _ st0 st st' IH Hpos Hbody).
Qed.

(** The invariant holds all along the loop. *)
Lemma reachable_Inv st0 st : Inv st0 -> reachable st0 st -> Inv st.
Proof.
  intros H0 Hreach. induction Hreach as [|st st' _ IH Hpos Hbody]; [exact H0|].
  destruct (body_spec st IH Hpos) as (f & Hf & Hpost).
  rewrite Hbody in Hf. injection Hf as <-. apply Hpost.
Qed.

(** Whatever the fuel, a run of the loop that returns ends in one of the
    two ways. *)
Lemma loop_final (fuel : nat) :
  forall st rc st',
  Inv st ->
  loop fuel st = Done (rc, st') ->
  Final st rc st'.
Proof.
  induction fuel as [|fuel IH]; intros st rc st' HInv Hrun;
    cbn [Perform_loop] in Hrun;
    pose proof (inv_rem st HInv) as Hrem;
    destruct (Z.gtb_spec (RemainingDimms st) 0) as [Hpos|Hzero];
    try discriminate.
  - injection Hrun as <- <-. left. repeat split; [constructor|lia].
  - destruct (body_spec st HInv) as (f & Hf & Hpost); [lia|].
    rewrite Hf in Hrun. cbn [bind] in Hrun.
    destruct f as [st1|rc1 st1].
    + destruct Hpost as (HInv1 & _).
      assert (Hstep : reachable st st1)
        by (apply (reach_step _ _ _ _ _ st st st1); [constructor|lia|exact Hf]).
      destruct (IH st1 rc st' HInv1 Hrun)
        as [(Hrc & Hreach & Hrem')|(st3 & Hreach & Hrest)].
      * left. repeat split; try assumption.
        exact (reachable_trans _ _ _ Hstep Hreach).
      * right. exists st3. split; [|exact Hrest].
        exact (reachable_trans _ _ _ Hstep Hreach).
    + injection Hrun as <- <-. right.
      exists st. split; [constructor|]. split; [lia|].
      split; [exact Hf|exact Hpost].
  - injection Hrun as <- <-. left. repeat split; [constructor|lia].
Qed.

(** With one unit of fuel for each DIMM of the working list the loop runs
    to its end. *)
Lemma loop_terminates (fuel : nat) :
  forall st,
  Inv st ->
  RemainingDimms st <= Z.of_nat fuel ->
  exists rc st', loop fuel st = Done (rc, st').
Proof.
  induction fuel as [|fuel IH]; intros st HInv Hfuel;
    cbn [Perform_loop];
    destruct (Z.gtb_spec (RemainingDimms st) 0) as [Hpos|Hzero];
    try lia; try (exists EFI_SUCCESS, st; reflexivity).
  destruct (body_spec st HInv) as (f & Hf & Hpost); [lia|].
  rewrite Hf. cbn [bind].
  destruct f as [st1|rc st1].
  - destruct Hpost as (HInv1 & Hless & _).
    apply (IH st1 HInv1). lia.
  - exists rc, st1. reflexivity.
Qed.

(** A successful run has emptied the working list. *)
Lemma Final_success st0 st' :
  Inv st0 -> Final st0 EFI_SUCCESS st' -> Inv st' /\ RemainingDimms st' = 0.
Proof.
  intros H0 [(_ & Hreach & Hrem)|(st & _ & _ & _ & HExit)].
  - split; [exact (reachable_Inv st0 st' H0 Hreach)|exact Hrem].
  - destruct (exit_rc _ _ _ HExit); discriminate.
Qed.

(** However the run ends, the running total is within the input count and
    the requests made are well formed. *)
Lemma Final_total st0 rc st' :
  Inv st0 -> Final st0 rc st' ->
  0 <= TotalDimmsUsed st' <= DimmsNum
  /\ rc <> EFI_BAD_BUFFER_SIZE
  /\ Forall (good_request DimmsNum InterleaveSetSize) (Requests st').
Proof.
  intros H0 [(-> & Hreach & Hrem)|(st & _ & _ & _ & HExit)].
  - pose proof (reachable_Inv st0 st' H0 Hreach) as HInv.
    pose proof (inv_total st' HInv). pose proof (inv_total_pos st' HInv).
    pose proof (inv_rem st' HInv).
    repeat split; try lia; [discriminate|exact (inv_requests st' HInv)].
  - split; [exact (exit_total _ _ _ HExit)|].
    split; [|exact (exit_requests _ _ _ HExit)].
    destruct (exit_rc _ _ _ HExit) as [-> | ->]; discriminate.
Qed.

End Loop.

(** * The whole function *)

Section Call.

Variable tmpl : REGION_GOAL_TEMPLATE.
Variable dimms : list DIMM_PTR.
Variable DimmsNum : Z.
Variable InterleaveSetSize : Z.
Variable prefs : option DRIVER_PREFERENCES.
Variable SequenceIndex : Z.
Variable goals : list (option REGION_GOAL).
Variable num isi : Z.
Variable w : World.

Local Abbreviation run :=
  (call tmpl dimms DimmsNum InterleaveSetSize prefs SequenceIndex goals num
        isi w).

Lemma call_nonzero fuel :
  Precondition dimms DimmsNum goals num ->
  InterleaveSetSize <> 0 ->
  run fuel
  = let* (rc, st) :=
      Perform_loop tmpl DimmsNum InterleaveSetSize prefs SequenceIndex fuel
           (init_state dimms DimmsNum goals num isi w) in
    Done (rc, output_of st).
Proof.
  intros [Hnum Hmax Hlen _ _ _] Hsize.
  unfold call, PerformInterleavingAndCreateGoal, init_state.
  unfold is_UINT32 in Hnum.
  destruct (Z.eqb_spec InterleaveSetSize 0); [contradiction|].
  destruct (Z.gtb_spec DimmsNum 0) as [Hpos|Hzero]; [|reflexivity].
  unfold CopyMem_S. rewrite length_replicate.
  destruct (Z.leb_spec 0 DimmsNum); [|lia].
  destruct (Z.leb_spec DimmsNum (Z.of_nat (Z.to_nat MAX_DIMMS))); [|lia].
  destruct (Z.leb_spec DimmsNum (Z.of_nat (length dimms))); [|lia].
  reflexivity.
Qed.

(** The working list of the initial state is the input. *)
Lemma working_init :
  Precondition dimms DimmsNum goals num ->
  working (init_state dimms DimmsNum goals num isi w) = prefix DimmsNum dimms.
Proof.
  intros [[Hnum _] _ Hlen _ _ _].
  unfold working, init_state, prefix. cbn [RemainingDimms pDimmsCopy].
  destruct (Z.gtb_spec DimmsNum 0) as [Hpos|Hzero].
  - rewrite take_app_le by (rewrite length_take; lia).
    rewrite take_take. f_equal. lia.
  - replace DimmsNum with 0 by lia. reflexivity.
Qed.

Lemma init_Inv :
  Precondition dimms DimmsNum goals num ->
  Inv DimmsNum InterleaveSetSize (prefix DimmsNum dimms) num
      (init_state dimms DimmsNum goals num isi w).
Proof.
  intros Hpre. pose proof (working_init Hpre) as Hwork.
  destruct Hpre as [Hnum Hmax Hlen Hvalid [Hnum0 Hgoals] Hgoals32].
  pose proof Hnum as [Hnum1 Hnum2].
  constructor; rewrite ?Hwork; cbn; try lia; try assumption.
  - destruct (Z.gtb_spec DimmsNum 0) as [Hpos|Hzero].
    + rewrite length_app, length_take, length_drop, length_replicate. lia.
    + rewrite length_replicate. lia.
  - rewrite length_replicate. lia.
  - reflexivity.
  - constructor.
Qed.

(** A call that returns, for a size that is not zero, went through the
    loop from the initial state. *)
Lemma call_final fuel rc out :
  Precondition dimms DimmsNum goals num ->
  InterleaveSetSize <> 0 ->
  run fuel = Done (rc, out) ->
  exists st',
    out = output_of st'
    /\ Final tmpl DimmsNum InterleaveSetSize prefs SequenceIndex
             (init_state dimms DimmsNum goals num isi w) rc st'.
Proof.
  intros Hpre Hsize Hrun. rewrite call_nonzero in Hrun by assumption.
  destruct (Perform_loop tmpl DimmsNum InterleaveSetSize prefs SequenceIndex
              fuel (init_state dimms DimmsNum goals num isi w))
    as [[rc' st']| |] eqn:Hloop; try discriminate.
  cbn [bind] in Hrun. injection Hrun as <- <-.
  exists st'. split; [reflexivity|].
  exact (loop_final tmpl DimmsNum InterleaveSetSize prefs SequenceIndex
           (prefix DimmsNum dimms) num fuel _ _ _ (init_Inv Hpre) Hloop).
Qed.

(** With one unit of fuel for each DIMM the call returns. *)
Lemma call_returns fuel :
  Precondition dimms DimmsNum goals num ->
  DimmsNum <= Z.of_nat fuel ->
  exists rc out, run fuel = Done (rc, out).
Proof.
  intros Hpre Hfuel.
  destruct (Z.eq_dec InterleaveSetSize 0) as [Hzero|Hsize].
  - unfold call, PerformInterleavingAndCreateGoal.
    rewrite Hzero. cbn [Z.eqb]. eauto.
  - rewrite call_nonzero by assumption.
    destruct (loop_terminates tmpl DimmsNum InterleaveSetSize prefs
                SequenceIndex (prefix DimmsNum dimms) num fuel _
                (init_Inv Hpre) Hfuel) as (rc & st' & Heq).
    rewrite Heq. cbn [bind]. eauto.
Qed.

End Call.

(** ** Facts on [select] *)

Lemma select_None sets l :
  (forall s, s ∈ sets -> s <> END_OF_INTERLEAVE_SETS -> ~ covered s l) ->
  select sets l = None.
Proof.
  induction sets as [|s sets IH]; intros H; [reflexivity|]. simpl.
  destruct (Z.eqb_spec s END_OF_INTERLEAVE_SETS) as [|Hs]; [reflexivity|].
  destruct (coveredb s l) eqn:Hcov.
  - exfalso. apply (H s); [left|exact Hs|]. apply coveredb_covered. exact Hcov.
  - apply IH. intros t Ht. apply H. right. exact Ht.
Qed.

Lemma select_first pre s post l :
  Forall (fun t => t <> END_OF_INTERLEAVE_SETS) pre ->
  (forall t, t ∈ pre -> ~ covered t l) ->
  s <> END_OF_INTERLEAVE_SETS ->
  covered s l ->
  select (pre ++ s :: post) l = Some s.
Proof.
  intros Hpre Hnot Hs Hcov. induction pre as [|t pre IH]; simpl.
  - destruct (Z.eqb_spec s END_OF_INTERLEAVE_SETS); [contradiction|].
    apply coveredb_covered in Hcov. rewrite Hcov. reflexivity.
  - inversion Hpre as [|? ? Ht Hpre']; subst.
    destruct (Z.eqb_spec t END_OF_INTERLEAVE_SETS); [contradiction|].
    destruct (coveredb t l) eqn:Ht'.
    + exfalso. apply (Hnot t); [left|]. apply coveredb_covered. exact Ht'.
    + apply IH; [exact Hpre'|]. intros u Hu. apply Hnot. right. exact Hu.
Qed.

(** The sentinel is the last entry of the table and its only zero. *)
Lemma sentinel_last pre s post :
  INTERLEAVE_SETS = pre ++ s :: post ->
  s <> END_OF_INTERLEAVE_SETS ->
  Forall (fun t => t <> END_OF_INTERLEAVE_SETS) pre.
Proof.
  intros Heq Hs.
  assert (Hpre : pre = take (length pre) INTERLEAVE_SETS)
    by (rewrite Heq, take_app_length; reflexivity).
  assert (Hlook : INTERLEAVE_SETS !! length pre = Some s)
    by (rewrite Heq; apply list_lookup_middle; reflexivity).
  rewrite Hpre. clear Hpre Heq. revert Hlook.
  generalize (length pre) as n. intros n.
  unfold INTERLEAVE_SETS, END_OF_INTERLEAVE_SETS in *.
  do 22 (destruct n as [|n];
         [intros Hlook; simpl;
          first [ injection Hlook as <-; contradiction
                | repeat constructor; discriminate ]|]).
  discriminate.
Qed.


(** ** Arithmetic of the shares *)

Lemma wrap64_small z : 0 <= z < 2 ^ 64 -> wrap64 z = z.
Proof. intros H. unfold wrap64. apply Z.mod_small. exact H. Qed.


(** Truncated proportional shares of [S] over parts [ks] of [N]. *)
Lemma proportional_shares S N (ks : list Z) :
  0 <= S -> 0 < N ->
  Forall (fun k => 0 < k) ks ->
  N * Zsum (map (fun k => S * k / N) ks) <= S * Zsum ks
  /\ S * Zsum ks
     <= N * Zsum (map (fun k => S * k / N) ks) + (N - 1) * Z.of_nat (length ks).
Proof.
  intros HS HN Hks. induction Hks as [|k ks Hk _ IH]; [simpl; lia|].
  cbn [map Zsum fold_right length]. fold (Zsum ks).
  fold (Zsum (map (fun k => S * k / N) ks)).
  pose proof (Z.div_mod (S * k) N) as Hdiv.
  pose proof (Z.mod_pos_bound (S * k) N HN) as Hmod.
  lia.
Qed.

(** * Properties of the grouping *)

(** C1, amended. For every non-empty input list and every requested size
    other than zero, when [PerformInterleavingAndCreateGoal] returns
    [EFI_SUCCESS] the groups passed to [CreateRegionGoal], put end to end, are
    a permutation of the input list: each DIMM is in the groups as many times
    as it is in the input, so none is dropped, and a DIMM listed once is in
    one group only; and the DIMM counts of the groups add up to
    [DimmsNum]. *)
Theorem C1_groups_partition_input tmpl dimms DimmsNum InterleaveSetSize prefs
    SequenceIndex goals num isi w fuel out :
  Precondition dimms DimmsNum goals num ->
  0 < DimmsNum ->
  InterleaveSetSize <> 0 ->
  call tmpl dimms DimmsNum InterleaveSetSize prefs SequenceIndex goals num
       isi w fuel = Done (EFI_SUCCESS, out) ->
  concat (map req_group (out_Requests out)) ≡ₚ prefix DimmsNum dimms
  /\ (NoDup (prefix DimmsNum dimms) ->
      NoDup (concat (map req_group (out_Requests out))))
  /\ Forall (fun r => Z.of_nat (length (req_group r)) = req_DimmsNum r)
            (out_Requests out)
  /\ Zsum (map req_DimmsNum (out_Requests out)) = DimmsNum.
Proof.
  intros Hpre _ Hsize Hrun.
  destruct (call_final _ _ _ _ _ _ _ _ _ _ _ _ _ Hpre Hsize Hrun)
    as (st' & -> & Hfinal).
  destruct (Final_success _ _ _ _ _ _ _ _ _ (init_Inv _ _ _ _ _ _ _ Hpre) Hfinal)
    as (HInv & Hrem).
  cbn [output_of out_Requests].
  pose proof (inv_partition st' HInv) as Hpart.
  unfold working in Hpart. rewrite Hrem in Hpart.
  change (prefix 0 (pDimmsCopy st')) with (@nil DIMM_PTR) in Hpart.
  rewrite app_nil_r in Hpart.
  split; [exact Hpart|]. split; [|split].
  - intros Hnodup. rewrite Hpart. exact Hnodup.
  - eapply Forall_impl; [exact (inv_requests st' HInv)|].
    intros r (_ & Hr & _). exact Hr.
  - pose proof (inv_sum st' HInv). pose proof (inv_total st' HInv). lia.
Qed.

(** C2. For a list of DIMMs and a pattern ([InterleaveMap] other than the
    sentinel zero), [GetDimmsFromListMatchingInterleaveSet] leaves a count
    [*pDimmsUsed] other than zero if and only if every slot bit set in the
    pattern is the slot of some DIMM of the list. In that case the entries
    it appended to the output are the DIMMs of the list whose slot the
    pattern names, in the order of the list, and no other; when some bit of
    the pattern is left unmatched the count is reset to zero. *)
Theorem C2_pattern_matcher (l : list DIMM_PTR) (num map : Z)
    (out : list DIMM_PTR) (used : Z) :
  is_UINT32 map ->
  map <> END_OF_INTERLEAVE_SETS ->
  0 <= num <= Z.of_nat (length l) ->
  forallb valid_dimm (prefix num l) = true ->
  0 <= used ->
  used + num <= Z.of_nat (length out) ->
  used + num < 2 ^ 32 ->
  exists out' used',
    GetDimmsFromListMatchingInterleaveSet (Some l) num map (Some out)
                                          (Some used)
    = Done (EFI_SUCCESS, Some out', Some used')
    /\ (used' <> 0 <-> covered map (prefix num l))
    /\ (covered map (prefix num l) ->
        prefix used' out' = prefix used out ++ matched map (prefix num l))
    /\ (forall p, p ∈ matched map (prefix num l) <->
                  p ∈ prefix num l /\ Z.testbit map (slot_of p) = true)
    /\ (~ covered map (prefix num l) -> used' = 0).
Proof.
  intros Hmap Hnz Hnum Hvalid Hused Hcap H32.
  destruct (GetDimms_body_spec l num map out used Hmap Hnum Hvalid Hused Hcap H32)
    as (out' & Heq & Hlen & Hpre).
  unfold GetDimmsFromListMatchingInterleaveSet. rewrite Heq. cbn [bind].
  eexists _, _. split; [reflexivity|].
  assert (Hm : forall p, p ∈ matched map (prefix num l) <->
                         p ∈ prefix num l /\ Z.testbit map (slot_of p) = true).
  { intros p. unfold matched. rewrite !list_elem_of_In, List.filter_In.
    reflexivity. }
  destruct (coveredb map (prefix num l)) eqn:Hcov.
  - apply coveredb_covered in Hcov.
    assert (Hne : matched map (prefix num l) <> []).
    { apply matched_nonempty; [|exact Hcov].
      unfold is_UINT32, END_OF_INTERLEAVE_SETS in *. lia. }
    assert (0 < length (matched map (prefix num l)))%nat
      by (destruct (matched map (prefix num l)); [contradiction|simpl; lia]).
    split; [split; [intros _; exact Hcov|intros _; lia]|].
    split; [intros _; exact Hpre|]. split; [exact Hm|].
    intros Hn. contradiction.
  - assert (Hncov : ~ covered map (prefix num l)).
    { intros Hc. apply coveredb_covered in Hc. congruence. }
    split; [split; [intros Hne; exfalso; apply Hne; reflexivity
                   |intros Hc; contradiction]|].
    split; [intros Hc; contradiction|]. split; [exact Hm|].
    intros _. reflexivity.
Qed.

(** C3. The priority table is, in order: one pattern of width 6 that names
    all six slots, three of width 4, two of width 3 that name the three
    channels of controller 0 and of controller 1, three of width 2 that pair
    the two controllers on channel 0, 1 and 2, six more of width 2, six of
    width 1, then the sentinel zero, which occurs nowhere else. On a list of
    DIMMs [FindBestInterleavingForDimms] returns the DIMMs matched by the
    first entry of the table whose slots are all occupied, and
    [EFI_ABORTED] with no DIMM when there is no such entry. *)
Theorem C3_priority_table_and_scan (l : list DIMM_PTR) (num : Z)
    (out : list DIMM_PTR) :
  0 <= num <= Z.of_nat (length l) ->
  num < 2 ^ 32 ->
  forallb valid_dimm (prefix num l) = true ->
  num <= Z.of_nat (length out) ->
  INTERLEAVE_SETS
  = [0x3F; 0x0F; 0x3C; 0x33; 0x15; 0x2A; 0x03; 0x0C; 0x30;
     0x05; 0x0A; 0x14; 0x28; 0x11; 0x22;
     0x01; 0x02; 0x04; 0x08; 0x10; 0x20] ++ [END_OF_INTERLEAVE_SETS]
  /\ map width INTERLEAVE_SETS
     = [6; 4; 4; 4; 3; 3; 2; 2; 2; 2; 2; 2; 2; 2; 2; 1; 1; 1; 1; 1; 1; 0]
  /\ INTERLEAVE_SETS !! 0%nat
     = Some (pattern_of [DIMM_LOCATION 0 0; DIMM_LOCATION 1 0;
                         DIMM_LOCATION 0 1; DIMM_LOCATION 1 1;
                         DIMM_LOCATION 0 2; DIMM_LOCATION 1 2])
  /\ take 2 (drop 4 INTERLEAVE_SETS)
     = map (fun iMC => pattern_of [DIMM_LOCATION iMC 0; DIMM_LOCATION iMC 1;
                                   DIMM_LOCATION iMC 2]) [0; 1]
  /\ take 3 (drop 6 INTERLEAVE_SETS)
     = map (fun channel => pattern_of [DIMM_LOCATION 0 channel;
                                       DIMM_LOCATION 1 channel]) [0; 1; 2]
  /\ (forall i s, INTERLEAVE_SETS !! i = Some s ->
                  (s = END_OF_INTERLEAVE_SETS <-> i = 21%nat))
  /\ exists rc out' used',
       FindBestInterleavingForDimms (Some l) num (Some out) (Some 0)
       = Done (rc, Some out', Some used')
       /\ (forall pre s post,
             INTERLEAVE_SETS = pre ++ s :: post ->
             s <> END_OF_INTERLEAVE_SETS ->
             covered s (prefix num l) ->
             (forall t, t ∈ pre -> ~ covered t (prefix num l)) ->
             rc = EFI_SUCCESS
             /\ used' = Z.of_nat (length (matched s (prefix num l)))
             /\ prefix used' out' = matched s (prefix num l))
       /\ ((forall s, s ∈ INTERLEAVE_SETS -> s <> END_OF_INTERLEAVE_SETS ->
                      ~ covered s (prefix num l)) ->
           rc = EFI_ABORTED /\ used' = 0).
Proof.
  intros Hnum H32 Hvalid Hcap.
  do 5 (split; [reflexivity|]).
  split.
  { intros i s. unfold INTERLEAVE_SETS, END_OF_INTERLEAVE_SETS.
    do 22 (destruct i as [|i];
           [simpl; intros [= <-]; split; [try discriminate; reflexivity
                                         |try discriminate; reflexivity]|]).
    discriminate. }
  destruct (FindBest_body_spec l num out Hnum H32 Hvalid Hcap)
    as (rc & out' & used' & Index' & Heq & _ & _ & Hsel).
  unfold FindBestInterleavingForDimms. rewrite Heq. cbn [bind].
  exists rc, out', used'. split; [reflexivity|]. split.
  - intros pre s post Htable Hs Hcov Hpre.
    rewrite Htable, (select_first pre s post) in Hsel;
      [|exact (sentinel_last pre s post Htable Hs)|assumption..].
    tauto.
  - intros Hnone. rewrite select_None in Hsel by exact Hnone. exact Hsel.
Qed.


(** C5, amended. When the function returns [EFI_SUCCESS] for a non-empty
    input and a size other than zero, and no product of the requested size
    by a group's DIMM count reaches 2^64, each group is allocated the
    requested size times its DIMM count divided by [DimmsNum], rounded
    down; the allocated shares add up to at most the requested size, and
    fall short of it by at most the number of groups less one. *)
Theorem C5_proportional_shares tmpl dimms DimmsNum InterleaveSetSize prefs
    SequenceIndex goals num isi w fuel out :
  Precondition dimms DimmsNum goals num ->
  0 < DimmsNum ->
  0 < InterleaveSetSize ->
  call tmpl dimms DimmsNum InterleaveSetSize prefs SequenceIndex goals num
       isi w fuel = Done (EFI_SUCCESS, out) ->
  (forall r, r ∈ out_Requests out ->
             InterleaveSetSize * req_DimmsNum r < 2 ^ 64) ->
  Forall (fun r => req_Size r = InterleaveSetSize * req_DimmsNum r / DimmsNum)
         (out_Requests out)
  /\ Zsum (map req_Size (out_Requests out)) <= InterleaveSetSize
  /\ InterleaveSetSize - Zsum (map req_Size (out_Requests out))
     <= Z.of_nat (length (out_Requests out)) - 1.
Proof.
  intros Hpre Hpos Hsize Hrun Hfit.
  destruct (call_final _ _ _ _ _ _ _ _ _ _ _ _ _ Hpre
              (Z.neq_sym _ _ (Z.lt_neq _ _ Hsize)) Hrun)
    as (st' & -> & Hfinal).
  destruct (Final_success _ _ _ _ _ _ _ _ _ (init_Inv _ _ _ _ _ _ _ Hpre) Hfinal)
    as (HInv & Hrem).
  cbn [output_of out_Requests] in *.
  pose proof (inv_requests st' HInv) as Hreqs.
  pose proof (inv_sum st' HInv) as Hsum.
  pose proof (inv_total st' HInv) as Htotal.
  assert (Hexact : Forall (fun r => req_Size r
                     = InterleaveSetSize * req_DimmsNum r / DimmsNum)
                     (Requests st')).
  { rewrite Forall_forall in *. intros r Hr.
    destruct (Hreqs r Hr) as (Hk & _ & ->).
    unfold share. rewrite wrap64_small; [reflexivity|].
    specialize (Hfit r Hr). nia. }
  split; [exact Hexact|].
  assert (Hmap : map req_Size (Requests st')
                 = map (fun k => InterleaveSetSize * k / DimmsNum)
                       (map req_DimmsNum (Requests st'))).
  { rewrite map_map. apply Forall_fmap_ext_1. exact Hexact. }
  assert (Hks : Forall (fun k => 0 < k) (map req_DimmsNum (Requests st'))).
  { apply Forall_fmap. eapply Forall_impl; [exact Hreqs|].
    intros r (Hk & _). exact (proj1 Hk). }
  destruct (proportional_shares InterleaveSetSize DimmsNum
              (map req_DimmsNum (Requests st')))
    as [Hlow Hhigh]; [lia|lia|exact Hks|].
  rewrite <- Hmap, length_map in *.
  assert (Hgroups : (0 < length (Requests st'))%nat).
  { destruct (Requests st'); [simpl in Hsum; lia|simpl; lia]. }
  rewrite Hsum in *. split; nia.
Qed.

(** C6. Whatever the input within the capacity of the local arrays, the
    running total [TotalDimmsUsed] stays within [DimmsNum] in every state of
    the loop and at every exit of its body, no exit carries
    [EFI_BAD_BUFFER_SIZE], and the function never returns it. The absence
    of duplicates in the input is assumed as the claim does; the proof does
    not use it. *)
Theorem C6_total_within_input_count tmpl dimms DimmsNum InterleaveSetSize
    prefs SequenceIndex goals num isi w :
  Precondition dimms DimmsNum goals num ->
  NoDup (prefix DimmsNum dimms) ->
  let st0 := init_state dimms DimmsNum goals num isi w in
  (forall st,
     reachable tmpl DimmsNum InterleaveSetSize prefs SequenceIndex st0 st ->
     0 <= TotalDimmsUsed st <= DimmsNum
     /\ (RemainingDimms st > 0 ->
         exists f,
           Perform_body tmpl DimmsNum InterleaveSetSize prefs SequenceIndex st
           = Done f
           /\ match f with
              | Continue st' => 0 <= TotalDimmsUsed st' <= DimmsNum
              | Finish rc st' =>
                  rc <> EFI_BAD_BUFFER_SIZE
                  /\ 0 <= TotalDimmsUsed st' <= DimmsNum
              end))
  /\ (forall fuel rc out,
        call tmpl dimms DimmsNum InterleaveSetSize prefs SequenceIndex goals
             num isi w fuel = Done (rc, out) ->
        rc <> EFI_BAD_BUFFER_SIZE).
Proof.
  intros Hpre _ st0.
  pose proof (init_Inv dimms DimmsNum InterleaveSetSize goals num isi w Hpre)
    as H0.
  assert (Hbound : forall st,
            Inv DimmsNum InterleaveSetSize (prefix DimmsNum dimms) num st ->
            0 <= TotalDimmsUsed st <= DimmsNum).
  { intros st HInv. pose proof (inv_total st HInv).
    pose proof (inv_total_pos st HInv). pose proof (inv_rem st HInv). lia. }
  split.
  - intros st Hreach.
    pose proof (reachable_Inv _ _ _ _ _ _ _ _ _ H0 Hreach) as HInv.
    split; [exact (Hbound st HInv)|].
    intros Hpos.
    destruct (body_spec tmpl DimmsNum InterleaveSetSize prefs SequenceIndex
                (prefix DimmsNum dimms) num st HInv Hpos) as (f & Hf & Hpost).
    exists f. split; [exact Hf|].
    destruct f as [st'|rc st'].
    + destruct Hpost as (HInv' & _). exact (Hbound st' HInv').
    + split; [|exact (exit_total _ _ _ Hpost)].
      destruct (exit_rc _ _ _ Hpost) as [-> | ->]; discriminate.
  - intros fuel rc out Hrun.
    destruct (Z.eq_dec InterleaveSetSize 0) as [Hzero|Hsize].
    + unfold call, PerformInterleavingAndCreateGoal in Hrun.
      rewrite Hzero in Hrun. cbn [Z.eqb] in Hrun.
      injection Hrun as <- _. discriminate.
    + destruct (call_final _ _ _ _ _ _ _ _ _ _ _ _ _ Hpre Hsize Hrun)
        as (st' & _ & Hfinal).
      exact (proj1 (proj2 (Final_total _ _ _ _ _ _ _ _ _ _ H0 Hfinal))).
Qed.

(** C7. With every pointer argument non-null and a requested size of zero,
    the function returns [EFI_SUCCESS] whatever the DIMM list, the count and
    the fuel: [CreateRegionGoal] is not called, and the caller's goal array,
    goal count and interleave-set index are what they were. *)
Theorem C7_zero_size_is_a_successful_noop fuel tmpl dimms DimmsNum prefs
    SequenceIndex goals num isi w :
  PerformInterleavingAndCreateGoal fuel (Some tmpl) (Some dimms) DimmsNum 0
    prefs SequenceIndex (Some goals) (Some num) (Some isi) w
  = Done (EFI_SUCCESS,
          {| out_RegionGoal := Some goals;
             out_NewRegionsGoalNum := Some num;
             out_InterleaveSetIndex := Some isi;
             out_world := w;
             out_Requests := [] |}).
Proof. reflexivity. Qed.

(** C8. Removing a DIMM that is not among the first [*pDimmsListNum] entries
    of the working list returns [EFI_SUCCESS] and leaves the array and the
    count as they were. With a null list, a null count or a null DIMM,
    [RemoveDimmFromList] returns [EFI_INVALID_PARAMETER] and writes nothing;
    so does [RemoveDimmArrayFromList] with a null list, a null array or a
    null count. *)
Theorem C8_remove_absent_or_null (l : list DIMM_PTR) (num : Z) (p : DIMM_PTR) :
  0 <= num <= Z.of_nat (length l) ->
  p <> NULL ->
  p ∉ prefix num l ->
  RemoveDimmFromList (Some l) (Some num) p = Done (EFI_SUCCESS, Some l, Some num)
  /\ (forall pNum q,
        RemoveDimmFromList None pNum q
        = Done (EFI_INVALID_PARAMETER, None, pNum))
  /\ (forall pList q,
        RemoveDimmFromList pList None q
        = Done (EFI_INVALID_PARAMETER, pList, None))
  /\ (forall pList pNum,
        RemoveDimmFromList pList pNum NULL
        = Done (EFI_INVALID_PARAMETER, pList, pNum))
  /\ (forall pNum pArray n,
        RemoveDimmArrayFromList None pNum pArray n
        = Done (EFI_INVALID_PARAMETER, None, pNum))
  /\ (forall pList pNum n,
        RemoveDimmArrayFromList pList pNum None n
        = Done (EFI_INVALID_PARAMETER, pList, pNum))
  /\ (forall pList pArray n,
        RemoveDimmArrayFromList pList None pArray n
        = Done (EFI_INVALID_PARAMETER, pList, None)).
Proof.
  intros Hnum Hp Hnotin. repeat apply conj.
  - unfold RemoveDimmFromList.
    rewrite RemoveDimmFromList_body_absent by assumption. reflexivity.
  - intros pNum q. reflexivity.
  - intros pList q. destruct pList; reflexivity.
  - intros pList pNum. destruct pList, pNum; reflexivity.
  - intros pNum pArray n. reflexivity.
  - intros pList pNum n. destruct pList; reflexivity.
  - intros pList pArray n. destruct pList, pArray; reflexivity.
Qed.



(** * Further properties *)

(** ** List maintenance *)

(** The shift loop in full: what follows the shifted entries is what was
    there, the entry at the last shifted place included. *)
Lemma RemoveDimm_shift_exact (n : nat) :
  forall (pre : list DIMM_PTR) (x : DIMM_PTR) (ys : list DIMM_PTR),
  (n <= length ys)%nat ->
  RemoveDimm_shift n (pre ++ x :: ys) (Z.of_nat (length pre))
  = Done (pre ++ take n ys ++ drop n (x :: ys)).
Proof.
  induction n as [|n IH]; intros pre x ys Hn; [reflexivity|].
  destruct ys as [|y ys]; [simpl in Hn; lia|].
  cbn [RemoveDimm_shift].
  assert (Hget : array_get (pre ++ x :: y :: ys) (Z.of_nat (length pre) + 1)
                 = Done y).
  { replace (pre ++ x :: y :: ys) with ((pre ++ [x]) ++ y :: ys)
      by (rewrite <- app_assoc; reflexivity).
    replace (Z.of_nat (length pre) + 1) with (Z.of_nat (length (pre ++ [x])))
      by (rewrite length_app; simpl; lia).
    apply array_get_middle. }
  rewrite Hget. cbn [bind]. rewrite array_set_middle. cbn [bind].
  replace (Z.of_nat (length pre) + 1) with (Z.of_nat (length (pre ++ [y])))
    by (rewrite length_app; simpl; lia).
  replace (pre ++ y :: y :: ys) with ((pre ++ [y]) ++ y :: ys)
    by (rewrite <- app_assoc; reflexivity).
  rewrite IH by (simpl in Hn; lia).
  rewrite <- app_assoc. reflexivity.
Qed.

(** X1. Removing a DIMM that is among the first [*pDimmsListNum] entries of
    the array succeeds, takes its first occurrence out of these entries and
    keeps the others in their order, and drops the count by one. The array
    keeps its length, and from the new count on it holds what it held
    before: the place just after the new count still holds the old last
    DIMM. *)
Theorem X1_remove_present_compacts (l : list DIMM_PTR) (num : Z) (p : DIMM_PTR) :
  0 <= num <= Z.of_nat (length l) ->
  num < 2 ^ 32 ->
  p <> NULL ->
  p ∈ prefix num l ->
  exists l',
    RemoveDimmFromList (Some l) (Some num) p
    = Done (EFI_SUCCESS, Some l', Some (num - 1))
    /\ length l' = length l
    /\ prefix (num - 1) l' = remove_first p (prefix num l)
    /\ drop (Z.to_nat (num - 1)) l' = drop (Z.to_nat (num - 1)) l.
Proof.
  intros Hnum H32 Hp Hin.
  unfold RemoveDimmFromList, RemoveDimmFromList_body.
  destruct (N.eqb_spec p NULL); [contradiction|].
  destruct (prefix_split num l Hnum) as [Hl Hlen].
  destruct (first_occurrence p _ Hin) as (pre & post & Hpre & Hnotin).
  rewrite Hpre in Hl, Hlen. rewrite length_app in Hlen. simpl in Hlen.
  set (rest := drop (Z.to_nat num) l) in *.
  pose proof (RemoveDimm_search_found p pre [] post rest Hnotin) as Hs.
  cbn [app length Nat.add] in Hs. change (Z.of_nat 0) with 0 in Hs.
  rewrite <- Hl in Hs. rewrite length_app in Hs. cbn [length] in Hs.
  replace (Z.to_nat num) with (length pre + S (length post))%nat by lia.
  rewrite Hs. cbn [bind].
  rewrite (wrap32_small (num - 1)) by lia.
  assert (Hl' : l = pre ++ p :: post ++ rest).
  { rewrite Hl at 1. rewrite <- app_assoc. reflexivity. }
  pose proof (RemoveDimm_shift_exact (length post) pre p (post ++ rest)) as Hsh.
  rewrite take_app_length, <- Hl' in Hsh.
  replace (Z.to_nat (num - 1 - Z.of_nat (length pre))) with (length post)
    by lia.
  rewrite Hsh by (rewrite length_app; lia). cbn [bind].
  eexists. split; [reflexivity|].
  assert (Hcut : Z.to_nat (num - 1) = (length pre + length post)%nat) by lia.
  split; [|split].
  - rewrite Hl'. rewrite !length_app, length_drop. simpl.
    rewrite !length_app. lia.
  - rewrite Hpre, remove_first_middle by exact Hnotin.
    unfold prefix. rewrite app_assoc.
    apply take_app_length'. rewrite length_app. lia.
  - rewrite Hcut, app_assoc.
    rewrite drop_app_length' by (rewrite length_app; reflexivity).
    rewrite Hl'. rewrite drop_app_ge by lia.
    f_equal. lia.
Qed.

(** The removal loop on any array: a null entry makes the call of
    [RemoveDimmFromList] fail, the failure is dropped and the loop goes on. *)
Lemma RemoveDimmArray_loop_general (m : list DIMM_PTR) :
  forall (seen rest l : list DIMM_PTR) (num : Z),
  0 <= num <= Z.of_nat (length l) ->
  num < 2 ^ 32 ->
  exists l' num',
    RemoveDimmArray_loop (length m) l num (seen ++ m ++ rest)
                         (Z.of_nat (length seen)) = Done (l', num')
    /\ length l' = length l
    /\ 0 <= num' <= num
    /\ prefix num' l' = remove_all (non_null m) (prefix num l).
Proof.
  induction m as [|p m IH]; intros seen rest l num Hnum H32.
  - exists l, num. simpl. repeat split; lia.
  - cbn [length RemoveDimmArray_loop app].
    rewrite array_get_middle. cbn [bind].
    replace (Z.of_nat (length seen) + 1) with (Z.of_nat (length (seen ++ [p])))
      by (rewrite length_app; simpl; lia).
    replace (seen ++ p :: m ++ rest) with ((seen ++ [p]) ++ m ++ rest)
      by (rewrite <- app_assoc; reflexivity).
    unfold non_null. cbn [List.filter].
    destruct (N.eqb_spec p NULL) as [->|Hp]; cbn [negb].
    + unfold RemoveDimmFromList_body. rewrite N.eqb_refl. cbn [bind].
      exact (IH (seen ++ [NULL]) rest l num Hnum H32).
    + destruct (RemoveDimmFromList_body_spec l num p Hnum H32 Hp)
        as (l1 & num1 & Heq1 & Hlen1 & Hnum1 & Hpre1).
      rewrite Heq1. cbn [bind].
      destruct (IH (seen ++ [p]) rest l1 num1)
        as (l2 & num2 & Heq2 & Hlen2 & Hnum2 & Hpre2); [lia|lia|].
      exists l2, num2. rewrite Heq2. repeat split; try lia.
      rewrite Hpre2, Hpre1. reflexivity.
Qed.

(** X2. With its three pointers non-null, [RemoveDimmArrayFromList] returns
    [EFI_SUCCESS] whatever the array holds: each entry that is not null has
    its first occurrence taken out of the working list, in the order of the
    array; an entry that is null or absent from the list changes nothing,
    and the failure of that removal is not reported. The count never
    grows. *)
Theorem X2_remove_array_drops_failures (l : list DIMM_PTR) (num : Z)
    (arr : list DIMM_PTR) (n : Z) :
  0 <= num <= Z.of_nat (length l) ->
  num < 2 ^ 32 ->
  0 <= n <= Z.of_nat (length arr) ->
  exists l' num',
    RemoveDimmArrayFromList (Some l) (Some num) (Some arr) n
    = Done (EFI_SUCCESS, Some l', Some num')
    /\ length l' = length l
    /\ 0 <= num' <= num
    /\ prefix num' l' = remove_all (non_null (prefix n arr)) (prefix num l).
Proof.
  intros Hnum H32 Hn.
  destruct (prefix_split n arr Hn) as [Harr Hlen].
  destruct (RemoveDimmArray_loop_general (prefix n arr) []
              (drop (Z.to_nat n) arr) l num Hnum H32)
    as (l' & num' & Heq & Hrest).
  cbn [app length] in Heq. change (Z.of_nat 0) with 0 in Heq.
  rewrite <- Harr in Heq.
  replace (length (prefix n arr)) with (Z.to_nat n) in Heq by lia.
  unfold RemoveDimmArrayFromList. rewrite Heq. cbn [bind].
  exists l', num'. split; [reflexivity|exact Hrest].
Qed.

(** X3. Matching a covered pattern and then removing the matched DIMMs, as
    the loop of [PerformInterleavingAndCreateGoal] does, splits the working
    list in two: the output array holds the DIMMs the pattern names and the
    working list keeps the others, both in the order of the list. *)
Theorem X3_match_then_remove_splits (l : list DIMM_PTR) (num map : Z)
    (out : list DIMM_PTR) :
  is_UINT32 map ->
  0 <= num <= Z.of_nat (length l) ->
  num < 2 ^ 32 ->
  forallb valid_dimm (prefix num l) = true ->
  num <= Z.of_nat (length out) ->
  covered map (prefix num l) ->
  exists out' used' l',
    GetDimmsFromListMatchingInterleaveSet (Some l) num map (Some out) (Some 0)
    = Done (EFI_SUCCESS, Some out', Some used')
    /\ RemoveDimmArrayFromList (Some l) (Some num) (Some out') used'
       = Done (EFI_SUCCESS, Some l', Some (num - used'))
    /\ prefix used' out' = matched map (prefix num l)
    /\ prefix (num - used') l' = unmatched map (prefix num l)
    /\ length l' = length l.
Proof.
  intros Hmap Hnum H32 Hvalid Hcap Hcov.
  destruct (GetDimms_body_spec l num map out 0 Hmap Hnum Hvalid)
    as (out' & Heq & Hlen & Hpre); [lia|lia|lia|].
  apply coveredb_covered in Hcov. rewrite Hcov in Heq.
  rewrite Z.add_0_l in *. change (prefix 0 out) with (@nil DIMM_PTR) in Hpre.
  simpl in Hpre.
  destruct (RemoveDimmArray_after_select l num out'
              (Z.of_nat (length (matched map (prefix num l)))) map
              Hnum H32 Hvalid eq_refl Hpre)
    as (l' & Hrm & Hlen' & _ & Hpre').
  exists out', (Z.of_nat (length (matched map (prefix num l)))), l'.
  unfold GetDimmsFromListMatchingInterleaveSet, RemoveDimmArrayFromList.
  rewrite Heq, Hrm. cbn [bind]. repeat split; assumption.
Qed.

(** ** Matcher and selector *)

(** X4. Whether the pattern is covered or not, the matcher has written the
    DIMMs the pattern names into the output array from the entry count on,
    in the order of the list; the entries before and after them are what
    they were. When the pattern is not covered only the count is reset: the
    written entries stay in the array. *)
Theorem X4_matcher_writes_before_it_decides (l : list DIMM_PTR) (num map : Z)
    (out : list DIMM_PTR) (used : Z) :
  is_UINT32 map ->
  0 <= num <= Z.of_nat (length l) ->
  forallb valid_dimm (prefix num l) = true ->
  0 <= used ->
  used + num <= Z.of_nat (length out) ->
  used + num < 2 ^ 32 ->
  let m := matched map (prefix num l) in
  exists used',
    GetDimmsFromListMatchingInterleaveSet (Some l) num map (Some out)
                                          (Some used)
    = Done (EFI_SUCCESS,
            Some (prefix used out ++ m
                  ++ drop (Z.to_nat used + length m) out),
            Some used')
    /\ (covered map (prefix num l) -> used' = used + Z.of_nat (length m))
    /\ (~ covered map (prefix num l) -> used' = 0).
Proof.
  intros Hmap Hnum Hvalid Hused Hcap H32 m.
  destruct (prefix_split num l Hnum) as [Hl Hlen].
  destruct (prefix_split used out) as [Hout Hlenout]; [lia|].
  pose proof (GetDimms_loop_spec map Hmap (prefix num l) []
                (drop (Z.to_nat num) l) [] (prefix used out)
                (drop (Z.to_nat used) out) Hvalid) as Hloop.
  cbn [app length] in Hloop. change (Z.of_nat 0) with 0 in Hloop.
  rewrite <- Hl, <- Hout in Hloop.
  rewrite Hlenout in Hloop. change (not_found map []) with map in Hloop.
  unfold GetDimmsFromListMatchingInterleaveSet,
    GetDimmsFromListMatchingInterleaveSet_body.
  replace (Z.to_nat num) with (length (prefix num l)) by lia.
  rewrite Hloop; [|rewrite length_drop; lia|lia].
  cbn [bind]. fold (coveredb map (prefix num l)). fold (matched map (prefix num l)).
  fold m. rewrite drop_drop.
  destruct (coveredb map (prefix num l)) eqn:Hcov; cbn [bind].
  - eexists. split; [reflexivity|]. split.
    + intros _. lia.
    + intros Hn. exfalso. apply Hn, coveredb_covered. exact Hcov.
  - eexists. split; [reflexivity|]. split.
    + intros Hc. apply coveredb_covered in Hc. congruence.
    + intros _. reflexivity.
Qed.

(** X5. Called with a count [*pDimmsUsed] that is not zero, the selector
    tries no entry of the table: it returns [EFI_SUCCESS] and leaves the
    array and the count as they were, whatever the list. *)
Theorem X5_selector_needs_zero_count (l : list DIMM_PTR) (num : Z)
    (out : list DIMM_PTR) (used : Z) :
  used <> 0 ->
  FindBestInterleavingForDimms (Some l) num (Some out) (Some used)
  = Done (EFI_SUCCESS, Some out, Some used).
Proof.
  intros Hused.
  unfold FindBestInterleavingForDimms, FindBestInterleavingForDimms_body.
  rewrite FindBest_loop_used by exact Hused. cbn [bind].
  destruct (Z.eqb_spec used 0); [contradiction|reflexivity].
Qed.

(** ** The whole function at its edges *)

(** X6. On an empty list the selector finds no entry and returns
    [EFI_ABORTED], having written nothing; the function itself, given a
    count of zero, never calls it: whatever the size and the fuel it returns
    [EFI_SUCCESS] without a call of [CreateRegionGoal] and leaves the
    caller's goal array, goal count and index as they were. *)
Theorem X6_empty_input (tmpl : REGION_GOAL_TEMPLATE) (dimms out : list DIMM_PTR)
    (InterleaveSetSize : Z) (prefs : option DRIVER_PREFERENCES)
    (SequenceIndex : Z) (goals : list (option REGION_GOAL)) (num isi : Z)
    (w : World) (fuel : nat) :
  FindBestInterleavingForDimms (Some dimms) 0 (Some out) (Some 0)
  = Done (EFI_ABORTED, Some out, Some 0)
  /\ PerformInterleavingAndCreateGoal fuel (Some tmpl) (Some dimms) 0
       InterleaveSetSize prefs SequenceIndex (Some goals) (Some num)
       (Some isi) w
     = Done (EFI_SUCCESS,
             {| out_RegionGoal := Some goals;
                out_NewRegionsGoalNum := Some num;
                out_InterleaveSetIndex := Some isi;
                out_world := w;
                out_Requests := [] |}).
Proof.
  split; [reflexivity|].
  unfold PerformInterleavingAndCreateGoal.
  destruct (InterleaveSetSize =? 0); [reflexivity|].
  destruct fuel; reflexivity.
Qed.

(** X7. The null checks of the three other functions. With a null list, a
    null output array or a null count the matcher and the selector return
    [EFI_INVALID_PARAMETER] and write nothing. With a null template, goal
    array, goal count, list or index [PerformInterleavingAndCreateGoal]
    returns [EFI_INVALID_PARAMETER] for every size, zero included, and
    calls nothing; null driver preferences are not an error. *)
Theorem X7_null_arguments :
  (forall pOut pUsed num map,
     GetDimmsFromListMatchingInterleaveSet None num map pOut pUsed
     = Done (EFI_INVALID_PARAMETER, pOut, pUsed))
  /\ (forall pList pUsed num map,
        GetDimmsFromListMatchingInterleaveSet pList num map None pUsed
        = Done (EFI_INVALID_PARAMETER, None, pUsed))
  /\ (forall pList pOut num map,
        GetDimmsFromListMatchingInterleaveSet pList num map pOut None
        = Done (EFI_INVALID_PARAMETER, pOut, None))
  /\ (forall pOut pUsed num,
        FindBestInterleavingForDimms None num pOut pUsed
        = Done (EFI_INVALID_PARAMETER, pOut, pUsed))
  /\ (forall pList pUsed num,
        FindBestInterleavingForDimms pList num None pUsed
        = Done (EFI_INVALID_PARAMETER, None, pUsed))
  /\ (forall pList pOut num,
        FindBestInterleavingForDimms pList num pOut None
        = Done (EFI_INVALID_PARAMETER, pOut, None))
  /\ (forall (pTemplate : option REGION_GOAL_TEMPLATE)
             (pList : option (list DIMM_PTR))
             (pGoals : option (list (option REGION_GOAL)))
             (pNum pIndex : option Z)
             fuel DimmsNum size (prefs : option DRIVER_PREFERENCES)
             SequenceIndex (w : World),
        pTemplate = None \/ pGoals = None \/ pNum = None \/ pList = None
        \/ pIndex = None ->
        PerformInterleavingAndCreateGoal fuel pTemplate pList DimmsNum size
          prefs SequenceIndex pGoals pNum pIndex w
        = Done (EFI_INVALID_PARAMETER,
                {| out_RegionGoal := pGoals;
                   out_NewRegionsGoalNum := pNum;
                   out_InterleaveSetIndex := pIndex;
                   out_world := w;
                   out_Requests := [] |})).
Proof.
  repeat apply conj.
  - intros pOut pUsed num map. reflexivity.
  - intros pList pUsed num map. destruct pList; reflexivity.
  - intros pList pOut num map. destruct pList, pOut; reflexivity.
  - intros pOut pUsed num. reflexivity.
  - intros pList pUsed num. destruct pList; reflexivity.
  - intros pList pOut num. destruct pList, pOut; reflexivity.
  - intros pTemplate pList pGoals pNum pIndex fuel DimmsNum size prefs
      SequenceIndex w Hnull.
    destruct pTemplate, pGoals, pNum, pList, pIndex; try reflexivity.
    destruct Hnull as [H | [H | [H | [H | H]]]]; discriminate H.
Qed.

(** ** Where the groups come from *)

Lemma select_Some_inv sets l s :
  select sets l = Some s ->
  s ∈ sets /\ s <> END_OF_INTERLEAVE_SETS /\ covered s l.
Proof.
  induction sets as [|t sets IH]; simpl; [discriminate|].
  destruct (Z.eqb_spec t END_OF_INTERLEAVE_SETS) as [|Ht]; [discriminate|].
  destruct (coveredb t l) eqn:Hcov.
  - intros [= <-]. split; [left|]. split; [exact Ht|].
    apply coveredb_covered. exact Hcov.
  - intros H. destruct (IH H) as (Hin & Hrest). split; [right; exact Hin|].
    exact Hrest.
Qed.

Section Runs.

Variable pRegionGoalTemplate : REGION_GOAL_TEMPLATE.
Variable DimmsNum : Z.
Variable InterleaveSetSize : Z.
Variable pDriverPreferences : option DRIVER_PREFERENCES.
Variable SequenceIndex : Z.
Variable input : list DIMM_PTR.
Variable num0 : Z.

Local Abbreviation body :=
  (Perform_body pRegionGoalTemplate DimmsNum InterleaveSetSize
                pDriverPreferences SequenceIndex).
Local Abbreviation loop :=
  (Perform_loop pRegionGoalTemplate DimmsNum InterleaveSetSize
                pDriverPreferences SequenceIndex).
Local Abbreviation Inv := (Inv DimmsNum InterleaveSetSize input num0).
Local Abbreviation Exit := (Exit DimmsNum InterleaveSetSize).
Local Abbreviation reachable :=
  (reachable pRegionGoalTemplate DimmsNum InterleaveSetSize
             pDriverPreferences SequenceIndex).
Local Abbreviation Final :=
  (Final pRegionGoalTemplate DimmsNum InterleaveSetSize
         pDriverPreferences SequenceIndex).

(** A step of the loop, with what the invariant says of it. *)
Lemma reachable_step_spec st0 st st' :
  Inv st0 -> reachable st0 st -> RemainingDimms st > 0 ->
  body st = Done (Continue st') ->
  Inv st /\ Inv st'
  /\ RemainingDimms st' < RemainingDimms st
  /\ exists s r,
       select INTERLEAVE_SETS (working st) = Some s
       /\ req_group r = matched s (working st)
       /\ working st' = unmatched s (working st)
       /\ Requests st' = Requests st ++ [r].
Proof.
  intros H0 Hreach Hpos Hbody.
  pose proof (reachable_Inv _ _ _ _ _ _ _ _ _ H0 Hreach) as HInv.
  destruct (body_spec pRegionGoalTemplate DimmsNum InterleaveSetSize
              pDriverPreferences SequenceIndex input num0 st HInv Hpos)
    as (f & Hf & Hpost).
  rewrite Hbody in Hf. injection Hf as <-.
  destruct Hpost as (HInv' & Hless & Hsel). auto.
Qed.

Lemma working_length st :
  Inv st -> Z.of_nat (length (working st)) = RemainingDimms st.
Proof.
  intros HInv. pose proof (inv_copy st HInv). pose proof (inv_rem st HInv).
  unfold working, prefix. rewrite length_take. lia.
Qed.

Lemma reachable_selected st0 st :
  Inv st0 ->
  Forall (selected_from input) (Requests st0) ->
  reachable st0 st ->
  Forall (selected_from input) (Requests st).
Proof.
  intros H0 Hreqs0 Hreach.
  induction Hreach as [|st st' Hreach IH Hpos Hbody]; [exact Hreqs0|].
  destruct (reachable_step_spec st0 st st' H0 Hreach Hpos Hbody)
    as (HInv & _ & _ & s & r & Hsel & Hgroup & _ & ->).
  apply Forall_app. split; [exact IH|].
  constructor; [|constructor].
  exists s, (working st), (concat (map req_group (Requests st))).
  split; [exact Hsel|]. split; [exact Hgroup|].
  exact (inv_partition st HInv).
Qed.

Lemma Final_selected st0 rc st' :
  Inv st0 ->
  Forall (selected_from input) (Requests st0) ->
  Final st0 rc st' ->
  Forall (selected_from input) (Requests st').
Proof.
  intros H0 Hreqs0 [(_ & Hreach & _)|(st & Hreach & Hpos & _ & HExit)].
  - exact (reachable_selected st0 st' H0 Hreqs0 Hreach).
  - pose proof (reachable_selected st0 st H0 Hreqs0 Hreach) as Hreqs.
    pose proof (reachable_Inv _ _ _ _ _ _ _ _ _ H0 Hreach) as HInv.
    destruct (exit_rc _ _ _ HExit) as [-> | ->].
    + destruct (exit_aborted _ _ _ HExit eq_refl) as (_ & -> & _).
      exact Hreqs.
    + destruct (exit_resources _ _ _ HExit eq_refl)
        as (s & r & Hsel & Hgroup & ->).
      apply Forall_app. split; [exact Hreqs|].
      constructor; [|constructor].
      exists s, (working st), (concat (map req_group (Requests st))).
      split; [exact Hsel|]. split; [exact Hgroup|].
      exact (inv_partition st HInv).
Qed.

Lemma select_nil : select INTERLEAVE_SETS [] = None.
Proof. reflexivity. Qed.

Lemma greedy_groups_nil n : greedy_groups n [] = [].
Proof. destruct n; reflexivity. Qed.

(** The groups a run of the loop adds are the first of the groups of
    [greedy_groups] on its working list: all of them, unless the goal
    constructor failed. *)
Lemma loop_groups (fuel : nat) :
  forall st rc st' n,
  Inv st ->
  loop fuel st = Done (rc, st') ->
  RemainingDimms st <= Z.of_nat n ->
  exists more,
    map req_group (Requests st) ++ greedy_groups n (working st)
    = map req_group (Requests st') ++ more
    /\ (rc <> EFI_OUT_OF_RESOURCES -> more = []).
Proof.
  induction fuel as [|fuel IH]; intros st rc st' n HInv Hrun Hn;
    cbn [Perform_loop] in Hrun;
    pose proof (working_length st HInv) as Hlen;
    destruct (Z.gtb_spec (RemainingDimms st) 0) as [Hpos|Hzero];
    try discriminate.
  - injection Hrun as <- <-. exists [].
    destruct (working st); [|simpl in Hlen; lia].
    rewrite greedy_groups_nil. auto.
  - destruct (body_spec pRegionGoalTemplate DimmsNum InterleaveSetSize
                pDriverPreferences SequenceIndex input num0 st HInv)
      as (f & Hf & Hpost); [lia|].
    rewrite Hf in Hrun. cbn [bind] in Hrun.
    destruct n as [|n]; [lia|]. cbn [greedy_groups].
    destruct f as [st1|rc1 st1].
    + destruct Hpost as (HInv1 & Hless & s & r & Hsel & Hgroup & Hwork & Hreqs).
      destruct (IH st1 rc st' n HInv1 Hrun) as (more & Heq & Hmore); [lia|].
      exists more. split; [|exact Hmore].
      rewrite Hsel, <- Heq, Hreqs, Hwork, map_app. cbn [map].
      rewrite Hgroup, <- app_assoc. reflexivity.
    + injection Hrun as <- <-.
      destruct (exit_rc _ _ _ Hpost) as [-> | ->].
      * destruct (exit_aborted _ _ _ Hpost eq_refl) as (Hsel & -> & _).
        rewrite Hsel. exists []. auto.
      * destruct (exit_resources _ _ _ Hpost eq_refl)
          as (s & r & Hsel & Hgroup & ->).
        rewrite Hsel. exists (greedy_groups n (unmatched s (working st))).
        split; [|intros H; contradiction].
        rewrite map_app. cbn [map]. rewrite Hgroup, <- app_assoc.
        reflexivity.
  - injection Hrun as <- <-. exists [].
    destruct (working st); [|simpl in Hlen; lia].
    rewrite greedy_groups_nil. auto.
Qed.

End Runs.

(** Every request of a call comes from a selection in a part of the
    input. *)
Lemma call_selected tmpl dimms DimmsNum InterleaveSetSize prefs
    SequenceIndex goals num isi w fuel rc out :
  Precondition dimms DimmsNum goals num ->
  call tmpl dimms DimmsNum InterleaveSetSize prefs SequenceIndex goals num
       isi w fuel = Done (rc, out) ->
  Forall (selected_from (prefix DimmsNum dimms)) (out_Requests out).
Proof.
  intros Hpre Hrun.
  destruct (Z.eq_dec InterleaveSetSize 0) as [Hzero|Hsize].
  { unfold call, PerformInterleavingAndCreateGoal in Hrun.
    rewrite Hzero in Hrun. cbn [Z.eqb] in Hrun.
    injection Hrun as _ <-. constructor. }
  destruct (call_final _ _ _ _ _ _ _ _ _ _ _ _ _ Hpre Hsize Hrun)
    as (st' & -> & Hfinal).
  cbn [output_of out_Requests].
  apply (Final_selected tmpl DimmsNum InterleaveSetSize prefs SequenceIndex
           (prefix DimmsNum dimms) num _ rc st'
           (init_Inv dimms DimmsNum InterleaveSetSize goals num isi w Hpre));
    [constructor|exact Hfinal].
Qed.

(** The bitmap of a list has a bit for each slot of a DIMM of the list. *)
Lemma population_testbit l i :
  0 <= i -> Z.testbit (population l) i = occupied l i.
Proof.
  intros Hi. unfold population, occupied.
  assert (Hgen : forall a,
            Z.testbit (fold_left (fun m p => Z.lor m (Z.shiftl 1 (slot_of p)))
                                 l a) i
            = Z.testbit a i || existsb (fun p => slot_of p =? i) l).
  { induction l as [|p l IH]; intros a; simpl.
    - rewrite orb_false_r. reflexivity.
    - rewrite IH, Z.lor_spec, Z.shiftl_1_l, Z.pow2_bits_eqb
        by apply slot_of_nonneg.
      rewrite orb_assoc. reflexivity. }
  rewrite Hgen, Z.bits_0. reflexivity.
Qed.

(** The DIMMs matched by a covered pattern occupy the slots of the pattern
    and no other. *)
Lemma population_matched s w :
  covered s w -> population (matched s w) = s.
Proof.
  intros Hcov. apply Z.bits_inj'. intros i Hi.
  rewrite population_testbit by exact Hi. unfold occupied.
  destruct (Z.testbit s i) eqn:Hs.
  - destruct (Hcov i Hs) as (p & Hp & Hslot).
    apply existsb_exists. exists p. split.
    + apply List.filter_In. split; [apply list_elem_of_In; exact Hp|].
      unfold named. rewrite Hslot. exact Hs.
    + apply Z.eqb_eq. exact Hslot.
  - apply not_true_iff_false. intros Hex.
    apply existsb_exists in Hex as (p & Hp & Hslot).
    apply List.filter_In in Hp as [_ Hnamed].
    apply Z.eqb_eq in Hslot. unfold named in Hnamed. congruence.
Qed.

(** X8. Every group handed to [CreateRegionGoal], in a run that succeeds or
    in one that fails, is a legal interleave set: the slots its DIMMs occupy
    are exactly the slots of one entry of the priority table, the sentinel
    excluded. *)
Theorem X8_every_group_is_a_table_entry tmpl dimms DimmsNum InterleaveSetSize
    prefs SequenceIndex goals num isi w fuel rc out :
  Precondition dimms DimmsNum goals num ->
  call tmpl dimms DimmsNum InterleaveSetSize prefs SequenceIndex goals num
       isi w fuel = Done (rc, out) ->
  Forall (fun r =>
            population (req_group r) ∈ INTERLEAVE_SETS
            /\ population (req_group r) <> END_OF_INTERLEAVE_SETS)
         (out_Requests out).
Proof.
  intros Hpre Hrun.
  eapply Forall_impl; [exact (call_selected _ _ _ _ _ _ _ _ _ _ _ _ _ Hpre Hrun)|].
  intros r (s & w' & before & Hsel & Hgroup & _).
  destruct (select_Some_inv _ _ _ Hsel) as (Hin & Hs & Hcov).
  rewrite Hgroup, population_matched by exact Hcov. split; assumption.
Qed.

(** ** The sequence of groups *)

Lemma call_groups tmpl dimms DimmsNum InterleaveSetSize prefs
    SequenceIndex goals num isi w fuel rc out :
  Precondition dimms DimmsNum goals num ->
  InterleaveSetSize <> 0 ->
  call tmpl dimms DimmsNum InterleaveSetSize prefs SequenceIndex goals num
       isi w fuel = Done (rc, out) ->
  exists more,
    greedy_groups (Z.to_nat DimmsNum) (prefix DimmsNum dimms)
    = map req_group (out_Requests out) ++ more
    /\ (rc <> EFI_OUT_OF_RESOURCES -> more = []).
Proof.
  intros Hpre Hsize Hrun. rewrite call_nonzero in Hrun by assumption.
  destruct (Perform_loop tmpl DimmsNum InterleaveSetSize prefs SequenceIndex
              fuel (init_state dimms DimmsNum goals num isi w))
    as [[rc' st']| |] eqn:Hloop; try discriminate.
  cbn [bind] in Hrun. injection Hrun as <- <-.
  pose proof (pre_num _ _ _ _ Hpre) as [Hnum _].
  destruct (loop_groups tmpl DimmsNum InterleaveSetSize prefs SequenceIndex
              (prefix DimmsNum dimms) num fuel _ _ _ (Z.to_nat DimmsNum)
              (init_Inv dimms DimmsNum InterleaveSetSize goals num isi w Hpre)
              Hloop) as (more & Heq & Hmore).
  { cbn [init_state RemainingDimms]. lia. }
  rewrite working_init in Heq by exact Hpre.
  exists more. split; [exact Heq|exact Hmore].
Qed.


Lemma filter_length_lt {A : Type} (f g : A -> bool) (L : list A) (x : A) :
  (forall y, f y = true -> g y = true) ->
  In x L -> g x = true -> f x = false ->
  (length (List.filter f L) < length (List.filter g L))%nat.
Proof.
  intros Hfg Hx Hgx Hfx. induction L as [|y L IH]; [destruct Hx|].
  assert (Hle : (length (List.filter f L) <= length (List.filter g L))%nat).
  { clear IH Hx. induction L as [|z L IHL]; simpl; [lia|].
    destruct (f z) eqn:Hfz; [rewrite (Hfg z Hfz); simpl; lia|].
    destruct (g z); simpl; lia. }
  simpl. destruct Hx as [->|Hx].
  - rewrite Hfx, Hgx. simpl. lia.
  - specialize (IH Hx). destruct (f y) eqn:Hfy; [rewrite (Hfg y Hfy); simpl; lia|].
    destruct (g y); simpl; lia.
Qed.

Lemma table_range s : s ∈ INTERLEAVE_SETS -> 0 <= s < 64.
Proof.
  intros Hs. unfold INTERLEAVE_SETS, END_OF_INTERLEAVE_SETS in Hs.
  repeat (apply elem_of_cons in Hs as [->|Hs]; [lia|]).
  apply elem_of_nil in Hs. contradiction.
Qed.

(** A selection frees at least one of the six slots. *)
Lemma occupied_slots_unmatched s l :
  select INTERLEAVE_SETS l = Some s ->
  (length (occupied_slots (unmatched s l)) < length (occupied_slots l))%nat.
Proof.
  intros Hsel. destruct (select_Some_inv _ _ _ Hsel) as (Hin & Hs & Hcov).
  pose proof (table_range s Hin) as Hrange.
  unfold END_OF_INTERLEAVE_SETS in Hs.
  assert (Hpos : 0 < s) by lia.
  pose proof (Z.bit_log2 s Hpos) as Hbit.
  assert (Hlog : 0 <= Z.log2 s < 6).
  { split; [apply Z.log2_nonneg|].
    apply Z.log2_lt_pow2; [exact Hpos|]. change (2 ^ 6) with 64. lia. }
  unfold occupied_slots.
  apply (filter_length_lt _ _ _ (Z.log2 s)).
  - intros i Hi. unfold occupied in *.
    apply existsb_exists in Hi as (p & Hp & Hslot).
    apply existsb_exists. exists p. split; [|exact Hslot].
    apply List.filter_In in Hp as [Hp _]. exact Hp.
  - apply list_elem_of_In, elem_of_seqZ. lia.
  - destruct (Hcov _ Hbit) as (p & Hp & Hslot).
    apply existsb_exists. exists p. split.
    + apply list_elem_of_In. exact Hp.
    + apply Z.eqb_eq. exact Hslot.
  - apply not_true_iff_false. intros Hex.
    apply existsb_exists in Hex as (p & Hp & Hslot).
    apply List.filter_In in Hp as [_ Hnamed].
    apply Z.eqb_eq in Hslot. unfold named in Hnamed.
    rewrite Hslot, Hbit in Hnamed. discriminate.
Qed.

Lemma greedy_groups_length n :
  forall l, (length (greedy_groups n l) <= length (occupied_slots l))%nat.
Proof.
  induction n as [|n IH]; intros l; cbn [greedy_groups length]; [lia|].
  destruct (select INTERLEAVE_SETS l) as [s|] eqn:Hsel;
    cbn [length]; [|lia].
  pose proof (occupied_slots_unmatched s l Hsel).
  specialize (IH (unmatched s l)). lia.
Qed.

Lemma occupied_slots_length l : (length (occupied_slots l) <= 6)%nat.
Proof.
  unfold occupied_slots.
  pose proof (List.filter_length_le (occupied l) (seqZ 0 6)) as H.
  rewrite length_seqZ in H. lia.
Qed.

(** ** What is left when a run ends *)

Section Accounts.

Variable pRegionGoalTemplate : REGION_GOAL_TEMPLATE.
Variable DimmsNum : Z.
Variable InterleaveSetSize : Z.
Variable pDriverPreferences : option DRIVER_PREFERENCES.
Variable SequenceIndex : Z.
Variable input : list DIMM_PTR.
Variable num0 : Z.

Local Abbreviation Inv := (Inv DimmsNum InterleaveSetSize input num0).
Local Abbreviation Final :=
  (Final pRegionGoalTemplate DimmsNum InterleaveSetSize
         pDriverPreferences SequenceIndex).

(** The goal count, the DIMMs used and the DIMMs left at the end of a run,
    whatever its status. *)
Lemma Final_accounts st0 rc st' :
  Inv st0 ->
  Final st0 rc st' ->
  NewRegionsGoalNum st'
  = num0 + Z.of_nat (length (Requests st'))
    - match rc with EFI_OUT_OF_RESOURCES => 1 | _ => 0 end
  /\ Zsum (map req_DimmsNum (Requests st')) <= DimmsNum
  /\ Forall (good_request DimmsNum InterleaveSetSize) (Requests st')
  /\ exists rest,
       concat (map req_group (Requests st')) ++ rest ≡ₚ input
       /\ (rc = EFI_SUCCESS -> rest = [])
       /\ (rc = EFI_ABORTED ->
           rest <> [] /\ select INTERLEAVE_SETS rest = None).
Proof.
  intros H0 [(-> & Hreach & Hrem)|(st & Hreach & Hpos & _ & HExit)].
  - pose proof (reachable_Inv _ _ _ _ _ _ _ _ _ H0 Hreach) as HInv.
    pose proof (inv_total st' HInv). pose proof (inv_total_pos st' HInv).
    pose proof (working_length _ _ _ _ st' HInv) as Hlen.
    split; [rewrite (inv_count st' HInv); lia|].
    split; [rewrite (inv_sum st' HInv); lia|].
    split; [exact (inv_requests st' HInv)|].
    exists (working st'). split; [exact (inv_partition st' HInv)|].
    split; [|discriminate].
    intros _. destruct (working st'); [reflexivity|simpl in Hlen; lia].
  - pose proof (reachable_Inv _ _ _ _ _ _ _ _ _ H0 Hreach) as HInv.
    pose proof (inv_total st HInv). pose proof (inv_total_pos st HInv).
    pose proof (working_length _ _ _ _ st HInv) as Hlen.
    pose proof (exit_requests _ _ _ HExit) as Hgood.
    rewrite (exit_num _ _ _ HExit), (inv_count st HInv).
    destruct (exit_rc _ _ _ HExit) as [-> | ->].
    + destruct (exit_aborted _ _ _ HExit eq_refl) as (Hsel & Hreqs & _).
      rewrite Hreqs in *.
      split; [lia|]. split; [rewrite (inv_sum st HInv); lia|].
      split; [exact Hgood|].
      exists (working st). split; [exact (inv_partition st HInv)|].
      split; [discriminate|]. intros _. split; [|exact Hsel].
      intros Hnil. rewrite Hnil in Hlen. simpl in Hlen. lia.
    + destruct (exit_resources _ _ _ HExit eq_refl)
        as (s & r & Hsel & Hgroup & Hreqs).
      rewrite Hreqs in *.
      apply Forall_app in Hgood as [_ Hr].
      inversion Hr as [|? ? (Hk & Hklen & _) _]; subst.
      pose proof (matched_unmatched_length s (working st)) as Hsplit.
      rewrite Hgroup in Hklen.
      split; [rewrite length_app; simpl; lia|].
      split.
      { rewrite map_app, Zsum_app, (inv_sum st HInv). simpl. lia. }
      split.
      { apply Forall_app. split; [exact (inv_requests st HInv)|exact Hr]. }
      exists (unmatched s (working st)). split; [|split; discriminate].
      rewrite map_app, concat_app. simpl. rewrite app_nil_r.
      rewrite Hgroup, <- app_assoc, matched_unmatched_perm.
      exact (inv_partition st HInv).
Qed.

End Accounts.

(** The same for a call. *)
Lemma call_accounts tmpl dimms DimmsNum InterleaveSetSize prefs
    SequenceIndex goals num isi w fuel rc out :
  Precondition dimms DimmsNum goals num ->
  InterleaveSetSize <> 0 ->
  call tmpl dimms DimmsNum InterleaveSetSize prefs SequenceIndex goals num
       isi w fuel = Done (rc, out) ->
  out_NewRegionsGoalNum out
  = Some (num + Z.of_nat (length (out_Requests out))
          - match rc with EFI_OUT_OF_RESOURCES => 1 | _ => 0 end)
  /\ Zsum (map req_DimmsNum (out_Requests out)) <= DimmsNum
  /\ Forall (good_request DimmsNum InterleaveSetSize) (out_Requests out)
  /\ exists rest,
       concat (map req_group (out_Requests out)) ++ rest
       ≡ₚ prefix DimmsNum dimms
       /\ (rc = EFI_SUCCESS -> rest = [])
       /\ (rc = EFI_ABORTED ->
           rest <> [] /\ select INTERLEAVE_SETS rest = None).
Proof.
  intros Hpre Hsize Hrun.
  destruct (call_final _ _ _ _ _ _ _ _ _ _ _ _ _ Hpre Hsize Hrun)
    as (st' & -> & Hfinal).
  destruct (Final_accounts tmpl DimmsNum InterleaveSetSize prefs SequenceIndex
              (prefix DimmsNum dimms) num _ rc st'
              (init_Inv dimms DimmsNum InterleaveSetSize goals num isi w Hpre)
              Hfinal) as (Hcount & Hrest).
  cbn [output_of out_Requests out_NewRegionsGoalNum].
  rewrite Hcount. split; [reflexivity|exact Hrest].
Qed.

(** When nothing is selected, no entry before the sentinel is covered. *)
Lemma select_None_inv pre s post l :
  select (pre ++ s :: post) l = None ->
  Forall (fun t => t <> END_OF_INTERLEAVE_SETS) pre ->
  s <> END_OF_INTERLEAVE_SETS ->
  ~ covered s l.
Proof.
  intros Hsel Hpre Hs Hcov. induction pre as [|t pre IH]; simpl in Hsel.
  - destruct (Z.eqb_spec s END_OF_INTERLEAVE_SETS); [contradiction|].
    apply coveredb_covered in Hcov. rewrite Hcov in Hsel. discriminate.
  - inversion Hpre as [|? ? Ht Hpre']; subst.
    destruct (Z.eqb_spec t END_OF_INTERLEAVE_SETS); [contradiction|].
    destruct (coveredb t l); [discriminate|]. exact (IH Hsel Hpre').
Qed.

(** X10. A call makes at most six groups, however many DIMMs the list has:
    each selection takes every DIMM of at least one of the six slots, and the
    table names no other slot. So at most six goals are appended to the
    caller's array. *)
Theorem X10_at_most_six_goals tmpl dimms DimmsNum InterleaveSetSize prefs
    SequenceIndex goals num isi w fuel rc out :
  Precondition dimms DimmsNum goals num ->
  call tmpl dimms DimmsNum InterleaveSetSize prefs SequenceIndex goals num
       isi w fuel = Done (rc, out) ->
  (length (out_Requests out) <= 6)%nat
  /\ exists n, out_NewRegionsGoalNum out = Some n /\ num <= n <= num + 6.
Proof.
  intros Hpre Hrun.
  destruct (Z.eq_dec InterleaveSetSize 0) as [Hzero|Hsize].
  { unfold call, PerformInterleavingAndCreateGoal in Hrun.
    rewrite Hzero in Hrun. cbn [Z.eqb] in Hrun.
    injection Hrun as _ <-. simpl. split; [lia|]. exists num. split; [reflexivity|lia]. }
  destruct (call_groups _ _ _ _ _ _ _ _ _ _ _ _ _ Hpre Hsize Hrun)
    as (more & Heq & _).
  destruct (call_accounts _ _ _ _ _ _ _ _ _ _ _ _ _ Hpre Hsize Hrun)
    as (Hcount & _).
  pose proof (greedy_groups_length (Z.to_nat DimmsNum) (prefix DimmsNum dimms))
    as Hlen.
  pose proof (occupied_slots_length (prefix DimmsNum dimms)) as Hsix.
  rewrite Heq, length_app, length_map in Hlen.
  split; [lia|]. eexists. split; [exact Hcount|].
  assert (rc = EFI_OUT_OF_RESOURCES -> out_Requests out <> []).
  { intros -> Hnil.
    destruct (call_final _ _ _ _ _ _ _ _ _ _ _ _ _ Hpre Hsize Hrun)
      as (st' & Hout & [(Hrc & _)|(st & _ & _ & _ & HExit)]);
      [discriminate|].
    destruct (exit_resources _ _ _ HExit eq_refl) as (s & r & _ & _ & Hreqs).
    rewrite Hout in Hnil. cbn [output_of out_Requests] in Hnil.
    rewrite Hreqs in Hnil. destruct (Requests st); discriminate. }
  assert (Hpos : rc = EFI_OUT_OF_RESOURCES ->
                 (0 < length (out_Requests out))%nat).
  { intros Hrc. specialize (H Hrc).
    destruct (out_Requests out); [contradiction|simpl; lia]. }
  destruct rc; try lia. specialize (Hpos eq_refl). lia.
Qed.

Lemma shares_le_exact S N (reqs : list GoalRequest) :
  0 <= S ->
  Forall (good_request N S) reqs ->
  0 <= Zsum (map req_Size reqs)
       <= Zsum (map (fun k => S * k / N) (map req_DimmsNum reqs)).
Proof.
  intros HS Hreqs. induction Hreqs as [|r reqs (Hk & _ & Hsize) _ IH];
    [simpl; lia|].
  cbn [map Zsum fold_right].
  fold (Zsum (map req_Size reqs)).
  fold (Zsum (map (fun k => S * k / N) (map req_DimmsNum reqs))).
  rewrite Hsize. unfold share, wrap64.
  assert (0 <= (S * req_DimmsNum r) mod 2 ^ 64 <= S * req_DimmsNum r).
  { split; [apply Z.mod_pos_bound; reflexivity|].
    apply Z.mod_le; [nia|reflexivity]. }
  assert (0 <= (S * req_DimmsNum r) mod 2 ^ 64 / N
          <= S * req_DimmsNum r / N).
  { split; [apply Z.div_pos; lia|apply Z.div_le_mono; lia]. }
  lia.
Qed.

(** X11. However a call ends, and whether the products wrap or not, the
    shares handed to [CreateRegionGoal] add up to no more than the requested
    size, and none is negative: the function never allocates more than it
    was asked for. *)
Theorem X11_never_allocates_more_than_requested tmpl dimms DimmsNum
    InterleaveSetSize prefs SequenceIndex goals num isi w fuel rc out :
  Precondition dimms DimmsNum goals num ->
  is_UINT64 InterleaveSetSize ->
  call tmpl dimms DimmsNum InterleaveSetSize prefs SequenceIndex goals num
       isi w fuel = Done (rc, out) ->
  Forall (fun r => 0 <= req_Size r <= InterleaveSetSize) (out_Requests out)
  /\ 0 <= Zsum (map req_Size (out_Requests out)) <= InterleaveSetSize.
Proof.
  intros Hpre [HS _] Hrun.
  destruct (Z.eq_dec InterleaveSetSize 0) as [Hzero|Hsize].
  { unfold call, PerformInterleavingAndCreateGoal in Hrun.
    rewrite Hzero in Hrun. cbn [Z.eqb] in Hrun.
    injection Hrun as _ <-. simpl. split; [constructor|lia]. }
  destruct (call_accounts _ _ _ _ _ _ _ _ _ _ _ _ _ Hpre Hsize Hrun)
    as (_ & Hsum & Hgood & _).
  split.
  - eapply Forall_impl; [exact Hgood|].
    intros r (Hk & _ & ->). unfold share, wrap64.
    assert (0 <= (InterleaveSetSize * req_DimmsNum r) mod 2 ^ 64
            <= InterleaveSetSize * req_DimmsNum r).
    { split; [apply Z.mod_pos_bound; reflexivity|].
      apply Z.mod_le; [nia|reflexivity]. }
    split; [apply Z.div_pos; lia|].
    apply Z.div_le_upper_bound; [lia|]. nia.
  - pose proof (shares_le_exact InterleaveSetSize DimmsNum _ HS Hgood)
      as Hle.
    destruct (out_Requests out) as [|r0 reqs] eqn:Hlist; [simpl; lia|].
    rewrite <- Hlist in *.
    assert (HN : 0 < DimmsNum).
    { rewrite Hlist in Hgood. inversion Hgood as [|? ? (Hk & _) _]. lia. }
    assert (Hks : Forall (fun k => 0 < k) (map req_DimmsNum (out_Requests out))).
    { apply Forall_fmap. eapply Forall_impl; [exact Hgood|].
      intros r (Hk & _). exact (proj1 Hk). }
    destruct (proportional_shares InterleaveSetSize DimmsNum
                (map req_DimmsNum (out_Requests out)) HS HN Hks) as [Hlow _].
    split; [lia|]. nia.
Qed.

(** X12. Nothing is rolled back. When a call ends, the caller's goal count
    has grown by the number of goals made so far: by the number of calls of
    [CreateRegionGoal] when the status is [EFI_SUCCESS] or [EFI_ABORTED], by
    one less when it is [EFI_OUT_OF_RESOURCES], the last call having
    returned no goal. *)
Theorem X12_goal_count_keeps_what_was_made tmpl dimms DimmsNum
    InterleaveSetSize prefs SequenceIndex goals num isi w fuel rc out :
  Precondition dimms DimmsNum goals num ->
  InterleaveSetSize <> 0 ->
  call tmpl dimms DimmsNum InterleaveSetSize prefs SequenceIndex goals num
       isi w fuel = Done (rc, out) ->
  (rc = EFI_SUCCESS \/ rc = EFI_ABORTED \/ rc = EFI_OUT_OF_RESOURCES)
  /\ out_NewRegionsGoalNum out
     = Some (num + Z.of_nat (length (out_Requests out))
             - match rc with EFI_OUT_OF_RESOURCES => 1 | _ => 0 end)
  /\ (rc = EFI_OUT_OF_RESOURCES -> out_Requests out <> []).
Proof.
  intros Hpre Hsize Hrun.
  destruct (call_accounts _ _ _ _ _ _ _ _ _ _ _ _ _ Hpre Hsize Hrun)
    as (Hcount & _).
  destruct (call_final _ _ _ _ _ _ _ _ _ _ _ _ _ Hpre Hsize Hrun)
    as (st' & Hout & [(Hrc & _)|(st & _ & _ & _ & HExit)]).
  - split; [auto|]. split; [exact Hcount|]. intros ->. discriminate.
  - split; [destruct (exit_rc _ _ _ HExit); auto|].
    split; [exact Hcount|]. intros Hrc Hnil.
    destruct (exit_resources _ _ _ HExit Hrc) as (s & r & _ & _ & Hreqs).
    rewrite Hout in Hnil. cbn [output_of out_Requests] in Hnil.
    rewrite Hreqs in Hnil. destruct (Requests st); discriminate.
Qed.


(** ** Populations of the six slots *)

Lemma single_slot_pattern_in_table i :
  0 <= i < 6 -> 2 ^ i ∈ INTERLEAVE_SETS.
Proof.
  intros Hi. apply list_elem_of_In.
  assert (Hcases : i = 0 \/ i = 1 \/ i = 2 \/ i = 3 \/ i = 4 \/ i = 5) by lia.
  unfold INTERLEAVE_SETS.
  destruct Hcases as [-> | [-> | [-> | [-> | [-> | ->]]]]];
    vm_compute; tauto.
Qed.

(** A list that is not empty, with its DIMMs in the six slots, covers some
    entry: at least the single slot of its first DIMM. *)
Lemma select_six_slots l :
  l <> [] ->
  Forall (fun p => slot_of p < 6) l ->
  select INTERLEAVE_SETS l <> None.
Proof.
  intros Hne Hslots Hsel. destruct l as [|p l]; [contradiction|].
  inversion Hslots as [|? ? Hp _]; subst.
  pose proof (slot_of_nonneg p) as Hnonneg.
  assert (Hin : 2 ^ slot_of p ∈ INTERLEAVE_SETS)
    by (apply single_slot_pattern_in_table; lia).
  assert (Hnz : 2 ^ slot_of p <> END_OF_INTERLEAVE_SETS).
  { unfold END_OF_INTERLEAVE_SETS.
    pose proof (Z.pow_pos_nonneg 2 (slot_of p)). lia. }
  destruct (list_elem_of_split _ _ Hin) as (pre & post & Htable).
  rewrite Htable in Hsel.
  apply (select_None_inv pre _ post _ Hsel
           (sentinel_last pre _ post Htable Hnz) Hnz).
  intros i Hi. rewrite Z.pow2_bits_eqb in Hi by exact Hnonneg.
  apply Z.eqb_eq in Hi. exists p. split; [left|exact Hi].
Qed.

(** [EFI_OUT_OF_RESOURCES] leaves the body only after [CreateRegionGoal]
    returned no goal. *)
Lemma body_resources_inv tmpl DimmsNum InterleaveSetSize prefs SequenceIndex
    st st' :
  Perform_body tmpl DimmsNum InterleaveSetSize prefs SequenceIndex st
  = Done (Finish EFI_OUT_OF_RESOURCES st') ->
  exists group used size w' isi',
    CreateRegionGoal (world st) tmpl group used size prefs SequenceIndex
                     (InterleaveSetIndex st) = (w', None, isi').
Proof.
  unfold Perform_body, FindBestInterleavingForDimms_body.
  destruct (FindBest_loop INTERLEAVE_SETS (pDimmsCopy st) (RemainingDimms st)
              0 (pDimmsInterleaved st) (DimmsUsed st))
    as [[[out used] Index]| |]; cbn [bind]; try discriminate.
  destruct (used =? 0); cbn [bind EFI_ERROR]; [discriminate|].
  destruct (RemoveDimmArray_loop (Z.to_nat used) (pDimmsCopy st)
              (RemainingDimms st) out 0) as [[copy rem]| |];
    cbn [bind]; try discriminate.
  destruct (wrap32 (TotalDimmsUsed st + used) >? DimmsNum); [discriminate|].
  destruct (CreateRegionGoal (world st) tmpl out used
              (wrap64 (InterleaveSetSize * used) / DimmsNum) prefs
              SequenceIndex (InterleaveSetIndex st))
    as [[w' goal] isi'] eqn:Hcreate.
  destruct (array_set (RegionGoal st) (NewRegionsGoalNum st) goal);
    cbn [bind]; try discriminate.
  destruct goal; [discriminate|]. intros _. eauto 10.
Qed.

(** X14. When every DIMM of the input sits in one of the six slots of the
    table, the function never returns [EFI_ABORTED]: the single-slot entries
    make every list that is not empty cover some entry. If, besides,
    [CreateRegionGoal] never returns a null goal, the function returns
    [EFI_SUCCESS] as soon as the fuel is at least [DimmsNum]. *)
Theorem X14_six_slot_populations_never_abort tmpl dimms DimmsNum
    InterleaveSetSize prefs SequenceIndex goals num isi w :
  Precondition dimms DimmsNum goals num ->
  InterleaveSetSize <> 0 ->
  Forall (fun p => slot_of p < 6) (prefix DimmsNum dimms) ->
  (forall fuel rc out,
     call tmpl dimms DimmsNum InterleaveSetSize prefs SequenceIndex goals num
          isi w fuel = Done (rc, out) ->
     rc <> EFI_ABORTED)
  /\ ((forall w0 t group used size pr sq isi0,
         snd (fst (CreateRegionGoal w0 t group used size pr sq isi0)) <> None) ->
      forall fuel,
        DimmsNum <= Z.of_nat fuel ->
        exists out,
          call tmpl dimms DimmsNum InterleaveSetSize prefs SequenceIndex goals
               num isi w fuel = Done (EFI_SUCCESS, out)).
Proof.
  intros Hpre Hsize Hslots.
  assert (Hnoabort : forall fuel rc out,
            call tmpl dimms DimmsNum InterleaveSetSize prefs SequenceIndex
                 goals num isi w fuel = Done (rc, out) ->
            rc <> EFI_ABORTED).
  { intros fuel rc out Hrun ->.
    destruct (call_accounts _ _ _ _ _ _ _ _ _ _ _ _ _ Hpre Hsize Hrun)
      as (_ & _ & _ & rest & Hperm & _ & Haborted).
    destruct (Haborted eq_refl) as (Hne & Hsel).
    apply (select_six_slots rest Hne); [|exact Hsel].
    rewrite Forall_forall in *. intros p Hp. apply Hslots.
    rewrite <- Hperm. apply elem_of_app. right. exact Hp. }
  split; [exact Hnoabort|].
  intros Hcreate fuel Hfuel.
  destruct (call_returns tmpl dimms DimmsNum InterleaveSetSize prefs
              SequenceIndex goals num isi w fuel Hpre Hfuel)
    as (rc & out & Hrun).
  exists out. rewrite Hrun. do 2 f_equal.
  pose proof (Hnoabort fuel rc out Hrun) as Hrc.
  destruct (call_final _ _ _ _ _ _ _ _ _ _ _ _ _ Hpre Hsize Hrun)
    as (st' & _ & [(Hsuccess & _)|(st & _ & _ & Hbody & HExit)]);
    [exact Hsuccess|].
  destruct (exit_rc _ _ _ HExit) as [-> | ->]; [contradiction|].
  destruct (body_resources_inv _ _ _ _ _ _ _ Hbody)
    as (group & used & size & w' & isi' & Hnull).
  exfalso. apply (Hcreate (world st) tmpl group used size prefs SequenceIndex
                          (InterleaveSetIndex st)).
  rewrite Hnull. reflexivity.
Qed.

(** ** One DIMM a slot *)

Lemma NoDup_map_filter {A B : Type} (g : A -> B) (f : A -> bool) (l : list A) :
  NoDup (map g l) -> NoDup (map g (List.filter f l)).
Proof.
  induction l as [|a l IH]; cbn [map List.filter]; [intros; constructor|].
  intros Hnd. apply NoDup_cons in Hnd as (Hnotin & Hnd).
  destruct (f a); cbn [map]; [|exact (IH Hnd)].
  apply NoDup_cons. split; [|exact (IH Hnd)].
  intros Hin. apply Hnotin.
  apply list_elem_of_fmap in Hin as (b & -> & Hb).
  apply list_elem_of_fmap. exists b. split; [reflexivity|].
  apply list_elem_of_In in Hb. apply List.filter_In in Hb as (Hb & _).
  apply list_elem_of_In. exact Hb.
Qed.

Lemma NoDup_filter_bool {A : Type} (f : A -> bool) (l : list A) :
  NoDup l -> NoDup (List.filter f l).
Proof.
  intros H. apply NoDup_ListNoDup. apply List.NoDup_filter.
  apply NoDup_ListNoDup. exact H.
Qed.

(** When the DIMMs of a list sit in pairwise distinct slots and the list
    covers a pattern, the pattern matches as many DIMMs as it names slots. *)
Lemma matched_length_width s l :
  is_UINT32 s ->
  NoDup (map slot_of l) ->
  covered s l ->
  Z.of_nat (length (matched s l)) = width s.
Proof.
  intros Hs Hnd Hcov. unfold width. f_equal.
  rewrite <- (length_map slot_of (matched s l)).
  apply Permutation_length. apply NoDup_Permutation.
  - apply NoDup_map_filter. exact Hnd.
  - apply NoDup_filter_bool. apply NoDup_seqZ.
  - intros i. split.
    + intros Hi. apply list_elem_of_fmap in Hi as (p & -> & Hp).
      apply list_elem_of_In in Hp. apply List.filter_In in Hp as (_ & Hnamed).
      unfold named in Hnamed.
      apply list_elem_of_In. apply List.filter_In. split; [|exact Hnamed].
      apply list_elem_of_In. apply elem_of_seqZ.
      pose proof (slot_of_nonneg p).
      destruct (Z.lt_ge_cases (slot_of p) 32) as [Hlt|Hge]; [lia|].
      rewrite (uint32_high_bits s (slot_of p) Hs Hge) in Hnamed.
      discriminate.
    + intros Hi. apply list_elem_of_In in Hi.
      apply List.filter_In in Hi as (_ & Hbit).
      destruct (Hcov i Hbit) as (p & Hp & Hslot).
      apply list_elem_of_fmap. exists p. split; [symmetry; exact Hslot|].
      apply list_elem_of_In. apply List.filter_In. split.
      * apply list_elem_of_In. exact Hp.
      * unfold named. rewrite Hslot. exact Hbit.
Qed.

Lemma table_widths s :
  s ∈ INTERLEAVE_SETS -> s <> END_OF_INTERLEAVE_SETS ->
  In (width s) [6; 4; 3; 2; 1].
Proof.
  intros Hs Hnz. unfold INTERLEAVE_SETS, END_OF_INTERLEAVE_SETS in Hs, Hnz.
  repeat (apply elem_of_cons in Hs as [->|Hs];
          [first [contradiction | vm_compute; auto 10]|]).
  apply elem_of_nil in Hs. contradiction.
Qed.

(** X15. When the DIMMs of the input sit in pairwise distinct slots, every
    request is for a group of exactly as many DIMMs as its table entry names
    slots: 6, 4, 3, 2 or 1, never 5. *)
Theorem X15_group_size_is_the_width_of_its_entry tmpl dimms DimmsNum
    InterleaveSetSize prefs SequenceIndex goals num isi w fuel rc out :
  Precondition dimms DimmsNum goals num ->
  NoDup (map slot_of (prefix DimmsNum dimms)) ->
  call tmpl dimms DimmsNum InterleaveSetSize prefs SequenceIndex goals num
       isi w fuel = Done (rc, out) ->
  Forall (fun r => exists s,
            s ∈ INTERLEAVE_SETS /\ s <> END_OF_INTERLEAVE_SETS
            /\ req_DimmsNum r = width s
            /\ Z.of_nat (length (req_group r)) = width s
            /\ In (req_DimmsNum r) [6; 4; 3; 2; 1])
         (out_Requests out).
Proof.
  intros Hpre Hnd Hrun.
  destruct (Z.eq_dec InterleaveSetSize 0) as [Hzero|Hsize].
  { unfold call, PerformInterleavingAndCreateGoal in Hrun.
    rewrite Hzero in Hrun. cbn [Z.eqb] in Hrun.
    injection Hrun as _ <-. constructor. }
  pose proof (call_selected _ _ _ _ _ _ _ _ _ _ _ _ _ Hpre Hrun) as Hsel.
  destruct (call_accounts _ _ _ _ _ _ _ _ _ _ _ _ _ Hpre Hsize Hrun)
    as (_ & _ & Hgood & _).
  rewrite Forall_forall in *. intros r Hr.
  destruct (Hsel r Hr) as (s & part & before & Hselect & Hgroup & Hperm).
  destruct (Hgood r Hr) as (_ & Hlen & _).
  destruct (select_Some_inv _ _ _ Hselect) as (Hin & Hnz & Hcov).
  assert (Hwidth : Z.of_nat (length (req_group r)) = width s).
  { rewrite Hgroup. apply matched_length_width; [| |exact Hcov].
    - pose proof (table_range s Hin). unfold is_UINT32. lia.
    - rewrite <- Hperm, map_app in Hnd.
      apply NoDup_app in Hnd as (_ & _ & Hnd). exact Hnd. }
  exists s. split; [exact Hin|]. split; [exact Hnz|].
  split; [lia|]. split; [exact Hwidth|].
  replace (req_DimmsNum r) with (width s) by lia.
  apply table_widths; assumption.
Qed.

(** ** Groups and slots *)

Lemma greedy_groups_subset n :
  forall l g p, g ∈ greedy_groups n l -> p ∈ g -> p ∈ l.
Proof.
  induction n as [|n IH]; intros l g p Hg Hp; cbn [greedy_groups] in Hg.
  - apply elem_of_nil in Hg. contradiction.
  - destruct (select INTERLEAVE_SETS l) as [s|];
      [|apply elem_of_nil in Hg; contradiction].
    apply elem_of_cons in Hg as [-> | Hg].
    + apply list_elem_of_In in Hp. apply List.filter_In in Hp as (Hp & _).
      apply list_elem_of_In. exact Hp.
    + specialize (IH _ _ _ Hg Hp).
      apply list_elem_of_In in IH. apply List.filter_In in IH as (IH & _).
      apply list_elem_of_In. exact IH.
Qed.

(** A later group has no DIMM in a slot of an earlier one. *)
Lemma greedy_groups_slots n :
  forall l i j gi gj p q,
    (i < j)%nat ->
    greedy_groups n l !! i = Some gi ->
    greedy_groups n l !! j = Some gj ->
    p ∈ gi -> q ∈ gj -> slot_of p <> slot_of q.
Proof.
  induction n as [|n IH]; intros l i j gi gj p q Hij Hi Hj Hp Hq;
    cbn [greedy_groups] in Hi, Hj; [discriminate|].
  destruct (select INTERLEAVE_SETS l) as [s|]; [|discriminate].
  destruct j as [|j]; [lia|]. cbn in Hj.
  destruct i as [|i]; cbn in Hi.
  - injection Hi as <-.
    apply list_elem_of_In in Hp. apply List.filter_In in Hp as (_ & Hp).
    assert (Hq' : q ∈ unmatched s l).
    { apply (greedy_groups_subset n _ gj); [|exact Hq].
      apply list_elem_of_lookup. exists j. exact Hj. }
    apply list_elem_of_In in Hq'. apply List.filter_In in Hq' as (_ & Hq').
    unfold named in Hp, Hq'. intros Heq. rewrite Heq in Hp.
    rewrite Hp in Hq'. discriminate.
  - apply (IH (unmatched s l) i j gi gj); [lia|assumption..].
Qed.

(** X16. Two different requests never share a slot: after a group is taken,
    every DIMM of its slots is out of the working list, so a later group
    has no DIMM in any slot of an earlier one. *)
Theorem X16_groups_occupy_disjoint_slots tmpl dimms DimmsNum
    InterleaveSetSize prefs SequenceIndex goals num isi w fuel rc out :
  Precondition dimms DimmsNum goals num ->
  call tmpl dimms DimmsNum InterleaveSetSize prefs SequenceIndex goals num
       isi w fuel = Done (rc, out) ->
  forall i j ri rj p q,
    i <> j ->
    out_Requests out !! i = Some ri ->
    out_Requests out !! j = Some rj ->
    p ∈ req_group ri -> q ∈ req_group rj ->
    slot_of p <> slot_of q.
Proof.
  intros Hpre Hrun i j ri rj p q Hij Hi Hj Hp Hq.
  destruct (Z.eq_dec InterleaveSetSize 0) as [Hzero|Hsize].
  { unfold call, PerformInterleavingAndCreateGoal in Hrun.
    rewrite Hzero in Hrun. cbn [Z.eqb] in Hrun.
    injection Hrun as _ <-. discriminate. }
  destruct (call_groups _ _ _ _ _ _ _ _ _ _ _ _ _ Hpre Hsize Hrun)
    as (more & Hgreedy & _).
  assert (Hlook : forall k r,
            out_Requests out !! k = Some r ->
            greedy_groups (Z.to_nat DimmsNum) (prefix DimmsNum dimms) !! k
            = Some (req_group r)).
  { intros k r Hk. rewrite Hgreedy. apply lookup_app_l_Some.
    rewrite list_lookup_fmap, Hk. reflexivity. }
  destruct (Nat.lt_total i j) as [Hlt | [Heq | Hgt]]; [|contradiction|].
  - exact (greedy_groups_slots _ _ i j _ _ p q Hlt
             (Hlook _ _ Hi) (Hlook _ _ Hj) Hp Hq).
  - intros Heq. symmetry in Heq. revert Heq.
    exact (greedy_groups_slots _ _ j i _ _ q p Hgt
             (Hlook _ _ Hj) (Hlook _ _ Hi) Hq Hp).
Qed.

(** ** The macros *)

(** X17. With a controller id of 0 or 1, [DIMM_LOCATION] gives one of the
    six slots, and a different one for each controller and each of the
    channels 0, 1 and 2. The macro checks neither field: channel [c + 3]
    lands in the slot of channel [c], and controller 2 in the slot of
    controller 0 on the next channel. *)
Theorem X17_slot_of_controller_and_channel (iMC channel iMC' channel' : Z) :
  0 <= iMC <= 1 -> 0 <= iMC' <= 1 ->
  0 <= channel -> 0 <= channel' ->
  0 <= DIMM_LOCATION iMC channel < 6
  /\ (channel < 3 -> channel' < 3 ->
      DIMM_LOCATION iMC channel = DIMM_LOCATION iMC' channel' ->
      iMC = iMC' /\ channel = channel')
  /\ DIMM_LOCATION iMC (channel + 3) = DIMM_LOCATION iMC channel
  /\ (channel mod 3 < 2 ->
      DIMM_LOCATION 2 channel = DIMM_LOCATION 0 (channel + 1)).
Proof.
  intros HiMC HiMC' Hch Hch'. unfold DIMM_LOCATION, CHANNELS_PER_IMC.
  pose proof (Z.mod_pos_bound channel 3 eq_refl) as Hmod.
  split; [lia|]. split; [|split].
  - intros Hlt Hlt'. rewrite !Z.mod_small by lia. intros Heq.
    assert (iMC = iMC') by lia. lia.
  - replace (channel + 3) with (channel + 1 * 3) by lia.
    rewrite Z.mod_add by lia. reflexivity.
  - intros Hlow.
    assert (Hnext : (channel + 1) mod 3 = channel mod 3 + 1).
    { rewrite (Z.div_mod channel 3) at 1 by lia.
      replace (3 * (channel / 3) + channel mod 3 + 1)
        with (channel mod 3 + 1 + (channel / 3) * 3) by lia.
      rewrite Z.mod_add by lia. apply Z.mod_small. lia. }
    lia.
Qed.

(** X18. [CLEAR_DIMM] then [DIMM_POPULATED]: the cleared slot reads 0, every
    other slot reads as before, and the map stays a [UINT32]. *)
Theorem X18_cleared_slot_reads_zero (map i j : Z) :
  is_UINT32 map -> 0 <= i < 31 -> 0 <= j < 32 ->
  exists map',
    CLEAR_DIMM map i = Done map'
    /\ is_UINT32 map'
    /\ DIMM_POPULATED map' j
       = (if j =? i then Done 0 else DIMM_POPULATED map j).
Proof.
  intros Hmap Hi Hj. exists (Z.clearbit map i).
  split; [apply CLEAR_DIMM_spec; assumption|].
  split; [apply clearbit_uint32; exact Hmap|].
  rewrite !DIMM_POPULATED_spec by exact Hj. rewrite Z.clearbit_eqb.
  rewrite (Z.eqb_sym i j).
  destruct (Z.eqb_spec j i) as [Heq|Hne].
  - rewrite Bool.andb_false_r. reflexivity.
  - rewrite Bool.andb_true_r. reflexivity.
Qed.

(** ** The order of the list *)

Lemma covered_perm s l l' : l ≡ₚ l' -> covered s l -> covered s l'.
Proof.
  intros Hperm Hcov i Hi. destruct (Hcov i Hi) as (p & Hp & Hslot).
  exists p. split; [rewrite <- Hperm; exact Hp|exact Hslot].
Qed.

Lemma select_perm sets l l' : l ≡ₚ l' -> select sets l = select sets l'.
Proof.
  intros Hperm. induction sets as [|s sets IH]; simpl; [reflexivity|].
  destruct (s =? END_OF_INTERLEAVE_SETS); [reflexivity|].
  assert (Hcov : coveredb s l = coveredb s l').
  { apply Bool.eq_true_iff_eq. rewrite !coveredb_covered.
    split; apply covered_perm; [exact Hperm|symmetry; exact Hperm]. }
  rewrite Hcov, IH. reflexivity.
Qed.

Lemma filter_perm {A : Type} (f : A -> bool) (l l' : list A) :
  l ≡ₚ l' -> List.filter f l ≡ₚ List.filter f l'.
Proof.
  induction 1 as [|x l l' _ IH|x y l|l l' l'' _ IH1 _ IH2];
    cbn [List.filter].
  - reflexivity.
  - destruct (f x); [constructor|]; exact IH.
  - destruct (f x), (f y); try reflexivity. apply perm_swap.
  - etransitivity; eassumption.
Qed.

Lemma valid_perm l l' :
  l ≡ₚ l' -> forallb valid_dimm l = true -> forallb valid_dimm l' = true.
Proof.
  intros Hperm Hvalid. apply forallb_forall. intros p Hp.
  rewrite forallb_forall in Hvalid. apply Hvalid.
  apply list_elem_of_In. rewrite Hperm. apply list_elem_of_In. exact Hp.
Qed.

(** X19. The selector does not depend on the order of the list: on two
    arrays whose first [num] entries are the same DIMMs in another order it
    returns the same status and the same count, and the groups it writes
    hold the same DIMMs. *)
Theorem X19_selection_ignores_order (l l' : list DIMM_PTR) (num : Z)
    (out out' : list DIMM_PTR) :
  0 <= num <= Z.of_nat (length l) ->
  num <= Z.of_nat (length l') ->
  num < 2 ^ 32 ->
  forallb valid_dimm (prefix num l) = true ->
  num <= Z.of_nat (length out) ->
  num <= Z.of_nat (length out') ->
  prefix num l ≡ₚ prefix num l' ->
  exists rc group group' used,
    FindBestInterleavingForDimms (Some l) num (Some out) (Some 0)
    = Done (rc, Some group, Some used)
    /\ FindBestInterleavingForDimms (Some l') num (Some out') (Some 0)
       = Done (rc, Some group', Some used)
    /\ prefix used group ≡ₚ prefix used group'.
Proof.
  intros Hnum Hnum' H32 Hvalid Hcap Hcap' Hperm.
  destruct (FindBest_body_spec l num out Hnum H32 Hvalid Hcap)
    as (rc & o & used & Index & Heq & _ & _ & Hsel).
  destruct (FindBest_body_spec l' num out' (conj (proj1 Hnum) Hnum') H32
              (valid_perm _ _ Hperm Hvalid) Hcap')
    as (rc' & o' & used' & Index' & Heq' & _ & _ & Hsel').
  rewrite <- (select_perm INTERLEAVE_SETS _ _ Hperm) in Hsel'.
  unfold FindBestInterleavingForDimms. rewrite Heq, Heq'. cbn [bind].
  destruct (select INTERLEAVE_SETS (prefix num l)) as [s|].
  - destruct Hsel as (-> & _ & _ & Hused & Hgroup).
    destruct Hsel' as (-> & _ & _ & Hused' & Hgroup').
    assert (Hmatched : matched s (prefix num l) ≡ₚ matched s (prefix num l'))
      by (apply filter_perm; exact Hperm).
    assert (Hsame : used' = used)
      by (rewrite Hused, Hused'; f_equal; apply Permutation_length;
          symmetry; exact Hmatched).
    rewrite Hsame in *. exists EFI_SUCCESS, o, o', used.
    split; [reflexivity|]. split; [reflexivity|].
    rewrite Hgroup, Hgroup'. exact Hmatched.
  - destruct Hsel as (-> & ->). destruct Hsel' as (-> & ->).
    exists EFI_ABORTED, o, o', 0.
    split; [reflexivity|]. split; [reflexivity|]. reflexivity.
Qed.

(** ** The goal array *)

(** What one run of the body does to the caller's array and count. *)
Lemma body_goal_array tmpl DimmsNum InterleaveSetSize prefs SequenceIndex
    st f :
  Perform_body tmpl DimmsNum InterleaveSetSize prefs SequenceIndex st
  = Done f ->
  match f with
  | Continue st' =>
      exists g,
        0 <= NewRegionsGoalNum st < Z.of_nat (length (RegionGoal st))
        /\ RegionGoal st'
           = <[Z.to_nat (NewRegionsGoalNum st) := Some g]> (RegionGoal st)
        /\ NewRegionsGoalNum st' = wrap32 (NewRegionsGoalNum st + 1)
  | Finish rc st' =>
      NewRegionsGoalNum st' = NewRegionsGoalNum st
      /\ (rc <> EFI_OUT_OF_RESOURCES -> RegionGoal st' = RegionGoal st)
      /\ (rc = EFI_OUT_OF_RESOURCES ->
          0 <= NewRegionsGoalNum st < Z.of_nat (length (RegionGoal st))
          /\ RegionGoal st'
             = <[Z.to_nat (NewRegionsGoalNum st) := None]> (RegionGoal st))
  end.
Proof.
  unfold Perform_body, FindBestInterleavingForDimms_body.
  destruct (FindBest_loop INTERLEAVE_SETS (pDimmsCopy st) (RemainingDimms st)
              0 (pDimmsInterleaved st) (DimmsUsed st))
    as [[[out used] Index]| |]; cbn [bind]; try discriminate.
  destruct (used =? 0); cbn [bind EFI_ERROR].
  { intros [= <-]. cbn. split; [reflexivity|].
    split; [reflexivity|discriminate]. }
  destruct (RemoveDimmArray_loop (Z.to_nat used) (pDimmsCopy st)
              (RemainingDimms st) out 0) as [[copy rem]| |];
    cbn [bind]; try discriminate.
  destruct (wrap32 (TotalDimmsUsed st + used) >? DimmsNum).
  { intros [= <-]. cbn. split; [reflexivity|].
    split; [reflexivity|discriminate]. }
  destruct (CreateRegionGoal (world st) tmpl out used
              (wrap64 (InterleaveSetSize * used) / DimmsNum) prefs
              SequenceIndex (InterleaveSetIndex st))
    as [[w' goal] isi'].
  unfold array_set.
  destruct (Z.leb_spec 0 (NewRegionsGoalNum st)) as [Hlow|];
    cbn [andb bind]; [|discriminate].
  destruct (Z.ltb_spec (NewRegionsGoalNum st)
              (Z.of_nat (length (RegionGoal st)))) as [Hhigh|];
    cbn [bind]; [|discriminate].
  destruct goal as [g|]; intros [= <-]; cbn.
  - exists g. split; [lia|]. split; reflexivity.
  - split; [reflexivity|]. split; [intros H; contradiction|].
    intros _. split; [lia|reflexivity].
Qed.

Section GoalArray.

Variable pRegionGoalTemplate : REGION_GOAL_TEMPLATE.
Variable DimmsNum : Z.
Variable InterleaveSetSize : Z.
Variable pDriverPreferences : option DRIVER_PREFERENCES.
Variable SequenceIndex : Z.
Variable input : list DIMM_PTR.
Variable num0 : Z.
Variable goals0 : list (option REGION_GOAL).

Local Abbreviation Inv := (Inv DimmsNum InterleaveSetSize input num0).
Local Abbreviation reachable :=
  (reachable pRegionGoalTemplate DimmsNum InterleaveSetSize
             pDriverPreferences SequenceIndex).
Local Abbreviation Final :=
  (Final pRegionGoalTemplate DimmsNum InterleaveSetSize
         pDriverPreferences SequenceIndex).

(** At every test of the loop the caller's array has its length, holds a
    goal at each index from the initial count up to the count, and is as it
    was everywhere else. *)
Lemma reachable_goal_array st0 st :
  Inv st0 -> RegionGoal st0 = goals0 -> NewRegionsGoalNum st0 = num0 ->
  reachable st0 st ->
  length (RegionGoal st) = length goals0
  /\ (forall i : nat,
        Z.of_nat i < num0 \/ NewRegionsGoalNum st <= Z.of_nat i ->
        RegionGoal st !! i = goals0 !! i)
  /\ (forall i : nat,
        num0 <= Z.of_nat i < NewRegionsGoalNum st ->
        exists g, RegionGoal st !! i = Some (Some g)).
Proof.
  intros H0 Hgoals Hnum0 Hreach.
  induction Hreach as [|st st' Hreach IH Hpos Hbody].
  - rewrite Hgoals. split; [reflexivity|]. split; [reflexivity|].
    intros i Hi. lia.
  - destruct IH as (Hlen & Hframe & Hstored).
    destruct (reachable_step_spec pRegionGoalTemplate DimmsNum
                InterleaveSetSize pDriverPreferences SequenceIndex input num0
                st0 st st' H0 Hreach Hpos Hbody) as (HInv & _ & _).
    destruct (body_goal_array _ _ _ _ _ _ _ Hbody)
      as (g & Hrange & -> & ->).
    pose proof (inv_count st HInv) as Hcount.
    pose proof (inv_goals32 st HInv) as H32.
    unfold wrap32. rewrite Z.mod_small by lia.
    split; [rewrite length_insert; exact Hlen|]. split.
    + intros i Hi.
      rewrite list_lookup_insert_ne by lia. apply Hframe. lia.
    + intros i Hi.
      destruct (Z.eq_dec (Z.of_nat i) (NewRegionsGoalNum st)) as [Heq|Hne].
      * exists g. rewrite <- Heq, Nat2Z.id.
        apply list_lookup_insert_eq. lia.
      * rewrite list_lookup_insert_ne by lia. apply Hstored. lia.
Qed.

Lemma Final_goal_array st0 rc st' :
  Inv st0 -> RegionGoal st0 = goals0 -> NewRegionsGoalNum st0 = num0 ->
  Final st0 rc st' ->
  let failed := match rc with EFI_OUT_OF_RESOURCES => 1 | _ => 0 end in
  length (RegionGoal st') = length goals0
  /\ (forall i : nat,
        Z.of_nat i < num0 \/ NewRegionsGoalNum st' + failed <= Z.of_nat i ->
        RegionGoal st' !! i = goals0 !! i)
  /\ (forall i : nat,
        num0 <= Z.of_nat i < NewRegionsGoalNum st' ->
        exists g, RegionGoal st' !! i = Some (Some g))
  /\ (rc = EFI_OUT_OF_RESOURCES ->
      RegionGoal st' !! Z.to_nat (NewRegionsGoalNum st') = Some None).
Proof.
  intros H0 Hgoals Hnum0
    [(-> & Hreach & Hrem)|(st & Hreach & Hpos & Hbody & HExit)]; cbn zeta.
  - destruct (reachable_goal_array st0 st' H0 Hgoals Hnum0 Hreach)
      as (Hlen & Hframe & Hstored).
    split; [exact Hlen|]. split; [|split; [exact Hstored|discriminate]].
    intros i Hi. apply Hframe. lia.
  - destruct (reachable_goal_array st0 st H0 Hgoals Hnum0 Hreach)
      as (Hlen & Hframe & Hstored).
    pose proof (reachable_Inv _ _ _ _ _ _ _ _ _ H0 Hreach) as HInv.
    pose proof (inv_count st HInv) as Hcount.
    destruct (body_goal_array _ _ _ _ _ _ _ Hbody)
      as (Hnum & Hsame & Hnull).
    rewrite Hnum.
    destruct (exit_rc _ _ _ HExit) as [-> | ->].
    + rewrite (Hsame ltac:(discriminate)).
      split; [exact Hlen|]. split; [|split; [exact Hstored|discriminate]].
      intros i Hi. apply Hframe. lia.
    + destruct (Hnull eq_refl) as (Hrange & ->).
      split; [rewrite length_insert; exact Hlen|]. split; [|split].
      * intros i Hi. rewrite list_lookup_insert_ne by lia.
        apply Hframe. lia.
      * intros i Hi. rewrite list_lookup_insert_ne by lia.
        apply Hstored. exact Hi.
      * intros _. apply list_lookup_insert_eq. lia.
Qed.

End GoalArray.

(** X20. The function only appends to the caller's goal array: the array
    keeps its length, the entries below the initial count and those from the
    final count on are as they were, and every entry between the two counts
    is a goal, not a null pointer. The one exception is the entry at the
    final count after [EFI_OUT_OF_RESOURCES]: it holds the null pointer that
    [CreateRegionGoal] returned. *)
Theorem X20_goal_array_is_appended_to tmpl dimms DimmsNum InterleaveSetSize
    prefs SequenceIndex goals num isi w fuel rc out :
  Precondition dimms DimmsNum goals num ->
  call tmpl dimms DimmsNum InterleaveSetSize prefs SequenceIndex goals num
       isi w fuel = Done (rc, out) ->
  exists goals' num',
    out_RegionGoal out = Some goals'
    /\ out_NewRegionsGoalNum out = Some num'
    /\ length goals' = length goals
    /\ num <= num'
    /\ (forall i : nat,
          Z.of_nat i < num
          \/ num' + match rc with EFI_OUT_OF_RESOURCES => 1 | _ => 0 end
             <= Z.of_nat i ->
          goals' !! i = goals !! i)
    /\ (forall i : nat,
          num <= Z.of_nat i < num' ->
          exists g, goals' !! i = Some (Some g))
    /\ (rc = EFI_OUT_OF_RESOURCES -> goals' !! Z.to_nat num' = Some None).
Proof.
  intros Hpre Hrun.
  destruct (Z.eq_dec InterleaveSetSize 0) as [Hzero|Hsize].
  { unfold call, PerformInterleavingAndCreateGoal in Hrun.
    rewrite Hzero in Hrun. cbn [Z.eqb] in Hrun.
    injection Hrun as <- <-. exists goals, num. cbn.
    split; [reflexivity|]. split; [reflexivity|]. split; [reflexivity|].
    split; [lia|]. split; [reflexivity|]. split; [intros i Hi; lia|].
    discriminate. }
  destruct (call_accounts _ _ _ _ _ _ _ _ _ _ _ _ _ Hpre Hsize Hrun)
    as (Hcount & _ & _ & rest & Hperm & _ & _).
  destruct (call_final _ _ _ _ _ _ _ _ _ _ _ _ _ Hpre Hsize Hrun)
    as (st' & Hout & Hfinal).
  pose proof (init_Inv dimms DimmsNum InterleaveSetSize goals num isi w Hpre)
    as H0.
  destruct (Final_goal_array tmpl DimmsNum InterleaveSetSize prefs
              SequenceIndex (prefix DimmsNum dimms) num goals _ rc st' H0
              eq_refl eq_refl Hfinal) as (Hlen & Hframe & Hstored & Hnull).
  subst out. cbn [output_of out_RegionGoal out_NewRegionsGoalNum] in *.
  exists (RegionGoal st'), (NewRegionsGoalNum st').
  split; [reflexivity|]. split; [reflexivity|]. split; [exact Hlen|].
  split; [|split; [exact Hframe|split; [exact Hstored|exact Hnull]]].
  injection Hcount as ->.
  destruct rc; try lia.
  destruct (length (Requests st')) eqn:Hreqs; [|lia].
  exfalso.
  destruct Hfinal as [(Hrc & _)|(st & _ & _ & _ & HExit)]; [discriminate|].
  destruct (exit_resources _ _ _ HExit eq_refl) as (s & r & _ & _ & Happ).
  rewrite Happ, length_app in Hreqs. cbn in Hreqs. lia.
Qed.

End Interleave.

Arguments out_RegionGoal {_ _} _.
Arguments out_NewRegionsGoalNum {_ _} _.
Arguments out_InterleaveSetIndex {_ _} _.
Arguments out_world {_ _} _.
Arguments out_Requests {_ _} _.

(** * The properties on the example board *)

(** A call on the example board with local arrays of eight entries, room for
    eight goals and none created yet. *)
Local Abbreviation board_call dimms DimmsNum size fuel :=
  (call board unit unit (list DIMM_PTR * Z) unit make_goal 8
        tt dimms DimmsNum size None 0 (replicate 8 None) 0 0 tt fuel).

Local Abbreviation board_pre dimms DimmsNum :=
  (Precondition board (list DIMM_PTR * Z) 8 dimms DimmsNum
                (replicate 8 None) 0).

Local Ltac board_precondition :=
  constructor; unfold is_UINT32; simpl; try lia; try reflexivity;
  try (split; lia).

(** C1 as stated fails on a request of size zero: the call succeeds on a
    list of one DIMM and no group is passed to the goal constructor. *)
Lemma C1_counterexample_zero_size :
  board_pre [1%N] 1
  /\ exists out,
       board_call [1%N] 1 0 1%nat = Done (EFI_SUCCESS, out)
       /\ ~ (concat (map req_group (out_Requests out)) ≡ₚ prefix 1 [1%N])
       /\ Zsum (map req_DimmsNum (out_Requests out)) <> 1.
Proof.
  split; [board_precondition|].
  eexists. split; [reflexivity|]. split.
  - simpl. intros H. apply Permutation_nil_l in H. discriminate.
  - simpl. lia.
Qed.

(** The amended C1 on the DIMMs of the slots 0, 2 and 3. *)
Lemma C1_witness :
  board_pre [1; 3; 4]%N 3
  /\ exists out,
       board_call [1; 3; 4]%N 3 100 3%nat = Done (EFI_SUCCESS, out)
       /\ concat (map req_group (out_Requests out)) ≡ₚ prefix 3 [1; 3; 4]%N
       /\ (NoDup (prefix 3 [1; 3; 4]%N) ->
           NoDup (concat (map req_group (out_Requests out))))
       /\ Forall (fun r => Z.of_nat (length (req_group r)) = req_DimmsNum r)
                 (out_Requests out)
       /\ Zsum (map req_DimmsNum (out_Requests out)) = 3.
Proof.
  assert (Hpre : board_pre [1; 3; 4]%N 3) by board_precondition.
  split; [exact Hpre|].
  eexists. split; [vm_compute; reflexivity|].
  eapply (C1_groups_partition_input board unit unit (list DIMM_PTR * Z) unit
            make_goal 8 tt [1; 3; 4]%N 3 100 None 0 (replicate 8 None) 0 0 tt
            3%nat);
    [exact Hpre|lia|lia|vm_compute; reflexivity].
Defined.

Local Ltac covered_by_computation :=
  match goal with
  | |- covered _ _ _ => apply coveredb_covered; reflexivity
  | |- ~ covered _ _ _ =>
      let H := fresh in
      intros H; apply coveredb_covered in H; discriminate H
  end.

Local Ltac members H :=
  repeat (apply elem_of_cons in H as [H|H]; [subst|]);
  try (apply elem_of_nil in H; contradiction).

(** C2 on the same DIMMs and the pattern of the slots 2 and 3. *)
Lemma C2_witness :
  is_UINT32 0x0C
  /\ 0x0C <> END_OF_INTERLEAVE_SETS
  /\ 0 <= 3 <= Z.of_nat (length [1; 3; 4]%N)
  /\ forallb (valid_dimm board) (prefix 3 [1; 3; 4]%N) = true
  /\ 0 <= 0
  /\ 0 + 3 <= Z.of_nat (length (replicate 8 NULL))
  /\ 0 + 3 < 2 ^ 32
  /\ exists out' used',
       GetDimmsFromListMatchingInterleaveSet board (Some [1; 3; 4]%N) 3 0x0C
         (Some (replicate 8 NULL)) (Some 0)
       = Done (EFI_SUCCESS, Some out', Some used')
       /\ (used' <> 0 <-> covered board 0x0C (prefix 3 [1; 3; 4]%N))
       /\ (covered board 0x0C (prefix 3 [1; 3; 4]%N) ->
           prefix used' out'
           = prefix 0 (replicate 8 NULL)
             ++ matched board 0x0C (prefix 3 [1; 3; 4]%N))
       /\ (forall p, p ∈ matched board 0x0C (prefix 3 [1; 3; 4]%N) <->
                     p ∈ prefix 3 [1; 3; 4]%N
                     /\ Z.testbit 0x0C (slot_of board p) = true)
       /\ (~ covered board 0x0C (prefix 3 [1; 3; 4]%N) -> used' = 0).
Proof.
  repeat apply conj;
    [unfold is_UINT32; lia | unfold is_UINT32; lia | discriminate
    | simpl; lia | simpl; lia | reflexivity | lia | simpl; lia | lia |].
  apply (C2_pattern_matcher board [1; 3; 4]%N 3 0x0C (replicate 8 NULL) 0);
    [unfold is_UINT32; lia | discriminate | simpl; lia | reflexivity
    | lia | simpl; lia | lia].
Defined.

(** C3 on the same DIMMs: the first covered entry is the eighth, the pair
    of the slots 2 and 3. *)
Lemma C3_witness :
  0 <= 3 <= Z.of_nat (length [1; 3; 4]%N)
  /\ 3 < 2 ^ 32
  /\ forallb (valid_dimm board) (prefix 3 [1; 3; 4]%N) = true
  /\ 3 <= Z.of_nat (length (replicate 8 NULL))
  /\ exists rc out' used',
       FindBestInterleavingForDimms board (Some [1; 3; 4]%N) 3
         (Some (replicate 8 NULL)) (Some 0)
       = Done (rc, Some out', Some used')
       /\ rc = EFI_SUCCESS
       /\ used' = 2
       /\ prefix used' out' = [3; 4]%N.
Proof.
  repeat apply conj; [simpl; lia | simpl; lia | lia | reflexivity | simpl; lia|].
  destruct (C3_priority_table_and_scan board [1; 3; 4]%N 3 (replicate 8 NULL))
    as (_ & _ & _ & _ & _ & _ & rc & out' & used' & Heq & Hfirst & _);
    [simpl; lia | lia | reflexivity | simpl; lia |].
  exists rc, out', used'. split; [exact Heq|].
  apply (Hfirst [0x3F; 0x0F; 0x3C; 0x33; 0x15; 0x2A; 0x03] 0x0C
                [0x30; 0x05; 0x0A; 0x14; 0x28; 0x11; 0x22;
                 0x01; 0x02; 0x04; 0x08; 0x10; 0x20; 0]).
  - reflexivity.
  - discriminate.
  - covered_by_computation.
  - intros t Ht. members Ht; covered_by_computation.
Defined.



(** C5 as stated fails in two ways. With a requested size of 2^63 and two
    DIMMs in one group the product wraps to zero: the group is allocated
    nothing, not 2^63. With an empty list no group is made, and the
    shortfall, the whole requested size, is more than the number of groups
    less one. *)
Lemma C5_counterexample_wrap_and_empty :
  (board_pre [1; 2]%N 2
   /\ exists out,
        board_call [1; 2]%N 2 (2 ^ 63) 2%nat = Done (EFI_SUCCESS, out)
        /\ map req_DimmsNum (out_Requests out) = [2]
        /\ map req_Size (out_Requests out) = [0]
        /\ 2 ^ 63 * 2 / 2 = 2 ^ 63
        /\ ~ (2 ^ 63 - Zsum (map req_Size (out_Requests out))
              <= Z.of_nat (length (out_Requests out)) - 1))
  /\ (board_pre [] 0
      /\ exists out,
           board_call [] 0 5 0%nat = Done (EFI_SUCCESS, out)
           /\ out_Requests out = []
           /\ ~ (5 - Zsum (map req_Size (out_Requests out))
                 <= Z.of_nat (length (out_Requests out)) - 1)).
Proof.
  split; (split; [board_precondition|]);
    eexists; (split; [vm_compute; reflexivity|]).
  - split; [reflexivity|]. split; [reflexivity|]. split; [reflexivity|].
    simpl. lia.
  - split; [reflexivity|]. simpl. lia.
Qed.

(** The amended C5 on a request of 100 for the DIMMs of the slots 0, 2 and
    3: the shares are 66 and 33. *)
Lemma C5_witness :
  board_pre [1; 3; 4]%N 3
  /\ 0 < 3
  /\ 0 < 100
  /\ exists out,
       board_call [1; 3; 4]%N 3 100 3%nat = Done (EFI_SUCCESS, out)
       /\ (forall r, r ∈ out_Requests out -> 100 * req_DimmsNum r < 2 ^ 64)
       /\ Forall (fun r => req_Size r = 100 * req_DimmsNum r / 3)
                 (out_Requests out)
       /\ Zsum (map req_Size (out_Requests out)) <= 100
       /\ 100 - Zsum (map req_Size (out_Requests out))
          <= Z.of_nat (length (out_Requests out)) - 1.
Proof.
  assert (Hpre : board_pre [1; 3; 4]%N 3) by board_precondition.
  split; [exact Hpre|]. split; [lia|]. split; [lia|].
  eexists. split; [vm_compute; reflexivity|].
  assert (Hfit : forall r : GoalRequest,
            r ∈ [ {| req_Dimms := [3; 4; 4; 0; 0; 0; 0; 0]%N;
                     req_DimmsNum := 2; req_Size := 66 |};
                  {| req_Dimms := [1; 4; 4; 0; 0; 0; 0; 0]%N;
                     req_DimmsNum := 1; req_Size := 33 |} ] ->
            100 * req_DimmsNum r < 2 ^ 64).
  { intros r Hr. members Hr; simpl; lia. }
  split; [exact Hfit|].
  eapply (C5_proportional_shares board unit unit (list DIMM_PTR * Z) unit
            make_goal 8 tt [1; 3; 4]%N 3 100 None 0 (replicate 8 None) 0 0 tt
            3%nat);
    [exact Hpre | lia | lia | vm_compute; reflexivity | exact Hfit].
Defined.

(** C6 on the same request. *)
Lemma C6_witness :
  board_pre [1; 3; 4]%N 3
  /\ NoDup (prefix 3 [1; 3; 4]%N)
  /\ forall fuel rc out,
       board_call [1; 3; 4]%N 3 100 fuel = Done (rc, out) ->
       rc <> EFI_BAD_BUFFER_SIZE.
Proof.
  assert (Hpre : board_pre [1; 3; 4]%N 3) by board_precondition.
  assert (Hnodup : NoDup (prefix 3 [1; 3; 4]%N)).
  { unfold prefix. simpl.
    repeat (apply NoDup_cons; split;
            [let H := fresh in intros H; members H; discriminate|]).
    apply NoDup_nil. exact I. }
  split; [exact Hpre|]. split; [exact Hnodup|].
  exact (proj2 (C6_total_within_input_count board unit unit
                  (list DIMM_PTR * Z) unit make_goal 8 tt [1; 3; 4]%N 3 100
                  None 0 (replicate 8 None) 0 0 tt Hpre Hnodup)).
Defined.

(** C8 on a working list of three DIMMs in an array of four entries. *)
Lemma C8_witness :
  0 <= 3 <= Z.of_nat (length [5; 7; 9; 0]%N)
  /\ 4%N <> NULL
  /\ (4%N ∉ prefix 3 [5; 7; 9; 0]%N)
  /\ RemoveDimmFromList (Some [5; 7; 9; 0]%N) (Some 3) 4%N
     = Done (EFI_SUCCESS, Some [5; 7; 9; 0]%N, Some 3).
Proof.
  assert (Hnotin : 4%N ∉ prefix 3 [5; 7; 9; 0]%N).
  { unfold prefix. simpl. intros H. members H; discriminate. }
  split; [simpl; lia|]. split; [discriminate|]. split; [exact Hnotin|].
  apply (C8_remove_absent_or_null [5; 7; 9; 0]%N 3 4%N);
    [simpl; lia | discriminate | exact Hnotin].
Defined.



(** ** The further properties on the example board *)

(** X1 on a working list of three DIMMs: the second is removed. *)
Lemma X1_witness :
  0 <= 3 <= Z.of_nat (length [1; 3; 4]%N)
  /\ 3 < 2 ^ 32
  /\ 3%N <> NULL
  /\ 3%N ∈ prefix 3 [1; 3; 4]%N
  /\ exists l',
       RemoveDimmFromList (Some [1; 3; 4]%N) (Some 3) 3%N
       = Done (EFI_SUCCESS, Some l', Some (3 - 1))
       /\ length l' = length [1; 3; 4]%N
       /\ prefix (3 - 1) l' = remove_first 3%N (prefix 3 [1; 3; 4]%N)
       /\ drop (Z.to_nat (3 - 1)) l' = drop (Z.to_nat (3 - 1)) [1; 3; 4]%N.
Proof.
  assert (Hin : 3%N ∈ prefix 3 [1; 3; 4]%N)
    by (unfold prefix; simpl; right; left).
  split; [simpl; lia|]. split; [lia|]. split; [discriminate|].
  split; [exact Hin|].
  apply (X1_remove_present_compacts [1; 3; 4]%N 3 3%N);
    [simpl; lia | lia | discriminate | exact Hin].
Defined.

(** X2 with an array that holds a DIMM of the list, a null pointer and a
    DIMM that is not in the list. *)
Lemma X2_witness :
  0 <= 3 <= Z.of_nat (length [1; 3; 4]%N)
  /\ 3 < 2 ^ 32
  /\ 0 <= 3 <= Z.of_nat (length [3; 0; 6]%N)
  /\ exists l' num',
       RemoveDimmArrayFromList (Some [1; 3; 4]%N) (Some 3) (Some [3; 0; 6]%N) 3
       = Done (EFI_SUCCESS, Some l', Some num')
       /\ length l' = length [1; 3; 4]%N
       /\ 0 <= num' <= 3
       /\ prefix num' l'
          = remove_all (non_null (prefix 3 [3; 0; 6]%N))
                       (prefix 3 [1; 3; 4]%N).
Proof.
  split; [simpl; lia|]. split; [lia|]. split; [simpl; lia|].
  apply (X2_remove_array_drops_failures [1; 3; 4]%N 3 [3; 0; 6]%N 3);
    [simpl; lia | lia | simpl; lia].
Defined.

(** X3 on the DIMMs of the slots 0, 2 and 3 and the pattern of the slots 2
    and 3. *)
Lemma X3_witness :
  is_UINT32 0x0C
  /\ 0 <= 3 <= Z.of_nat (length [1; 3; 4]%N)
  /\ 3 < 2 ^ 32
  /\ forallb (valid_dimm board) (prefix 3 [1; 3; 4]%N) = true
  /\ 3 <= Z.of_nat (length (replicate 8 NULL))
  /\ covered board 0x0C (prefix 3 [1; 3; 4]%N)
  /\ exists out' used' l',
       GetDimmsFromListMatchingInterleaveSet board (Some [1; 3; 4]%N) 3 0x0C
         (Some (replicate 8 NULL)) (Some 0)
       = Done (EFI_SUCCESS, Some out', Some used')
       /\ RemoveDimmArrayFromList (Some [1; 3; 4]%N) (Some 3) (Some out') used'
          = Done (EFI_SUCCESS, Some l', Some (3 - used'))
       /\ prefix used' out' = matched board 0x0C (prefix 3 [1; 3; 4]%N)
       /\ prefix (3 - used') l' = unmatched board 0x0C (prefix 3 [1; 3; 4]%N)
       /\ length l' = length [1; 3; 4]%N.
Proof.
  assert (Hcov : covered board 0x0C (prefix 3 [1; 3; 4]%N))
    by covered_by_computation.
  split; [unfold is_UINT32; lia|]. split; [simpl; lia|]. split; [lia|].
  split; [reflexivity|]. split; [simpl; lia|]. split; [exact Hcov|].
  apply (X3_match_then_remove_splits board [1; 3; 4]%N 3 0x0C
           (replicate 8 NULL));
    [unfold is_UINT32; lia | simpl; lia | lia | reflexivity | simpl; lia
    | exact Hcov].
Defined.

(** X4 on the same DIMMs and the pattern of the six slots, which they do
    not cover: the three DIMMs are written and the count is zero. *)
Lemma X4_witness :
  is_UINT32 0x3F
  /\ 0 <= 3 <= Z.of_nat (length [1; 3; 4]%N)
  /\ forallb (valid_dimm board) (prefix 3 [1; 3; 4]%N) = true
  /\ 0 <= 0
  /\ 0 + 3 <= Z.of_nat (length (replicate 8 NULL))
  /\ 0 + 3 < 2 ^ 32
  /\ let m := matched board 0x3F (prefix 3 [1; 3; 4]%N) in
     exists used',
       GetDimmsFromListMatchingInterleaveSet board (Some [1; 3; 4]%N) 3 0x3F
         (Some (replicate 8 NULL)) (Some 0)
       = Done (EFI_SUCCESS,
               Some (prefix 0 (replicate 8 NULL) ++ m
                     ++ drop (Z.to_nat 0 + length m) (replicate 8 NULL)),
               Some used')
       /\ (covered board 0x3F (prefix 3 [1; 3; 4]%N) ->
           used' = 0 + Z.of_nat (length m))
       /\ (~ covered board 0x3F (prefix 3 [1; 3; 4]%N) -> used' = 0).
Proof.
  split; [unfold is_UINT32; lia|]. split; [simpl; lia|].
  split; [reflexivity|]. split; [lia|]. split; [simpl; lia|]. split; [lia|].
  apply (X4_matcher_writes_before_it_decides board [1; 3; 4]%N 3 0x3F
           (replicate 8 NULL) 0);
    [unfold is_UINT32; lia | simpl; lia | reflexivity | lia | simpl; lia
    | lia].
Defined.

(** X5 with a count of 2 left by the caller. *)
Lemma X5_witness :
  2 <> 0
  /\ FindBestInterleavingForDimms board (Some [1; 3; 4]%N) 3
       (Some (replicate 8 NULL)) (Some 2)
     = Done (EFI_SUCCESS, Some (replicate 8 NULL), Some 2).
Proof.
  split; [lia|].
  apply (X5_selector_needs_zero_count board [1; 3; 4]%N 3
           (replicate 8 NULL) 2).
  lia.
Defined.

(** X8 on the DIMMs of the slots 0, 2 and 3. *)
Lemma X8_witness :
  board_pre [1; 3; 4]%N 3
  /\ exists out,
       board_call [1; 3; 4]%N 3 100 3%nat = Done (EFI_SUCCESS, out)
       /\ Forall (fun r =>
                    population board (req_group r) ∈ INTERLEAVE_SETS
                    /\ population board (req_group r)
                       <> END_OF_INTERLEAVE_SETS)
                 (out_Requests out).
Proof.
  assert (Hpre : board_pre [1; 3; 4]%N 3) by board_precondition.
  split; [exact Hpre|].
  eexists. split; [vm_compute; reflexivity|].
  eapply (X8_every_group_is_a_table_entry board unit unit
            (list DIMM_PTR * Z) unit make_goal 8 tt [1; 3; 4]%N 3 100 None 0
            (replicate 8 None) 0 0 tt 3%nat);
    [exact Hpre | vm_compute; reflexivity].
Defined.


(** X10 on five DIMMs, the slots 0 to 4: three goals. *)
Lemma X10_witness :
  board_pre [1; 2; 3; 4; 5]%N 5
  /\ exists out,
       board_call [1; 2; 3; 4; 5]%N 5 100 5%nat = Done (EFI_SUCCESS, out)
       /\ (length (out_Requests out) <= 6)%nat
       /\ exists n, out_NewRegionsGoalNum out = Some n /\ 0 <= n <= 0 + 6.
Proof.
  assert (Hpre : board_pre [1; 2; 3; 4; 5]%N 5) by board_precondition.
  split; [exact Hpre|].
  eexists. split; [vm_compute; reflexivity|].
  eapply (X10_at_most_six_goals board unit unit (list DIMM_PTR * Z) unit
            make_goal 8 tt [1; 2; 3; 4; 5]%N 5 100 None 0 (replicate 8 None)
            0 0 tt 5%nat);
    [exact Hpre | vm_compute; reflexivity].
Defined.

(** X11 on the DIMMs of the slots 0, 2 and 3 and a size of 100: the shares
    are 66 and 33. *)
Lemma X11_witness :
  board_pre [1; 3; 4]%N 3
  /\ is_UINT64 100
  /\ exists out,
       board_call [1; 3; 4]%N 3 100 3%nat = Done (EFI_SUCCESS, out)
       /\ Forall (fun r => 0 <= req_Size r <= 100) (out_Requests out)
       /\ 0 <= Zsum (map req_Size (out_Requests out)) <= 100.
Proof.
  assert (Hpre : board_pre [1; 3; 4]%N 3) by board_precondition.
  assert (H64 : is_UINT64 100) by (unfold is_UINT64; lia).
  split; [exact Hpre|]. split; [exact H64|].
  eexists. split; [vm_compute; reflexivity|].
  eapply (X11_never_allocates_more_than_requested board unit unit
            (list DIMM_PTR * Z) unit make_goal 8 tt [1; 3; 4]%N 3 100 None 0
            (replicate 8 None) 0 0 tt 3%nat);
    [exact Hpre | exact H64 | vm_compute; reflexivity].
Defined.

(** X12 on a DIMM of slot 0 followed by the DIMM of the third controller:
    the run aborts after one goal. *)
Lemma X12_witness :
  board_pre [1; 7]%N 2
  /\ 100 <> 0
  /\ exists out,
       board_call [1; 7]%N 2 100 2%nat = Done (EFI_ABORTED, out)
       /\ (EFI_ABORTED = EFI_SUCCESS \/ EFI_ABORTED = EFI_ABORTED
           \/ EFI_ABORTED = EFI_OUT_OF_RESOURCES)
       /\ out_NewRegionsGoalNum out
          = Some (0 + Z.of_nat (length (out_Requests out)) - 0)
       /\ (EFI_ABORTED = EFI_OUT_OF_RESOURCES -> out_Requests out <> []).
Proof.
  assert (Hpre : board_pre [1; 7]%N 2) by board_precondition.
  split; [exact Hpre|]. split; [lia|].
  eexists. split; [vm_compute; reflexivity|].
  eapply (X12_goal_count_keeps_what_was_made board unit unit
            (list DIMM_PTR * Z) unit make_goal 8 tt [1; 7]%N 2 100 None 0
            (replicate 8 None) 0 0 tt 2%nat EFI_ABORTED);
    [exact Hpre | lia | vm_compute; reflexivity].
Defined.


(** X14 on the DIMMs of the slots 0, 2 and 3, with the goal constructor of
    the examples, which never fails. *)
Lemma X14_witness :
  board_pre [1; 3; 4]%N 3
  /\ 100 <> 0
  /\ Forall (fun p => slot_of board p < 6) (prefix 3 [1; 3; 4]%N)
  /\ (forall fuel rc out,
        board_call [1; 3; 4]%N 3 100 fuel = Done (rc, out) ->
        rc <> EFI_ABORTED)
  /\ forall fuel,
       3 <= Z.of_nat fuel ->
       exists out, board_call [1; 3; 4]%N 3 100 fuel = Done (EFI_SUCCESS, out).
Proof.
  assert (Hpre : board_pre [1; 3; 4]%N 3) by board_precondition.
  assert (Hslots : Forall (fun p => slot_of board p < 6)
                          (prefix 3 [1; 3; 4]%N)).
  { apply Forall_forall. intros p Hp. unfold prefix in Hp. simpl in Hp.
    members Hp; reflexivity. }
  split; [exact Hpre|]. split; [lia|]. split; [exact Hslots|].
  destruct (X14_six_slot_populations_never_abort board unit unit
              (list DIMM_PTR * Z) unit make_goal 8 tt [1; 3; 4]%N 3 100 None
              0 (replicate 8 None) 0 0 tt Hpre ltac:(lia) Hslots)
    as (Hnever & Hsuccess).
  split; [exact Hnever|]. apply Hsuccess. intros. discriminate.
Defined.

(** X15 on five DIMMs in five slots: groups of 4 and 1. *)
Lemma X15_witness :
  board_pre [1; 2; 3; 4; 5]%N 5
  /\ NoDup (map (slot_of board) (prefix 5 [1; 2; 3; 4; 5]%N))
  /\ exists out,
       board_call [1; 2; 3; 4; 5]%N 5 100 5%nat = Done (EFI_SUCCESS, out)
       /\ map req_DimmsNum (out_Requests out) = [4; 1]
       /\ Forall (fun r => exists s,
                    s ∈ INTERLEAVE_SETS /\ s <> END_OF_INTERLEAVE_SETS
                    /\ req_DimmsNum r = width s
                    /\ Z.of_nat (length (req_group r)) = width s
                    /\ In (req_DimmsNum r) [6; 4; 3; 2; 1])
                 (out_Requests out).
Proof.
  assert (Hpre : board_pre [1; 2; 3; 4; 5]%N 5) by board_precondition.
  assert (Hnodup : NoDup (map (slot_of board) (prefix 5 [1; 2; 3; 4; 5]%N))).
  { unfold prefix. simpl.
    repeat (apply NoDup_cons; split;
            [let H := fresh in intros H; members H; discriminate|]).
    apply NoDup_nil. exact I. }
  split; [exact Hpre|]. split; [exact Hnodup|].
  eexists. split; [vm_compute; reflexivity|]. split; [reflexivity|].
  eapply (X15_group_size_is_the_width_of_its_entry board unit unit
            (list DIMM_PTR * Z) unit make_goal 8 tt [1; 2; 3; 4; 5]%N 5 100
            None 0 (replicate 8 None) 0 0 tt 5%nat);
    [exact Hpre | exact Hnodup | vm_compute; reflexivity].
Defined.

(** X16 on the DIMMs of the slots 0, 2 and 3. *)
Lemma X16_witness :
  board_pre [1; 3; 4]%N 3
  /\ exists out,
       board_call [1; 3; 4]%N 3 100 3%nat = Done (EFI_SUCCESS, out)
       /\ forall i j ri rj p q,
            i <> j ->
            out_Requests out !! i = Some ri ->
            out_Requests out !! j = Some rj ->
            p ∈ req_group ri -> q ∈ req_group rj ->
            slot_of board p <> slot_of board q.
Proof.
  assert (Hpre : board_pre [1; 3; 4]%N 3) by board_precondition.
  split; [exact Hpre|].
  eexists. split; [vm_compute; reflexivity|].
  eapply (X16_groups_occupy_disjoint_slots board unit unit
            (list DIMM_PTR * Z) unit make_goal 8 tt [1; 3; 4]%N 3 100 None 0
            (replicate 8 None) 0 0 tt 3%nat);
    [exact Hpre | vm_compute; reflexivity].
Defined.

(** X17 on controller 1, channel 1 and controller 0, channel 2. *)
Lemma X17_witness :
  0 <= 1 <= 1 /\ 0 <= 0 <= 1 /\ 0 <= 1 /\ 0 <= 2
  /\ 0 <= DIMM_LOCATION 1 1 < 6
  /\ (1 < 3 -> 2 < 3 ->
      DIMM_LOCATION 1 1 = DIMM_LOCATION 0 2 -> 1 = 0 /\ 1 = 2)
  /\ DIMM_LOCATION 1 (1 + 3) = DIMM_LOCATION 1 1
  /\ (1 mod 3 < 2 -> DIMM_LOCATION 2 1 = DIMM_LOCATION 0 (1 + 1)).
Proof.
  split; [lia|]. split; [lia|]. split; [lia|]. split; [lia|].
  apply (X17_slot_of_controller_and_channel 1 1 0 2); lia.
Defined.

(** X18 on the pattern of the six slots, with slot 2 cleared and read. *)
Lemma X18_witness :
  is_UINT32 0x3F /\ 0 <= 2 < 31 /\ 0 <= 2 < 32
  /\ exists map',
       CLEAR_DIMM 0x3F 2 = Done map'
       /\ is_UINT32 map'
       /\ DIMM_POPULATED map' 2
          = (if 2 =? 2 then Done 0 else DIMM_POPULATED 0x3F 2).
Proof.
  split; [unfold is_UINT32; lia|]. split; [lia|]. split; [lia|].
  apply (X18_cleared_slot_reads_zero 0x3F 2 2);
    [unfold is_UINT32; lia | lia | lia].
Defined.

(** X19 on the DIMMs of the slots 0, 2 and 3 in two orders. *)
Lemma X19_witness :
  0 <= 3 <= Z.of_nat (length [1; 3; 4]%N)
  /\ 3 <= Z.of_nat (length [4; 1; 3]%N)
  /\ 3 < 2 ^ 32
  /\ forallb (valid_dimm board) (prefix 3 [1; 3; 4]%N) = true
  /\ 3 <= Z.of_nat (length (replicate 8 NULL))
  /\ prefix 3 [1; 3; 4]%N ≡ₚ prefix 3 [4; 1; 3]%N
  /\ exists rc group group' used,
       FindBestInterleavingForDimms board (Some [1; 3; 4]%N) 3
         (Some (replicate 8 NULL)) (Some 0)
       = Done (rc, Some group, Some used)
       /\ FindBestInterleavingForDimms board (Some [4; 1; 3]%N) 3
            (Some (replicate 8 NULL)) (Some 0)
          = Done (rc, Some group', Some used)
       /\ prefix used group ≡ₚ prefix used group'.
Proof.
  assert (Hperm : prefix 3 [1; 3; 4]%N ≡ₚ prefix 3 [4; 1; 3]%N).
  { unfold prefix. simpl. symmetry.
    exact (Permutation_cons_append [1; 3]%N 4%N). }
  split; [simpl; lia|]. split; [simpl; lia|]. split; [lia|].
  split; [reflexivity|]. split; [simpl; lia|]. split; [exact Hperm|].
  apply (X19_selection_ignores_order board [1; 3; 4]%N [4; 1; 3]%N 3
           (replicate 8 NULL) (replicate 8 NULL));
    [simpl; lia | simpl; lia | lia | reflexivity | simpl; lia | simpl; lia
    | exact Hperm].
Defined.

(** X20 on the DIMMs of the slots 0, 2 and 3: two goals are appended. *)
Lemma X20_witness :
  board_pre [1; 3; 4]%N 3
  /\ exists out,
       board_call [1; 3; 4]%N 3 100 3%nat = Done (EFI_SUCCESS, out)
       /\ exists goals' num',
            out_RegionGoal out = Some goals'
            /\ out_NewRegionsGoalNum out = Some num'
            /\ length goals' = length (replicate 8 (@None (list DIMM_PTR * Z)))
            /\ 0 <= num'
            /\ (forall i : nat,
                  Z.of_nat i < 0 \/ num' + 0 <= Z.of_nat i ->
                  goals' !! i
                  = replicate 8 (@None (list DIMM_PTR * Z)) !! i)
            /\ (forall i : nat,
                  0 <= Z.of_nat i < num' ->
                  exists g, goals' !! i = Some (Some g))
            /\ (EFI_SUCCESS = EFI_OUT_OF_RESOURCES ->
                goals' !! Z.to_nat num' = Some None).
Proof.
  assert (Hpre : board_pre [1; 3; 4]%N 3) by board_precondition.
  split; [exact Hpre|].
  eexists. split; [vm_compute; reflexivity|].
  eapply (X20_goal_array_is_appended_to board unit unit
            (list DIMM_PTR * Z) unit make_goal 8 tt [1; 3; 4]%N 3 100 None 0
            (replicate 8 None) 0 0 tt 3%nat EFI_SUCCESS);
    [exact Hpre | vm_compute; reflexivity].
Defined.

(** ** Runs on the example board *)

(** One DIMM in slot 0: one group of one DIMM, with the whole size. *)
Example single_dimm_in_slot_0 :
  exists out,
    board_call [1%N] 1 100 1%nat = Done (EFI_SUCCESS, out)
    /\ map req_group (out_Requests out) = [[1%N]]
    /\ map req_Size (out_Requests out) = [100]
    /\ out_NewRegionsGoalNum out = Some 1.
Proof. eexists. split; [vm_compute; reflexivity|]. repeat split. Qed.

(** The six slots occupied: the 6-way pattern is taken at the first
    iteration, and one group holds the six DIMMs. *)
Example six_slots_make_one_group :
  exists out,
    board_call [1; 2; 3; 4; 5; 6]%N 6 100 1%nat = Done (EFI_SUCCESS, out)
    /\ map req_group (out_Requests out) = [[1; 2; 3; 4; 5; 6]%N]
    /\ map req_Size (out_Requests out) = [100]
    /\ out_NewRegionsGoalNum out = Some 1.
Proof. eexists. split; [vm_compute; reflexivity|]. repeat split. Qed.

(** A DIMM outside the six slots after one inside: the first group is made,
    then the loop aborts and the goal made stays. *)
Example abort_keeps_earlier_goal :
  exists out,
    board_call [1; 7]%N 2 100 2%nat = Done (EFI_ABORTED, out)
    /\ map req_group (out_Requests out) = [[1%N]]
    /\ out_NewRegionsGoalNum out = Some 1.
Proof. eexists. split; [vm_compute; reflexivity|]. repeat split. Qed.

(** The sentinel, passed as a pattern, names no slot: nothing is matched and
    the count stays zero. The selector never passes it. *)
Example sentinel_matches_nothing :
  GetDimmsFromListMatchingInterleaveSet board (Some [1; 3; 4]%N) 3
    END_OF_INTERLEAVE_SETS (Some (replicate 8 NULL)) (Some 0)
  = Done (EFI_SUCCESS, Some (replicate 8 NULL), Some 0).
Proof. reflexivity. Qed.
